(** * The Gemini tool-calling chat session of MAVProxy

    A shallow embedding of [MAVProxy/modules/mavproxy_chat/chat_gemini.py]
    (class [ChatGemini]) and of the properties its specification states.

    Python values are modelled as follows.
    - [str] is [string]: a sequence of code points below 256.
    - JSON-like values (tool arguments and tool results) are [json].
    - an exception is its message, the text [str(e)] gives.
    - the session object is the record [world]; everything the session does
      to its collaborators (console, status and reply callbacks, backend,
      vehicle) is appended to [trace].
    - the collaborators that are not part of the module (the Gemini SDK,
      [re], [json.loads], the vehicle facade of [mpstate], the clock) are
      variables of the section. *)

From Stdlib Require Import List String Ascii ZArith Arith Lia Bool.
From Stdlib Require Import Sorting.Sorted Sorting.Permutation.
From Stdlib Require Import DecimalString.
From Stdlib Require QArith_base.
Import ListNotations.

Set Warnings "-register-all".

Open Scope list_scope.
Open Scope string_scope.

(** ** Strings *)

Module Str.

(** [s.count(x)] for a one-character [x]. *)
Fixpoint count (x : ascii) (s : string) : nat :=
  match s with
  | EmptyString => 0
  | String c s' => (if Ascii.eqb c x then 1 else 0) + count x s'
  end.

(** Python truthiness of a string. *)
Definition truthy (s : string) : bool :=
  match s with EmptyString => false | _ => true end.

(** The upper case of one code point below 256: the letters a to z and the
    Latin-1 letters 224 to 254 (but the division sign, 247) move down by 32,
    and the sharp s (223) becomes SS. The two other lower-case letters of
    the range, the micro sign (181) and the y with diaeresis (255), have
    their upper case above 255, outside the strings of the model: they are
    left as they are here, and [upper_within] tells that a string holds
    neither. *)
Definition upper_char (c : ascii) : string :=
  let n := nat_of_ascii c in
  if (((97 <=? n) && (n <=? 122))
      || ((224 <=? n) && (n <=? 254) && negb (n =? 247)))%nat
  then String (ascii_of_nat (n - 32)) ""
  else if (n =? 223)%nat then "SS"
  else String c "".

(** [s.upper()]. It is the upper case Python gives on every string that
    [upper_within] accepts. *)
Fixpoint upper (s : string) : string :=
  match s with
  | EmptyString => EmptyString
  | String c s' => upper_char c ++ upper s'
  end.

(** The upper case of [s] stays below 256. *)
Fixpoint upper_within (s : string) : bool :=
  match s with
  | EmptyString => true
  | String c s' =>
      negb ((nat_of_ascii c =? 181) || (nat_of_ascii c =? 255))%nat
      && upper_within s'
  end.

(** [needle in s]. *)
Definition contains (needle s : string) : Prop :=
  exists before after, s = before ++ needle ++ after.

Definition hex_digit (n : nat) : ascii :=
  if (n <? 10)%nat then ascii_of_nat (48 + n) else ascii_of_nat (87 + n).

(** [str(z)] for an integer. *)
Definition of_Z (z : Z) : string := NilZero.string_of_int (Z.to_int z).

(** The escape [json.dumps] writes for one character of a string
    ([ensure_ascii] is on: only the printable ASCII characters other than the
    quote and the backslash are written as they are). *)
Definition json_escape_char (c : ascii) : string :=
  let n := nat_of_ascii c in
  if (n =? 34)%nat then "\" ++ String c ""
  else if (n =? 92)%nat then "\\"
  else if (n =? 10)%nat then "\n"
  else if (n =? 13)%nat then "\r"
  else if (n =? 9)%nat then "\t"
  else if (n =? 8)%nat then "\b"
  else if (n =? 12)%nat then "\f"
  else if ((32 <=? n) && (n <=? 126))%nat then String c ""
  else "\u00" ++ String (hex_digit (n / 16)) (String (hex_digit (n mod 16)) "").

Fixpoint json_escape (s : string) : string :=
  match s with
  | EmptyString => EmptyString
  | String c s' => json_escape_char c ++ json_escape s'
  end.

(** [json.dumps(s)] for a string [s]. *)
Definition json_quote (s : string) : string :=
  String (ascii_of_nat 34) (json_escape s ++ String (ascii_of_nat 34) "").

End Str.

(** ** Sorting names: [sorted(...)] on strings *)

Module Sorted_names.

Fixpoint insert (x : string) (l : list string) : list string :=
  match l with
  | [] => [x]
  | y :: l' => if String.leb x y then x :: l else y :: insert x l'
  end.

(** [sorted(l)]: ascending in the lexicographic order of code points. *)
Fixpoint sorted (l : list string) : list string :=
  match l with
  | [] => []
  | x :: l' => insert x (sorted l')
  end.

Definition le (a b : string) : Prop := String.leb a b = true.

End Sorted_names.

(** ** Exceptions and outcomes *)

(** An exception is represented by its message, [str(e)]. *)
Definition exn := string.

Inductive outcome (A : Type) : Type :=
| Ret (a : A)
| Raise (e : exn).

Arguments Ret {A} a.
Arguments Raise {A} e.

(** ** The response objects of the backend *)

(** A function-call directive. [fc_name] is [None] for a name that is
    [None]; [fc_args] is the arguments blob given to [json.loads]. *)
Record function_call := {
  fc_name : option string;
  fc_args : string
}.

(** A part of a response: [text] is [None] when the part has no attribute
    [text], [part_call] is [None] when it has no attribute [function_call]. *)
Record part := {
  text : option string;
  part_call : option function_call
}.

(** The content of a candidate; [parts] is [None] for a malformed content,
    whose attribute [parts] cannot be read (AttributeError). *)
Record content := {
  parts : option (list part)
}.

(** A candidate; [cand_content] is [None] when the attribute is absent or
    falsy. *)
Record candidate := {
  cand_content : option content
}.

Record response := {
  candidates : list candidate
}.

(** A response carries a function-call directive when one of its parts has
    the attribute [function_call]. *)
Definition part_has_call (p : part) : bool :=
  match part_call p with Some _ => true | None => false end.

Definition content_has_call (c : content) : bool :=
  match parts c with Some ps => existsb part_has_call ps | None => false end.

Definition candidate_has_call (c : candidate) : bool :=
  match cand_content c with Some ct => content_has_call ct | None => false end.

Definition carries_function_call (r : response) : bool :=
  existsb candidate_has_call (candidates r).

(** What one request to the backend gives: an exception (network error),
    a falsy response ([None]) or a response. *)
Definition backend_reply := outcome (option response).

Definition reply_carries_call (b : backend_reply) : bool :=
  match b with
  | Ret (Some r) => carries_function_call r
  | _ => false
  end.

(** ** MAVLink vehicle types (enum [MAV_TYPE] of pymavlink, which is not
    part of this repository; the values are those of the MAVLink standard). *)

Module mavlink.
Definition MAV_TYPE_FIXED_WING : Z := 1.
Definition MAV_TYPE_QUADROTOR : Z := 2.
Definition MAV_TYPE_COAXIAL : Z := 3.
Definition MAV_TYPE_HELICOPTER : Z := 4.
Definition MAV_TYPE_ANTENNA_TRACKER : Z := 5.
Definition MAV_TYPE_AIRSHIP : Z := 7.
Definition MAV_TYPE_GROUND_ROVER : Z := 10.
Definition MAV_TYPE_SURFACE_BOAT : Z := 11.
Definition MAV_TYPE_SUBMARINE : Z := 12.
Definition MAV_TYPE_HEXAROTOR : Z := 13.
Definition MAV_TYPE_OCTOROTOR : Z := 14.
Definition MAV_TYPE_TRICOPTER : Z := 15.
Definition MAV_TYPE_VTOL_DUOROTOR : Z := 19.
Definition MAV_TYPE_VTOL_QUADROTOR : Z := 20.
Definition MAV_TYPE_VTOL_TILTROTOR : Z := 21.
Definition MAV_TYPE_DODECAROTOR : Z := 29.
End mavlink.

(** The latest HEARTBEAT message. *)
Record heartbeat_msg := {
  hb_type : Z;
  custom_mode : Z
}.

(** [x in l] for MAV_TYPE values. *)
Definition type_in (x : Z) (l : list Z) : bool := existsb (Z.eqb x) l.

(** [x in l] for names. *)
Definition name_in (x : string) (l : list string) : bool :=
  existsb (String.eqb x) l.

(** ** A regular-expression engine for a fragment of Python's [re]

    [re] is a library of Python, not a part of the module; the session is
    stated over any engine (section variables below). This engine serves as
    a concrete instance. It covers the patterns built from literal
    characters, [.] and the postfix operators [*], [+] and [?]; [compile]
    answers [Raise] on every other pattern. On the
    patterns it accepts, [matches] is [Pattern.match]: some prefix of the
    string matches the pattern. *)

Module Re_fragment.

Inductive atom := Lit (c : ascii) | Dot.
Inductive quant := One | Star | Plus | Opt.
Definition pattern := list (atom * quant).

Definition special : string := ".^$*+?{}[]\|()".

Definition is_special (c : ascii) : bool := (0 <? Str.count c special)%nat.

Definition quant_of (c : ascii) : option quant :=
  if Ascii.eqb c "*" then Some Star
  else if Ascii.eqb c "+" then Some Plus
  else if Ascii.eqb c "?" then Some Opt
  else None.

Definition unsupported : exn := "pattern outside the supported fragment".

Definition atom_of (c : ascii) : option atom :=
  if Ascii.eqb c "." then Some Dot
  else if is_special c then None
  else Some (Lit c).

Definition cons_item (i : atom * quant) (r : outcome pattern) : outcome pattern :=
  match r with
  | Ret p => Ret (i :: p)
  | Raise e => Raise e
  end.

(** One atom, then at most one postfix operator. *)
Fixpoint compile (s : string) : outcome pattern :=
  match s with
  | EmptyString => Ret []
  | String c r =>
      match atom_of c with
      | None => Raise unsupported
      | Some a =>
          match r with
          | EmptyString => Ret [(a, One)]
          | String c1 r1 =>
              match quant_of c1 with
              | Some q =>
                  match r1 with
                  | EmptyString => Ret [(a, q)]
                  | String c2 _ =>
                      match quant_of c2 with
                      | Some _ => Raise unsupported
                      | None => cons_item (a, q) (compile r1)
                      end
                  end
              | None => cons_item (a, One) (compile r)
              end
          end
      end
  end.

(** [.] matches every character but the newline. *)
Definition atom_matches (a : atom) (c : ascii) : bool :=
  match a with
  | Lit x => Ascii.eqb x c
  | Dot => negb (Ascii.eqb c (ascii_of_nat 10))
  end.

(** Some prefix of the string matches the pattern. *)
Fixpoint matches (p : pattern) : string -> bool :=
  match p with
  | [] => fun _ => true
  | (a, q) :: p' =>
      let k := matches p' in
      let star :=
        fix star (s : string) : bool :=
          k s || match s with
                 | String c s' => atom_matches a c && star s'
                 | EmptyString => false
                 end in
      match q with
      | One => fun s =>
          match s with
          | String c s' => atom_matches a c && k s'
          | EmptyString => false
          end
      | Opt => fun s =>
          k s || match s with
                 | String c s' => atom_matches a c && k s'
                 | EmptyString => false
                 end
      | Star => star
      | Plus => fun s =>
          match s with
          | String c s' => atom_matches a c && star s'
          | EmptyString => false
          end
      end
  end.

End Re_fragment.

(** ** The session *)

Section Session.

(** Python floats (the values of the vehicle parameters) and the text
    [json.dumps] writes for them. *)
Variable num : Type.
Variable num_repr : num -> string.

(** JSON-like values. A dict keeps its insertion order. *)
Inductive json : Type :=
| JNull
| JBool (b : bool)
| JInt (z : Z)
| JFloat (x : num)
| JStr (s : string)
| JList (l : list json)
| JDict (d : list (string * json)).

(** [json.dumps(j)] with the default separators. *)
Fixpoint json_dumps (j : json) : string :=
  match j with
  | JNull => "null"
  | JBool true => "true"
  | JBool false => "false"
  | JInt z => Str.of_Z z
  | JFloat x => num_repr x
  | JStr s => Str.json_quote s
  | JList l =>
      "[" ++ (fix items (l : list json) : string :=
                match l with
                | [] => EmptyString
                | x :: l' =>
                    match l' with
                    | [] => json_dumps x
                    | _ :: _ => json_dumps x ++ ", " ++ items l'
                    end
                end) l ++ "]"
  | JDict d =>
      "{" ++ (fix items (d : list (string * json)) : string :=
                match d with
                | [] => EmptyString
                | (k, x) :: d' =>
                    match d' with
                    | [] => Str.json_quote k ++ ": " ++ json_dumps x
                    | _ :: _ => Str.json_quote k ++ ": " ++ json_dumps x ++ ", " ++ items d'
                    end
                end) d ++ "}"
  end.

(** [type(j).__name__]. *)
Definition type_name (j : json) : string :=
  match j with
  | JNull => "NoneType"
  | JBool _ => "bool"
  | JInt _ => "int"
  | JFloat _ => "float"
  | JStr _ => "str"
  | JList _ => "list"
  | JDict _ => "dict"
  end.

Definition attribute_error (j : json) (attr : string) : exn :=
  "'" ++ type_name j ++ "' object has no attribute '" ++ attr ++ "'".

(** [d.get(key, None)] on the items of a dict. *)
Fixpoint dict_get (d : list (string * json)) (key : string) : json :=
  match d with
  | [] => JNull
  | (k, v) :: d' => if String.eqb k key then v else dict_get d' key
  end.

(** [d[key] = v]: the value of an existing key is replaced where it is, a new
    key goes to the end. *)
Fixpoint dict_set (d : list (string * json)) (key : string) (v : json)
  : list (string * json) :=
  match d with
  | [] => [(key, v)]
  | (k, x) :: d' =>
      if String.eqb k key then (k, v) :: d' else (k, x) :: dict_set d' key v
  end.

(** What the session does to its collaborators, in order. *)
Inductive event : Type :=
| EPrint (line : string)
| EStatus (status : string)
| EReply (reply : string)
| EGenerate (prompt : string)
| ESendMessage (message : string)
| EParamSet (name value : json)
| EStdin (line : string)
| EAcquire
| ERelease.

(** The session object. [model] and [chat] tell whether the attribute is
    set, [status_cb] and [reply_cb] whether a callback was given, [send_lock]
    whether the lock is held, [calls] how many requests the backend has
    received. *)
Record world := {
  api_key : option string;
  model : bool;
  chat : bool;
  status_cb : bool;
  reply_cb : bool;
  send_lock : bool;
  calls : nat;
  trace : list event
}.

Definition emit (e : event) (w : world) : world :=
  {| api_key := api_key w; model := model w; chat := chat w;
     status_cb := status_cb w; reply_cb := reply_cb w;
     send_lock := send_lock w; calls := calls w;
     trace := trace w ++ [e] |}.

Definition set_model (b : bool) (w : world) : world :=
  {| api_key := api_key w; model := b; chat := chat w;
     status_cb := status_cb w; reply_cb := reply_cb w;
     send_lock := send_lock w; calls := calls w; trace := trace w |}.

Definition set_chat (b : bool) (w : world) : world :=
  {| api_key := api_key w; model := model w; chat := b;
     status_cb := status_cb w; reply_cb := reply_cb w;
     send_lock := send_lock w; calls := calls w; trace := trace w |}.

Definition set_send_lock (b : bool) (w : world) : world :=
  {| api_key := api_key w; model := model w; chat := chat w;
     status_cb := status_cb w; reply_cb := reply_cb w;
     send_lock := b; calls := calls w; trace := trace w |}.

Definition count_call (w : world) : world :=
  {| api_key := api_key w; model := model w; chat := chat w;
     status_cb := status_cb w; reply_cb := reply_cb w;
     send_lock := send_lock w; calls := S (calls w); trace := trace w |}.

(** *** Collaborators *)

(** [json.loads]: [None] when it raises. *)
Variable json_loads : string -> option json.

(** [re.compile] ([Raise] for [re.error]) and [Pattern.match]. *)
Variable re_pattern : Type.
Variable re_compile : string -> outcome re_pattern.
Variable re_match : re_pattern -> string -> bool.

(** The backend: what its n-th request is answered with. *)
Variable backend : nat -> backend_reply.

(** The Gemini SDK: [genai.configure] followed by [genai.GenerativeModel],
    and [model.start_chat]. *)
Variable genai_model : outcome unit.
Variable genai_start_chat : outcome unit.

(** [datetime.now().strftime(...)]. *)
Variable datetime_now : string.

(** The vehicle facade [mpstate]: the latest HEARTBEAT of [master()],
    [master().motors_armed()], the parameter dict [mav_param], and the
    functions [get_mav_param(name, None)], [param_set] and [process_stdin]. *)
Record vehicle := {
  heartbeat : outcome (option heartbeat_msg);
  motors_armed : outcome Z;
  mav_param : list (string * num);
  get_mav_param : string -> option num;
  param_set : json -> json -> outcome unit;
  process_stdin : string -> outcome unit
}.

Variable mpstate : vehicle.

(** *** Commands

    [M] is a command that returns or raises; [D] is one that may also fail to
    return ([None]: the recursion ran out of fuel, or a held lock is waited
    for). A raise keeps the changes made before it. *)

Definition M (A : Type) : Type := world -> outcome A * world.

Definition ret {A} (a : A) : M A := fun w => (Ret a, w).

Definition raise {A} (e : exn) : M A := fun w => (Raise e, w).

Definition bind {A B} (c : M A) (k : A -> M B) : M B :=
  fun w =>
    match c w with
    | (Ret a, w') => k a w'
    | (Raise e, w') => (Raise e, w')
    end.

Definition try_catch {A} (c : M A) (handler : exn -> M A) : M A :=
  fun w =>
    match c w with
    | (Ret a, w') => (Ret a, w')
    | (Raise e, w') => handler e w'
    end.

Definition of_outcome {A} (o : outcome A) : M A := fun w => (o, w).

Definition get_world : M world := fun w => (Ret w, w).

Definition modify (f : world -> world) : M unit := fun w => (Ret tt, f w).

Definition D (A : Type) : Type := world -> option (outcome A * world).

Definition lift {A} (c : M A) : D A := fun w => Some (c w).

Definition retD {A} (a : A) : D A := fun w => Some (Ret a, w).

Definition bindD {A B} (c : D A) (k : A -> D B) : D B :=
  fun w =>
    match c w with
    | None => None
    | Some (Ret a, w') => k a w'
    | Some (Raise e, w') => Some (Raise e, w')
    end.

Definition try_catchD {A} (c : D A) (handler : exn -> D A) : D A :=
  fun w =>
    match c w with
    | None => None
    | Some (Ret a, w') => Some (Ret a, w')
    | Some (Raise e, w') => handler e w'
    end.

(** [for x in l: body(x)]. *)
Fixpoint for_each {A} (l : list A) (body : A -> D unit) : D unit :=
  match l with
  | [] => retD tt
  | x :: l' => bindD (body x) (fun _ => for_each l' body)
  end.

Notation "x <- c ;; k" := (bind c (fun x => k))
  (at level 61, c at next level, right associativity).
Notation "c ;; k" := (bind c (fun _ => k))
  (at level 61, right associativity).
Notation "x <~ c ;; k" := (bindD c (fun x => k))
  (at level 61, c at next level, right associativity).
Notation "c ;;; k" := (bindD c (fun _ => k))
  (at level 61, right associativity).

(** *** Console, sinks and backend *)

Definition print (line : string) : M unit := modify (emit (EPrint line)).

Definition send_status (status : string) : M unit :=
  fun w => if status_cb w then modify (emit (EStatus status)) w else ret tt w.

Definition send_reply (reply : string) : M unit :=
  fun w => if reply_cb w then modify (emit (EReply reply)) w else ret tt w.

(** One request to the backend: it is recorded, counted and answered. *)
Definition backend_request (e : event) : M (option response) :=
  fun w => (backend (calls w), count_call (emit e w)).

(** [self.model.generate_content(prompt)]. *)
Definition generate_content (prompt : string) : M (option response) :=
  backend_request (EGenerate prompt).

(** [self.chat.send_message(message)]; [self.chat] may still be [None]. *)
Definition chat_send_message (message : string) : M (option response) :=
  fun w =>
    if chat w then backend_request (ESendMessage message) w
    else raise "'NoneType' object has no attribute 'send_message'" w.

(** Python truthiness of [self.api_key]. *)
Definition key_truthy (k : option string) : bool :=
  match k with
  | Some s => Str.truthy s
  | None => false
  end.

Definition initialize_model : M bool :=
  try_catch
    (of_outcome genai_model ;;
     modify (set_model true) ;;
     of_outcome genai_start_chat ;;
     modify (set_chat true) ;;
     print "chat: Successfully configured Gemini API" ;;
     ret true)
    (fun e =>
       print ("chat: Failed to initialize Gemini model: " ++ e) ;;
       ret false).

Definition check_connection : M bool :=
  w <- get_world ;;
  if negb (key_truthy (api_key w)) then
    print "chat: Gemini API key not set. Use 'chat set_gemini_key YOUR_API_KEY'" ;;
    ret false
  else
    ready <- (if negb (model w) then initialize_model else ret true) ;;
    if negb ready then ret false
    else
      try_catch
        (generate_content "Test connection" ;; ret true)
        (fun e =>
           print ("chat: failed to connect to Gemini API: " ++ e) ;;
           ret false).

(** *** Tool functions *)

(** [arguments.get(key, None)]; only a dict has [get]. *)
Definition arguments_get (arguments : json) (key : string) : M json :=
  match arguments with
  | JDict d => ret (dict_get d key)
  | _ => raise (attribute_error arguments "get")
  end.

Definition get_current_datetime (arguments : json) : M json :=
  ret (JStr datetime_now).

Definition get_vehicle_type (arguments : json) : M json :=
  hearbeat_msg <- of_outcome (heartbeat mpstate) ;;
  let vehicle_type_str := "unknown" in
  let vehicle_type_str :=
    match hearbeat_msg with
    | None => vehicle_type_str
    | Some hb =>
        let ty := hb_type hb in
        let s := vehicle_type_str in
        let s := if type_in ty [mavlink.MAV_TYPE_FIXED_WING;
                                mavlink.MAV_TYPE_VTOL_DUOROTOR;
                                mavlink.MAV_TYPE_VTOL_QUADROTOR;
                                mavlink.MAV_TYPE_VTOL_TILTROTOR]
                 then "Plane" else s in
        let s := if Z.eqb ty mavlink.MAV_TYPE_GROUND_ROVER then "Rover" else s in
        let s := if Z.eqb ty mavlink.MAV_TYPE_SURFACE_BOAT then "Boat" else s in
        let s := if Z.eqb ty mavlink.MAV_TYPE_SUBMARINE then "Sub" else s in
        let s := if type_in ty [mavlink.MAV_TYPE_QUADROTOR;
                                mavlink.MAV_TYPE_COAXIAL;
                                mavlink.MAV_TYPE_HEXAROTOR;
                                mavlink.MAV_TYPE_OCTOROTOR;
                                mavlink.MAV_TYPE_TRICOPTER;
                                mavlink.MAV_TYPE_DODECAROTOR]
                 then "Copter" else s in
        let s := if Z.eqb ty mavlink.MAV_TYPE_HELICOPTER then "Heli" else s in
        let s := if Z.eqb ty mavlink.MAV_TYPE_ANTENNA_TRACKER then "Tracker" else s in
        let s := if Z.eqb ty mavlink.MAV_TYPE_AIRSHIP then "Blimp" else s in
        s
    end in
  ret (JDict [("vehicle_type", JStr vehicle_type_str)]).

Definition set_vehicle_mode (arguments : json) : M json :=
  mode <- arguments_get arguments "mode" ;;
  match mode with
  | JNull => ret (JStr "set_vehicle_mode: mode not specified")
  | JStr m =>
      let mode := Str.upper m in
      try_catch
        (modify (emit (EStdin ("mode " ++ mode))) ;;
         of_outcome (process_stdin mpstate ("mode " ++ mode)) ;;
         ret (JStr ("set_vehicle_mode: Requested mode change to " ++ mode)))
        (fun e =>
           ret (JStr ("set_vehicle_mode: Failed to set mode to " ++ mode
                      ++ " - " ++ e)))
  | other => raise (attribute_error other "upper")
  end.

Definition get_vehicle_state (arguments : json) : M json :=
  hearbeat_msg <- of_outcome (heartbeat mpstate) ;;
  mode_number <-
    match hearbeat_msg with
    | None =>
        print "chat: get_vehicle_state: vehicle mode is unknown" ;; ret 0%Z
    | Some hb => ret (custom_mode hb)
    end ;;
  armed <- of_outcome (motors_armed mpstate) ;;
  ret (JDict [("armed", JBool (0 <? armed)%Z); ("mode", JInt mode_number)]).

Definition regex_characters : string := ".^$*+?{}[]\|()".

Fixpoint contains_regex_loop (chars : string) (s : string) : bool :=
  match chars with
  | EmptyString => false
  | String x chars' =>
      if (0 <? Str.count x s)%nat then true else contains_regex_loop chars' s
  end.

Definition contains_regex (s : string) : bool :=
  contains_regex_loop regex_characters s.

(** The loop of [get_parameter] over the sorted names. *)
Fixpoint get_parameter_loop (pattern : re_pattern) (names : list string)
    (param_list : list (string * json)) : M (list (string * json)) :=
  match names with
  | [] => ret param_list
  | existing_param_name :: rest =>
      if re_match pattern existing_param_name then
        match get_mav_param mpstate existing_param_name with
        | None =>
            print ("chat: get_parameter unable to get " ++ existing_param_name) ;;
            get_parameter_loop pattern rest param_list
        | Some param_value =>
            get_parameter_loop pattern rest
              (dict_set param_list existing_param_name (JFloat param_value))
        end
      else get_parameter_loop pattern rest param_list
  end.

(** A name that is neither a string nor [None] raises: a number, a boolean
    or a mapping has no [count] for [contains_regex] to call; a list has
    one, but cannot be hashed, which [re.compile] (its cache) and the
    parameter dict behind [get_mav_param] both do with the name. *)
Definition get_parameter (arguments : json) : M json :=
  param_name <- arguments_get arguments "name" ;;
  match param_name with
  | JNull => ret (JStr "get_parameter: name not specified")
  | JStr name =>
      if contains_regex name then
        pattern <- of_outcome (re_compile name) ;;
        param_list <- get_parameter_loop pattern
                        (Sorted_names.sorted (map fst (mav_param mpstate))) [] ;;
        ret (JDict param_list)
      else
        match get_mav_param mpstate name with
        | None => ret (JStr ("get_parameter: " ++ name ++ " parameter not found"))
        | Some param_value => ret (JDict (dict_set [] name (JFloat param_value)))
        end
  | JList _ => raise "unhashable type: 'list'"
  | other => raise (attribute_error other "count")
  end.

Definition set_parameter (arguments : json) : M json :=
  param_name <- arguments_get arguments "name" ;;
  match param_name with
  | JNull => ret (JStr "set_parameter: parameter name not specified")
  | _ =>
      param_value <- arguments_get arguments "value" ;;
      match param_value with
      | JNull => ret (JStr "set_parameter: value not specified")
      | _ =>
          modify (emit (EParamSet param_name param_value)) ;;
          of_outcome (param_set mpstate param_name param_value) ;;
          ret (JStr "set_parameter: parameter value set")
      end
  end.

(** *** The tool registry *)

Record tool_info := {
  description : string;
  parameters : json;
  function : json -> M json
}.

(** The schema of a tool that takes no argument. *)
Definition dummy_parameters : json :=
  JDict [("type", JStr "object");
         ("properties",
          JDict [("_dummy",
                  JDict [("type", JStr "string");
                         ("description", JStr "This parameter is not used")])]);
         ("required", JList [])].

Definition define_tools : list (string * tool_info) :=
  [ ("get_current_datetime",
     {| description := "Get the current date and time";
        parameters := dummy_parameters;
        function := get_current_datetime |});
    ("get_vehicle_type",
     {| description := "Get the type of vehicle (Copter, Plane, Rover, etc.)";
        parameters := dummy_parameters;
        function := get_vehicle_type |});
    ("get_vehicle_state",
     {| description :=
          "Get the current state of the vehicle including armed status and mode";
        parameters := dummy_parameters;
        function := get_vehicle_state |});
    ("get_parameter",
     {| description := "Get a vehicle parameter value";
        parameters :=
          JDict [("type", JStr "object");
                 ("properties",
                  JDict [("name",
                          JDict [("type", JStr "string");
                                 ("description",
                                  JStr "The name of the parameter to get")])]);
                 ("required", JList [JStr "name"])];
        function := get_parameter |});
    ("set_parameter",
     {| description := "Set a vehicle parameter value";
        parameters :=
          JDict [("type", JStr "object");
                 ("properties",
                  JDict [("name",
                          JDict [("type", JStr "string");
                                 ("description",
                                  JStr "The name of the parameter to set")]);
                         ("value",
                          JDict [("type", JStr "number");
                                 ("description",
                                  JStr "The value to set the parameter to")])]);
                 ("required", JList [JStr "name"; JStr "value"])];
        function := set_parameter |});
    ("set_vehicle_mode",
     {| description := "Set the vehicle flight mode";
        parameters :=
          JDict [("type", JStr "object");
                 ("properties",
                  JDict [("mode",
                          JDict [("type", JStr "string");
                                 ("description",
                                  JStr "The mode to set (e.g., 'GUIDED', 'AUTO', 'STABILIZE', etc.)")])]);
                 ("required", JList [JStr "mode"])];
        function := set_vehicle_mode |}) ].

(** The names the registry holds. *)
Definition registered_names : list string := map fst define_tools.

(** The handler the registry holds for a name. *)
Fixpoint registered_handler (tools : list (string * tool_info)) (name : string)
  : option (json -> M json) :=
  match tools with
  | [] => None
  | (n, info) :: tools' =>
      if String.eqb n name then Some (function info)
      else registered_handler tools' name
  end.

(** [getattr(self, func_name, None)] on the methods that take the arguments
    of a call. The session has other attributes, but [handle_function_call]
    uses the result only for a name of [supported_funcs]. *)
Definition getattr_self (func_name : string) : option (json -> M json) :=
  if String.eqb func_name "get_current_datetime" then Some get_current_datetime
  else if String.eqb func_name "get_vehicle_type" then Some get_vehicle_type
  else if String.eqb func_name "set_vehicle_mode" then Some set_vehicle_mode
  else if String.eqb func_name "get_vehicle_state" then Some get_vehicle_state
  else if String.eqb func_name "get_parameter" then Some get_parameter
  else if String.eqb func_name "set_parameter" then Some set_parameter
  else None.

Definition supported_funcs : list string :=
  [ "get_current_datetime";
    "get_vehicle_type";
    "get_vehicle_state";
    "get_parameter";
    "set_parameter" ].

(** *** Dispatch *)

(** The output of a call: the lines from [output = ...] to the end of the
    [if]/[else] of [handle_function_call]. *)
Definition call_function (func_name : string) (arguments : json) : M json :=
  let func := getattr_self func_name in
  match name_in func_name supported_funcs, func with
  | true, Some func =>
      try_catch
        (func arguments)
        (fun e =>
           let error_message := func_name ++ ": function call failed - " ++ e in
           print ("chat: " ++ error_message) ;;
           ret (JStr error_message))
  | _, _ =>
      print ("chat: Unrecognized function name: " ++ func_name) ;;
      ret (JStr ("Unrecognized function call: " ++ func_name))
  end.

(** The message a function result goes back to the backend in. *)
Definition function_result_message (func_name : string) (output : json) : string :=
  "Function result for " ++ func_name ++ ": " ++ json_dumps output.

(** The last [try] of [handle_function_call]: the result is sent to the
    backend and the response is handled by [handle_response], which stands
    for [self.handle_gemini_response]. *)
Definition send_function_result (handle_response : option response -> D unit)
    (func_name : string) (output : json) : D unit :=
  try_catchD
    (response <~ lift (chat_send_message
                         (function_result_message func_name output)) ;;
     handle_response response)
    (fun e => lift (print ("chat: Error sending function response: " ++ e))).

(** The arguments of a call: [json.loads(function_call.args)], or the empty
    dict when that raises. *)
Definition call_arguments (fc : function_call) : json :=
  match json_loads (fc_args fc) with
  | Some arguments => arguments
  | None => JDict []
  end.

Definition handle_function_call (handle_response : option response -> D unit)
    (fc : function_call) : D unit :=
  match fc_name fc with
  | None | Some EmptyString =>
      lift (print "chat: Empty function name received")
  | Some func_name =>
      let arguments := call_arguments fc in
      lift (print ("chat: Handling function call: " ++ func_name)) ;;;
      output <~ lift (call_function func_name arguments) ;;
      send_function_result handle_response func_name output
  end.

(** *** The response loop *)

Definition content_parts (c : content) : M (list part) :=
  match parts c with
  | Some ps => ret ps
  | None => raise "'Content' object has no attribute 'parts'"
  end.

Definition handle_part (handle_response : option response -> D unit)
    (p : part) : D unit :=
  (match text p with
   | Some t => if Str.truthy t then lift (send_reply t) else retD tt
   | None => retD tt
   end) ;;;
  match part_call p with
  | Some fc => handle_function_call handle_response fc
  | None => retD tt
  end.

Definition handle_candidate (handle_response : option response -> D unit)
    (c : candidate) : D unit :=
  match cand_content c with
  | None => retD tt
  | Some ct =>
      ps <~ lift (content_parts ct) ;;
      for_each ps (handle_part handle_response)
  end.

(** [fuel] bounds the depth of the recursion through
    [handle_function_call]. *)
Fixpoint handle_gemini_response (fuel : nat) (r : option response) : D unit :=
  match fuel with
  | O => fun _ => None
  | S fuel' =>
      match r with
      | None => lift (send_reply "No response received from Gemini")
      | Some r =>
          match candidates r with
          | [] => lift (send_reply "No response received from Gemini")
          | cs =>
              for_each cs (handle_candidate (handle_gemini_response fuel')) ;;;
              lift (send_status "Ready")
          end
      end
  end.

(** *** Sending *)

(** [with self.send_lock: body]. Waiting for a lock that is held never
    returns; the lock is released however the body ends. *)
Definition with_send_lock {A} (body : D A) : D A :=
  fun w =>
    if send_lock w then None
    else
      match body (emit EAcquire (set_send_lock true w)) with
      | None => None
      | Some (o, w') => Some (o, emit ERelease (set_send_lock false w'))
      end.

(** The block under the lock in [send_to_assistant]. *)
Definition send_exchange (fuel : nat) (text : string) : D unit :=
  connected <~ lift check_connection ;;
  if negb connected then
    lift (send_reply "chat: failed to connect to Gemini API")
  else
    try_catchD
      (lift (send_status "Generating response...") ;;;
       response <~ lift (chat_send_message text) ;;
       handle_gemini_response fuel response)
      (fun e =>
         let error_message := "Error: " ++ e in
         lift (print ("chat: " ++ error_message)) ;;;
         lift (send_status error_message)).

Definition send_to_assistant (fuel : nat) (text : string) : D unit :=
  with_send_lock (send_exchange fuel text).

(** *** Wakeup timers *)

(** A wakeup timer: the dict with the keys [time] and [message]. Timestamps
    are modelled by integers; only their order matters. *)
Record wakeup_timer := {
  time : Z;
  message : string
}.

(** [==] on timers. *)
Definition timer_eqb (a b : wakeup_timer) : bool :=
  Z.eqb (time a) (time b) && String.eqb (message a) (message b).

(** [l.remove(x)]: the first element equal to [x] goes; [None] stands for
    the ValueError raised when there is none. *)
Fixpoint list_remove (x : wakeup_timer) (l : list wakeup_timer)
  : option (list wakeup_timer) :=
  match l with
  | [] => None
  | y :: l' =>
      if timer_eqb y x then Some l'
      else match list_remove x l' with
           | Some r => Some (y :: r)
           | None => None
           end
  end.

(** [now >= wakeup_timer["time"]]. *)
Definition due (now : Z) (t : wakeup_timer) : bool := (time t <=? now)%Z.

Definition wakeup_message (t : wakeup_timer) : string :=
  "WAKEUP:" ++ message t.

(** The [for] loop of [check_wakeup_timers] over the snapshot
    [list(self.wakeup_schedule)]; [schedule] is [self.wakeup_schedule]. It
    is kept apart from [world]: nothing [send_to_assistant] runs reads or
    writes it. [send] stands for [self.send_to_assistant]. *)
Fixpoint wakeup_loop (send : string -> D unit) (now : Z)
    (snapshot schedule : list wakeup_timer) : D (list wakeup_timer) :=
  match snapshot with
  | [] => retD schedule
  | wakeup_timer :: rest =>
      if due now wakeup_timer then
        send (wakeup_message wakeup_timer) ;;;
        match list_remove wakeup_timer schedule with
        | None => lift (raise "list.remove(x): x not in list")
        | Some schedule' => wakeup_loop send now rest schedule'
        end
      else wakeup_loop send now rest schedule
  end.

(** One turn of the [while True] loop, after the sleep; [now] is what
    [time.time()] gives. *)
Definition wakeup_turn (send : string -> D unit) (now : Z)
    (schedule : list wakeup_timer) : D (list wakeup_timer) :=
  if (List.length schedule =? 0)%nat then retD schedule
  else wakeup_loop send now schedule schedule.

(** The turns of [check_wakeup_timers] at the times [wakes]. *)
Fixpoint wakeup_turns (send : string -> D unit) (wakes : list Z)
    (schedule : list wakeup_timer) : D (list wakeup_timer) :=
  match wakes with
  | [] => retD schedule
  | now :: wakes' =>
      schedule' <~ wakeup_turn send now schedule ;;
      wakeup_turns send wakes' schedule'
  end.

Definition check_wakeup_timers (fuel : nat) (wakes : list Z)
    (schedule : list wakeup_timer) : D (list wakeup_timer) :=
  wakeup_turns (send_to_assistant fuel) wakes schedule.

(** The timers the turns at [wakes] find due, in the order they are
    handled, and the schedule they leave. *)
Fixpoint handled (wakes : list Z) (schedule : list wakeup_timer)
  : list wakeup_timer :=
  match wakes with
  | [] => []
  | now :: wakes' =>
      filter (due now) schedule
      ++ handled wakes' (filter (fun t => negb (due now t)) schedule)
  end.

Fixpoint remaining (wakes : list Z) (schedule : list wakeup_timer)
  : list wakeup_timer :=
  match wakes with
  | [] => schedule
  | now :: wakes' =>
      remaining wakes' (filter (fun t => negb (due now t)) schedule)
  end.

(** *** Reading a trace *)

Definition is_request (e : event) : bool :=
  match e with
  | EGenerate _ | ESendMessage _ => true
  | _ => false
  end.

Definition is_emission (e : event) : bool :=
  match e with
  | EStatus _ | EReply _ => true
  | _ => false
  end.

Definition is_status (e : event) : bool :=
  match e with
  | EStatus _ => true
  | _ => false
  end.

(** From index [n] on, no answer of the backend carries a function-call
    directive. *)
Definition quiet_from (n : nat) : Prop :=
  forall i, n <= i -> reply_carries_call (backend i) = false.

(** *** Notions the properties are stated with *)

(** The items of the mapping [get_parameter] builds for the names [names]:
    each name that resolves, with its value. *)
Definition resolved (names : list string) : list (string * json) :=
  flat_map (fun k => match get_mav_param mpstate k with
                     | Some v => [(k, JFloat v)]
                     | None => []
                     end) names.

(** What [call_function] makes of the outcome of a handler. *)
Definition caught (func_name : string) (r : outcome json * world)
  : outcome json * world :=
  match r with
  | (Ret v, w') => (Ret v, w')
  | (Raise e, w') =>
      (Ret (JStr (func_name ++ ": function call failed - " ++ e)),
       emit (EPrint ("chat: " ++ func_name ++ ": function call failed - " ++ e)) w')
  end.

(** A later world extends an earlier one: the callbacks and the lock are as
    they were, no request is forgotten, and the trace has only grown. *)
Definition extends (w w' : world) : Prop :=
  status_cb w' = status_cb w
  /\ reply_cb w' = reply_cb w
  /\ send_lock w' = send_lock w
  /\ calls w <= calls w'
  /\ exists evs, trace w' = (trace w ++ evs)%list.

(** A command keeps the world when the world it leaves extends the one it
    ran in. *)
Definition keepsM {A} (c : M A) : Prop := forall w, extends w (snd (c w)).

Definition keepsD {A} (c : D A) : Prop :=
  forall w o w', c w = Some (o, w') -> extends w w'.

(** A command returns: it ends, by a result or by an exception. *)
Definition returns {A} (c : D A) (w : world) : Prop :=
  exists o w', c w = Some (o, w').

(** What the handler of [send_to_assistant] does with an exception. *)
Definition reported (e : exn) (w : world) : world :=
  emit (EStatus ("Error: " ++ e)) (emit (EPrint ("chat: " ++ "Error: " ++ e)) w).

(** The world after the first request of an exchange, [w1] being the world
    the connection check leaves. *)
Definition after_first_request (text : string) (w1 : world) : world :=
  count_call
    (emit (ESendMessage text) (emit (EStatus "Generating response...") w1)).

(** A directive for a name the session does not know, and a response whose
    one part carries it. *)
Definition again_call : function_call :=
  {| fc_name := Some "again"; fc_args := "" |}.

Definition calling_response : response :=
  {| candidates :=
       [ {| cand_content :=
              Some {| parts :=
                        Some [ {| text := None;
                                  part_call := Some again_call |} ] |} |} ] |}.

(** ** Properties *)

(** *** Names in order *)

Lemma string_compare_refl (s : string) : String.compare s s = Eq.
Proof.
  induction s as [|c s IH]; simpl; [reflexivity|].
  unfold Ascii.compare. now rewrite N.compare_refl.
Qed.

Lemma string_compare_lt_trans (a : string) :
  forall b c, String.compare a b = Lt -> String.compare b c = Lt ->
              String.compare a c = Lt.
Proof.
  induction a as [|x a IH]; intros [|y b] [|z c]; simpl; try easy.
  unfold Ascii.compare.
  destruct (N.compare_spec (N_of_ascii x) (N_of_ascii y)) as [Exy|Lxy|Gxy];
    destruct (N.compare_spec (N_of_ascii y) (N_of_ascii z)) as [Eyz|Lyz|Gyz];
    try easy; intros Hab Hbc.
  - rewrite Exy, Eyz, N.compare_refl. eauto.
  - rewrite Exy. now apply N.compare_lt_iff in Lyz as ->.
  - rewrite <- Eyz. now apply N.compare_lt_iff in Lxy as ->.
  - assert (H : (N_of_ascii x < N_of_ascii z)%N) by lia.
    now apply N.compare_lt_iff in H as ->.
Qed.

Lemma string_leb_trans (a b c : string) :
  Sorted_names.le a b -> Sorted_names.le b c -> Sorted_names.le a c.
Proof.
  unfold Sorted_names.le, String.leb. intros Hab Hbc.
  destruct (String.compare a b) eqn:Eab; try discriminate;
    destruct (String.compare b c) eqn:Ebc; try discriminate.
  - apply String.compare_eq_iff in Eab, Ebc. subst.
    now rewrite string_compare_refl.
  - apply String.compare_eq_iff in Eab. subst. now rewrite Ebc.
  - apply String.compare_eq_iff in Ebc. subst. now rewrite Eab.
  - now rewrite (string_compare_lt_trans a b c Eab Ebc).
Qed.

Lemma insert_perm (x : string) (l : list string) :
  Permutation (x :: l) (Sorted_names.insert x l).
Proof.
  induction l as [|y l IH]; simpl; [reflexivity|].
  destruct (String.leb x y); [reflexivity|].
  rewrite perm_swap. now constructor.
Qed.

Lemma sorted_perm (l : list string) : Permutation l (Sorted_names.sorted l).
Proof.
  induction l as [|x l IH]; simpl; [constructor|].
  rewrite <- insert_perm. now constructor.
Qed.

Lemma insert_hd (x a : string) (l : list string) :
  Sorted_names.le a x -> HdRel Sorted_names.le a l ->
  HdRel Sorted_names.le a (Sorted_names.insert x l).
Proof.
  intros Hax Hl. destruct l as [|y l]; simpl; [now constructor|].
  destruct (String.leb x y); constructor; [assumption|now inversion Hl].
Qed.

Lemma insert_sorted (x : string) (l : list string) :
  Sorted Sorted_names.le l -> Sorted Sorted_names.le (Sorted_names.insert x l).
Proof.
  induction 1 as [|y l Hs IH Hhd]; simpl.
  - repeat constructor.
  - destruct (String.leb x y) eqn:E.
    + constructor; [now constructor | now constructor].
    + constructor; [assumption|].
      apply insert_hd; [|assumption].
      destruct (String.leb_total x y) as [H|H]; [congruence|exact H].
Qed.

Lemma sorted_strongly (l : list string) :
  StronglySorted Sorted_names.le (Sorted_names.sorted l).
Proof.
  apply Sorted_StronglySorted; [exact string_leb_trans|].
  induction l as [|x l IH]; simpl; [constructor | now apply insert_sorted].
Qed.

Lemma filter_strongly (f : string -> bool) (l : list string) :
  StronglySorted Sorted_names.le l ->
  StronglySorted Sorted_names.le (filter f l).
Proof.
  induction 1 as [|x l Hs IH Hall]; simpl; [constructor|].
  destruct (f x); [|assumption].
  constructor; [assumption|].
  rewrite Forall_forall in *. intros y Hy.
  apply filter_In in Hy. now apply Hall.
Qed.

(** *** Parameter lookup *)

Lemma string_append_assoc (a b c : string) : (a ++ b) ++ c = a ++ (b ++ c).
Proof.
  induction a as [|x a IH]; simpl; [reflexivity | now rewrite IH].
Qed.

Lemma contains_regex_loop_true (chars s : string) :
  contains_regex_loop chars s = true <->
  exists c, In c (list_ascii_of_string chars) /\ Str.count c s <> 0.
Proof.
  induction chars as [|x chars IH]; simpl.
  - split; [discriminate | intros (c & [] & _)].
  - destruct (Nat.ltb_spec 0 (Str.count x s)) as [Hpos|Hzero].
    + split; [intros _; exists x; split; [now left | lia] | reflexivity].
    + rewrite IH. split.
      * intros (c & Hin & Hc). exists c. split; [now right | assumption].
      * intros (c & [<-|Hin] & Hc); [lia | now exists c].
Qed.

Lemma dict_set_fresh (d : list (string * json)) (key : string) (v : json) :
  ~ In key (map fst d) -> dict_set d key v = (d ++ [(key, v)])%list.
Proof.
  induction d as [|[k x] d IH]; simpl; intros Hnot; [reflexivity|].
  destruct (String.eqb_spec k key) as [->|Hne]; [tauto|].
  rewrite IH; [reflexivity | tauto].
Qed.

Lemma resolved_fst (names : list string) :
  (forall k, In k names -> get_mav_param mpstate k <> None) ->
  map fst (resolved names) = names.
Proof.
  induction names as [|k names IH]; simpl; intros H; [reflexivity|].
  destruct (get_mav_param mpstate k) eqn:E; simpl.
  - f_equal. apply IH. intros; apply H; now right.
  - exfalso. apply (H k); [now left | assumption].
Qed.

Lemma resolved_incl_fst (names : list string) (k : string) :
  In k (map fst (resolved names)) -> In k names.
Proof.
  induction names as [|n names IH]; simpl; [tauto|].
  rewrite map_app, in_app_iff. intros [H|H]; [|right; now apply IH].
  destruct (get_mav_param mpstate n); simpl in H; [left|]; tauto.
Qed.

Lemma get_parameter_loop_resolved (pattern : re_pattern) (names : list string) :
  forall (acc : list (string * json)) (w : world),
    NoDup names ->
    (forall k, In k names -> ~ In k (map fst acc)) ->
    (forall k, In k names -> re_match pattern k = true ->
               get_mav_param mpstate k <> None) ->
    get_parameter_loop pattern names acc w
    = (Ret (acc ++ resolved (filter (re_match pattern) names))%list, w).
Proof.
  induction names as [|k names IH]; simpl; intros acc w Hnd Hfresh Hres.
  - now rewrite app_nil_r.
  - inversion Hnd as [|? ? Hk Hnd']; subst.
    destruct (re_match pattern k) eqn:Ematch.
    + simpl. destruct (get_mav_param mpstate k) as [v|] eqn:Eget.
      * rewrite IH; try assumption.
        -- rewrite dict_set_fresh by (apply Hfresh; now left).
           now rewrite <- app_assoc.
        -- intros k' Hin. rewrite dict_set_fresh by (apply Hfresh; now left).
           rewrite map_app, in_app_iff. simpl.
           intros [H|[H|[]]]; [apply (Hfresh k'); tauto | congruence].
        -- intros; apply Hres; tauto.
      * exfalso. apply (Hres k); tauto.
    + apply IH; try assumption; intros; [apply Hfresh | apply Hres]; tauto.
Qed.

Lemma resolved_In (names : list string) (k : string) (j : json) :
  In (k, j) (resolved names) <->
  exists v, j = JFloat v /\ In k names /\ get_mav_param mpstate k = Some v.
Proof.
  unfold resolved. rewrite in_flat_map. split.
  - intros (n & Hn & Hin). destruct (get_mav_param mpstate n) as [v|] eqn:E;
      simpl in Hin; [|tauto].
    destruct Hin as [Heq|[]]. inversion Heq; subst. now exists v.
  - intros (v & -> & Hin & Hget). exists k. split; [assumption|].
    rewrite Hget. now left.
Qed.

(** A pattern on a vehicle that resolves every name of its parameter dict:
    the names of the dict are matched in sorted order, and the result is the
    mapping from each matching name to its value, in that order. *)
Lemma get_parameter_consistent_store
    (d : list (string * json)) (name : string) (c : ascii)
    (pattern : re_pattern) (w : world) :
  dict_get d "name" = JStr name ->
  In c [".";"^";"$";"*";"+";"?";"{";"}";"[";"]";"\";"|";"(";")"]%char ->
  Str.count c name <> 0 ->
  re_compile name = Ret pattern ->
  NoDup (map fst (mav_param mpstate)) ->
  (forall k v, In (k, v) (mav_param mpstate) ->
               get_mav_param mpstate k = Some v) ->
  exists items,
    get_parameter (JDict d) w = (Ret (JDict items), w)
    /\ map fst items
       = filter (re_match pattern)
           (Sorted_names.sorted (map fst (mav_param mpstate)))
    /\ StronglySorted Sorted_names.le (map fst items)
    /\ (forall k j, In (k, j) items <->
          exists v, j = JFloat v /\ In (k, v) (mav_param mpstate)
                    /\ re_match pattern k = true).
Proof.
  intros Hname Hc Hcount Hcompile Hnodup Hstore.
  set (keys := Sorted_names.sorted (map fst (mav_param mpstate))).
  assert (Hkeys : forall k, In k keys <-> In k (map fst (mav_param mpstate))).
  { intros k. split; apply Permutation_in;
      [symmetry|]; apply sorted_perm. }
  assert (Hres : forall k, In k keys -> get_mav_param mpstate k <> None).
  { intros k Hk. apply Hkeys, in_map_iff in Hk as ([k' v] & <- & Hin).
    simpl. rewrite (Hstore _ _ Hin). discriminate. }
  exists (resolved (filter (re_match pattern) keys)).
  repeat split.
  - unfold get_parameter, arguments_get, bind, ret, of_outcome. simpl.
    rewrite Hname.
    assert (Hre : contains_regex name = true).
    { apply contains_regex_loop_true. now exists c. }
    rewrite Hre, Hcompile. fold keys.
    rewrite get_parameter_loop_resolved; simpl; auto.
    apply (Permutation_NoDup (sorted_perm _) Hnodup).
  - apply resolved_fst. intros k Hk. apply filter_In in Hk. now apply Hres.
  - rewrite resolved_fst.
    + apply filter_strongly, sorted_strongly.
    + intros k Hk. apply filter_In in Hk. now apply Hres.
  - intros Hin. apply resolved_In in Hin as (v & -> & Hk & Hget).
    apply filter_In in Hk as [Hk Hm]. exists v. repeat split; [|assumption].
    apply Hkeys, in_map_iff in Hk as ([k' v'] & Heq & Hin). simpl in Heq.
    subst k'. rewrite (Hstore _ _ Hin) in Hget. congruence.
  - intros (v & -> & Hin & Hm). apply resolved_In. exists v.
    repeat split; [|now apply Hstore].
    apply filter_In. split; [|assumption].
    apply Hkeys, in_map_iff. now exists (k, v).
Qed.

(** C7. An exact name that does not resolve gives an error string that holds
    the name and the words not found; nothing is raised. *)
Theorem get_parameter_not_found
    (d : list (string * json)) (name : string) (w : world) :
  dict_get d "name" = JStr name ->
  contains_regex name = false ->
  get_mav_param mpstate name = None ->
  exists error,
    get_parameter (JDict d) w = (Ret (JStr error), w)
    /\ error = "get_parameter: " ++ name ++ " parameter not found"
    /\ Str.contains name error
    /\ Str.contains "not found" error.
Proof.
  intros Hname Hre Hget.
  exists ("get_parameter: " ++ name ++ " parameter not found").
  repeat split.
  - unfold get_parameter, arguments_get, bind, ret. simpl.
    now rewrite Hname, Hre, Hget.
  - exists "get_parameter: ", " parameter not found". reflexivity.
  - exists ("get_parameter: " ++ name ++ " parameter "), "".
    now rewrite !string_append_assoc.
Qed.

(** *** Dispatch *)

(** A name of [supported_funcs] is dispatched to the handler the registry
    holds for it, once, and a fault of the handler becomes the error string. *)
Lemma call_function_supported (func_name : string) :
  In func_name supported_funcs ->
  exists handler,
    registered_handler define_tools func_name = Some handler
    /\ forall arguments w,
         call_function func_name arguments w
         = caught func_name (handler arguments w).
Proof.
  simpl. intros [<-|[<-|[<-|[<-|[<-|[]]]]]];
    eexists; (split; [reflexivity|]); intros arguments w; reflexivity.
Qed.

Lemma call_function_never_raises (func_name : string) (arguments : json)
    (w : world) :
  exists output w', call_function func_name arguments w = (Ret output, w').
Proof.
  unfold call_function.
  destruct (name_in func_name supported_funcs); [|now eexists; eexists].
  destruct (getattr_self func_name) as [f|]; [|now eexists; eexists].
  unfold try_catch. destruct (f arguments w) as [[v|e] w'];
    now eexists; eexists.
Qed.

(** C1 at set_vehicle_mode. The registry of [define_tools] holds the name
    with the handler [set_vehicle_mode], but [handle_function_call] does not
    call it: the name is not in [supported_funcs], and the call is answered
    as an unrecognized one. The handler itself would have passed the mode
    on to the vehicle. *)
Theorem set_vehicle_mode_registered_not_dispatched (arguments : json) (w : world) :
  In "set_vehicle_mode" registered_names
  /\ (exists handler,
        registered_handler define_tools "set_vehicle_mode" = Some handler
        /\ handler (JDict [("mode", JStr "GUIDED")]) = set_vehicle_mode (JDict [("mode", JStr "GUIDED")])
        /\ trace (snd (handler (JDict [("mode", JStr "GUIDED")]) w))
           = (trace w ++ [EStdin "mode GUIDED"])%list)
  /\ call_function "set_vehicle_mode" arguments w
     = (Ret (JStr "Unrecognized function call: set_vehicle_mode"),
        emit (EPrint "chat: Unrecognized function name: set_vehicle_mode") w).
Proof.
  split; [simpl; tauto|]. split; [|reflexivity].
  exists set_vehicle_mode. repeat split.
  unfold set_vehicle_mode, arguments_get, try_catch, bind, of_outcome, modify, ret.
  change (dict_get [("mode", JStr "GUIDED")] "mode") with (JStr "GUIDED").
  cbv beta iota zeta.
  change (Str.upper "GUIDED") with "GUIDED".
  change ("mode " ++ "GUIDED") with "mode GUIDED".
  destruct (process_stdin mpstate "mode GUIDED"); reflexivity.
Qed.

Lemma supported_registered (func_name : string) :
  In func_name supported_funcs -> In func_name registered_names.
Proof. simpl. tauto. Qed.

Lemma name_in_spec (x : string) (l : list string) :
  name_in x l = true <-> In x l.
Proof.
  unfold name_in. rewrite existsb_exists. split.
  - intros (y & Hy & E). apply String.eqb_eq in E. now subst.
  - intros H. exists x. split; [assumption | apply String.eqb_refl].
Qed.

Lemma call_function_unrecognized (func_name : string) (arguments : json)
    (w : world) :
  ~ In func_name supported_funcs ->
  call_function func_name arguments w
  = (Ret (JStr ("Unrecognized function call: " ++ func_name)),
     emit (EPrint ("chat: Unrecognized function name: " ++ func_name)) w).
Proof.
  intros Hnot. unfold call_function.
  destruct (name_in func_name supported_funcs) eqn:E; [|reflexivity].
  apply name_in_spec in E. contradiction.
Qed.

(** What [send_function_result] does once the chat session exists: the
    message is sent, and the answer is given to [handle_response]; whatever
    is raised is printed. *)
Lemma send_function_result_sends
    (handle_response : option response -> D unit)
    (func_name : string) (output : json) (w : world) :
  chat w = true ->
  send_function_result handle_response func_name output w
  = let w1 := count_call
                (emit (ESendMessage (function_result_message func_name output)) w) in
    match backend (calls w) with
    | Raise e =>
        Some (Ret tt, emit (EPrint ("chat: Error sending function response: " ++ e)) w1)
    | Ret answer =>
        match handle_response answer w1 with
        | None => None
        | Some (Ret u, w2) => Some (Ret u, w2)
        | Some (Raise e, w2) =>
            Some (Ret tt, emit (EPrint ("chat: Error sending function response: " ++ e)) w2)
        end
    end.
Proof.
  intros Hchat.
  unfold send_function_result, try_catchD, bindD, lift, chat_send_message,
    backend_request, print, modify.
  rewrite Hchat. destruct (backend (calls w)) as [answer|e]; reflexivity.
Qed.

Lemma send_function_result_never_raises
    (handle_response : option response -> D unit)
    (func_name : string) (output : json) (w : world)
    (o : outcome unit) (w' : world) :
  send_function_result handle_response func_name output w = Some (o, w') ->
  o = Ret tt.
Proof.
  unfold send_function_result, try_catchD, bindD, lift, print, modify.
  destruct (chat_send_message _ w) as [[answer|e] w1].
  - destruct (handle_response answer w1) as [[[[]|e] w2]|];
      intros H; inversion H; reflexivity.
  - intros H; inversion H; reflexivity.
Qed.

(** A call with a name: the call is announced, the output computed and
    sent back. *)
Lemma handle_function_call_named
    (handle_response : option response -> D unit) (fc : function_call)
    (func_name : string) (w : world) :
  fc_name fc = Some func_name ->
  Str.truthy func_name = true ->
  handle_function_call handle_response fc w
  = match call_function func_name (call_arguments fc)
            (emit (EPrint ("chat: Handling function call: " ++ func_name)) w) with
    | (Ret output, w') =>
        send_function_result handle_response func_name output w'
    | (Raise e, w') => Some (Raise e, w')
    end.
Proof.
  intros Hname Htruthy. unfold handle_function_call. rewrite Hname.
  destruct func_name as [|c s]; [discriminate|]. reflexivity.
Qed.

Lemma handle_function_call_never_raises
    (handle_response : option response -> D unit) (fc : function_call)
    (w : world) (o : outcome unit) (w' : world) :
  handle_function_call handle_response fc w = Some (o, w') -> o = Ret tt.
Proof.
  destruct (fc_name fc) as [[|c s]|] eqn:Hname.
  - unfold handle_function_call. rewrite Hname.
    intros H; inversion H; reflexivity.
  - rewrite (handle_function_call_named _ _ _ _ Hname eq_refl).
    destruct (call_function_never_raises (String c s) (call_arguments fc)
                (emit (EPrint ("chat: Handling function call: " ++ String c s)) w))
      as (output & w1 & ->).
    apply send_function_result_never_raises.
  - unfold handle_function_call. rewrite Hname.
    intros H; inversion H; reflexivity.
Qed.

Lemma truthy_nonempty (s : string) : s <> "" -> Str.truthy s = true.
Proof. destruct s; [congruence | reflexivity]. Qed.

(** C6. A call of a name the registry does not hold is answered by the
    error string of an unrecognized call; the string goes back to the
    backend as a function result, whose answer is handled like any other;
    nothing is raised. *)
Theorem unknown_function_call_answered
    (handle_response : option response -> D unit)
    (func_name args : string) (w : world) :
  ~ In func_name registered_names ->
  func_name <> "" ->
  chat w = true ->
  let fc := {| fc_name := Some func_name; fc_args := args |} in
  let error := "Unrecognized function call: " ++ func_name in
  let w0 := emit (EPrint ("chat: Handling function call: " ++ func_name)) w in
  let w1 := emit (EPrint ("chat: Unrecognized function name: " ++ func_name)) w0 in
  let w2 := count_call
              (emit (ESendMessage ("Function result for " ++ func_name ++ ": "
                                   ++ Str.json_quote error)) w1) in
  call_function func_name (call_arguments fc) w0 = (Ret (JStr error), w1)
  /\ handle_function_call handle_response fc w
     = match backend (calls w) with
       | Raise e =>
           Some (Ret tt,
                 emit (EPrint ("chat: Error sending function response: " ++ e)) w2)
       | Ret answer =>
           match handle_response answer w2 with
           | None => None
           | Some (Ret u, w3) => Some (Ret u, w3)
           | Some (Raise e, w3) =>
               Some (Ret tt,
                     emit (EPrint ("chat: Error sending function response: " ++ e)) w3)
           end
       end
  /\ forall o w', handle_function_call handle_response fc w = Some (o, w') ->
                  o = Ret tt.
Proof.
  intros Hnot Hne Hchat fc error w0 w1 w2.
  assert (Hunsup : ~ In func_name supported_funcs).
  { intros H. apply Hnot. now apply supported_registered. }
  assert (Hcall : call_function func_name (call_arguments fc) w0
                  = (Ret (JStr error), w1)).
  { now apply call_function_unrecognized. }
  split; [exact Hcall|]. split.
  - rewrite (handle_function_call_named _ fc func_name w eq_refl
               (truthy_nonempty _ Hne)).
    fold w0. rewrite Hcall.
    rewrite send_function_result_sends by exact Hchat. reflexivity.
  - intros o w'. apply handle_function_call_never_raises.
Qed.

(** C10. A directive without a name is dropped: no handler runs and nothing
    is sent to the backend. Arguments that [json.loads] rejects are taken to
    be the empty mapping. *)
Theorem function_call_without_name_or_arguments
    (handle_response : option response -> D unit) (fc : function_call)
    (w : world) :
  (fc_name fc = None \/ fc_name fc = Some "" ->
   handle_function_call handle_response fc w
   = Some (Ret tt, emit (EPrint "chat: Empty function name received") w))
  /\ (json_loads (fc_args fc) = None ->
      call_arguments fc = JDict []
      /\ forall func_name,
           fc_name fc = Some func_name -> func_name <> "" ->
           handle_function_call handle_response fc w
           = match call_function func_name (JDict [])
                     (emit (EPrint ("chat: Handling function call: " ++ func_name)) w) with
             | (Ret output, w') =>
                 send_function_result handle_response func_name output w'
             | (Raise e, w') => Some (Raise e, w')
             end).
Proof.
  split.
  - unfold handle_function_call. intros [-> | ->]; reflexivity.
  - intros Hloads.
    assert (Hargs : call_arguments fc = JDict [])
      by (unfold call_arguments; now rewrite Hloads).
    split; [exact Hargs|]. intros func_name Hname Hne.
    rewrite (handle_function_call_named _ fc func_name w Hname
               (truthy_nonempty _ Hne)).
    now rewrite Hargs.
Qed.

(** *** What every command keeps

    No command of the session removes a callback, forgets a request or
    rewrites the trace: a later world extends an earlier one. *)

Lemma extends_refl (w : world) : extends w w.
Proof.
  repeat split; try reflexivity. exists []. now rewrite app_nil_r.
Qed.

Lemma extends_trans (w1 w2 w3 : world) :
  extends w1 w2 -> extends w2 w3 -> extends w1 w3.
Proof.
  intros (S1 & R1 & L1 & C1 & e1 & T1) (S2 & R2 & L2 & C2 & e2 & T2).
  repeat split; try congruence; try lia.
  exists (e1 ++ e2)%list. now rewrite T2, T1, app_assoc.
Qed.

Lemma extends_emit (e : event) (w : world) : extends w (emit e w).
Proof. repeat split; try reflexivity. now exists [e]. Qed.

Lemma keepsM_ret {A} (a : A) : keepsM (ret a).
Proof. intros w. apply extends_refl. Qed.

Lemma keepsM_raise {A} (e : exn) : keepsM (@raise A e).
Proof. intros w. apply extends_refl. Qed.

Lemma keepsM_of_outcome {A} (o : outcome A) : keepsM (of_outcome o).
Proof. intros w. apply extends_refl. Qed.

Lemma keepsM_get_world : keepsM get_world.
Proof. intros w. apply extends_refl. Qed.

Lemma keepsM_emit (e : event) : keepsM (modify (emit e)).
Proof. intros w. apply extends_emit. Qed.

Lemma keepsM_set_model (b : bool) : keepsM (modify (set_model b)).
Proof.
  intros w. repeat split; try reflexivity. exists []. simpl.
  now rewrite app_nil_r.
Qed.

Lemma keepsM_set_chat (b : bool) : keepsM (modify (set_chat b)).
Proof.
  intros w. repeat split; try reflexivity. exists []. simpl.
  now rewrite app_nil_r.
Qed.

Lemma keepsM_bind {A B} (c : M A) (k : A -> M B) :
  keepsM c -> (forall a, keepsM (k a)) -> keepsM (bind c k).
Proof.
  intros Hc Hk w. unfold bind. specialize (Hc w).
  destruct (c w) as [[a|e] w1]; simpl in *; [|assumption].
  eapply extends_trans; [eassumption | apply Hk].
Qed.

Lemma keepsM_try_catch {A} (c : M A) (h : exn -> M A) :
  keepsM c -> (forall e, keepsM (h e)) -> keepsM (try_catch c h).
Proof.
  intros Hc Hh w. unfold try_catch. specialize (Hc w).
  destruct (c w) as [[a|e] w1]; simpl in *; [assumption|].
  eapply extends_trans; [eassumption | apply Hh].
Qed.

Lemma keepsM_print (line : string) : keepsM (print line).
Proof. apply keepsM_emit. Qed.

Lemma keepsM_send_status (status : string) : keepsM (send_status status).
Proof.
  intros w. unfold send_status. destruct (status_cb w);
    [apply keepsM_emit | apply extends_refl].
Qed.

Lemma keepsM_send_reply (reply : string) : keepsM (send_reply reply).
Proof.
  intros w. unfold send_reply. destruct (reply_cb w);
    [apply keepsM_emit | apply extends_refl].
Qed.

Lemma keepsM_backend_request (e : event) : keepsM (backend_request e).
Proof.
  intros w. repeat split; simpl; try reflexivity; [lia | now exists [e]].
Qed.

Lemma keepsM_chat_send_message (msg : string) : keepsM (chat_send_message msg).
Proof.
  intros w. unfold chat_send_message. destruct (chat w);
    [apply keepsM_backend_request | apply extends_refl].
Qed.

Lemma keepsM_arguments_get (arguments : json) (key : string) :
  keepsM (arguments_get arguments key).
Proof.
  destruct arguments; simpl; (apply keepsM_ret || apply keepsM_raise).
Qed.

Create HintDb keeps.

#[local] Hint Resolve keepsM_ret keepsM_raise keepsM_of_outcome
  keepsM_get_world keepsM_emit keepsM_set_model keepsM_set_chat
  keepsM_print keepsM_send_status keepsM_send_reply keepsM_backend_request
  keepsM_chat_send_message keepsM_arguments_get : keeps.

(** The steps that show a command built from the ones above keeps the
    world: the binds are opened, the case analyses of the command followed. *)
Ltac keeps :=
  repeat first
    [ progress intros
    | apply keepsM_bind
    | apply keepsM_try_catch
    | solve [auto with keeps]
    | match goal with
      | |- keepsM (match ?x with _ => _ end) => destruct x
      | |- keepsM (if ?b then _ else _) => destruct b
      end ].

Lemma keepsM_get_parameter_loop (pattern : re_pattern) (names : list string) :
  forall acc, keepsM (get_parameter_loop pattern names acc).
Proof.
  induction names as [|k names IH]; intros acc; simpl; keeps.
Qed.

#[local] Hint Resolve keepsM_get_parameter_loop : keeps.

Lemma keepsM_get_parameter (arguments : json) : keepsM (get_parameter arguments).
Proof. unfold get_parameter. keeps. Qed.

Lemma keepsM_set_parameter (arguments : json) : keepsM (set_parameter arguments).
Proof. unfold set_parameter. keeps. Qed.

Lemma keepsM_set_vehicle_mode (arguments : json) :
  keepsM (set_vehicle_mode arguments).
Proof. unfold set_vehicle_mode. keeps. Qed.

Lemma keepsM_get_vehicle_state (arguments : json) :
  keepsM (get_vehicle_state arguments).
Proof. unfold get_vehicle_state. keeps. Qed.

Lemma keepsM_get_vehicle_type (arguments : json) :
  keepsM (get_vehicle_type arguments).
Proof. unfold get_vehicle_type. keeps. Qed.

Lemma keepsM_get_current_datetime (arguments : json) :
  keepsM (get_current_datetime arguments).
Proof. unfold get_current_datetime. keeps. Qed.

Lemma keepsM_call_function (func_name : string) (arguments : json) :
  keepsM (call_function func_name arguments).
Proof.
  unfold call_function.
  destruct (name_in func_name supported_funcs) eqn:E; [|keeps].
  apply name_in_spec in E. simpl in E.
  destruct E as [<-|[<-|[<-|[<-|[<-|[]]]]]]; simpl;
    apply keepsM_try_catch;
    auto using keepsM_get_parameter, keepsM_set_parameter,
      keepsM_get_vehicle_state, keepsM_get_vehicle_type,
      keepsM_get_current_datetime;
    keeps.
Qed.

Lemma keepsM_initialize_model : keepsM initialize_model.
Proof. unfold initialize_model. keeps. Qed.

Lemma keepsM_check_connection : keepsM check_connection.
Proof.
  unfold check_connection, generate_content.
  apply keepsM_bind; [keeps|]. intros w.
  destruct (negb (key_truthy (api_key w))); [keeps|].
  apply keepsM_bind.
  - destruct (negb (model w)); [apply keepsM_initialize_model | keeps].
  - keeps.
Qed.

Lemma keepsD_lift {A} (c : M A) : keepsM c -> keepsD (lift c).
Proof.
  intros Hc w o w' H. unfold lift in H. specialize (Hc w).
  destruct (c w) as [o1 w1]. inversion H; subst. exact Hc.
Qed.

Lemma keepsD_retD {A} (a : A) : keepsD (retD a).
Proof. intros w o w' H. inversion H; subst. apply extends_refl. Qed.

Lemma keepsD_bindD {A B} (c : D A) (k : A -> D B) :
  keepsD c -> (forall a, keepsD (k a)) -> keepsD (bindD c k).
Proof.
  intros Hc Hk w o w' H. unfold bindD in H.
  destruct (c w) as [[[a|e] w1]|] eqn:E; [| |discriminate].
  - eapply extends_trans; [eapply Hc, E | eapply Hk, H].
  - inversion H; subst. eapply Hc, E.
Qed.

Lemma keepsD_try_catchD {A} (c : D A) (h : exn -> D A) :
  keepsD c -> (forall e, keepsD (h e)) -> keepsD (try_catchD c h).
Proof.
  intros Hc Hh w o w' H. unfold try_catchD in H.
  destruct (c w) as [[[a|e] w1]|] eqn:E; [| |discriminate].
  - inversion H; subst. eapply Hc, E.
  - eapply extends_trans; [eapply Hc, E | eapply Hh, H].
Qed.

Lemma keepsD_for_each {A} (l : list A) (body : A -> D unit) :
  (forall x, keepsD (body x)) -> keepsD (for_each l body).
Proof.
  intros Hbody. induction l as [|x l IH]; simpl.
  - apply keepsD_retD.
  - apply keepsD_bindD; [apply Hbody | intros _; exact IH].
Qed.

Section Handling.

Variable handle_response : option response -> D unit.
Hypothesis keeps_handle_response : forall r, keepsD (handle_response r).

Lemma keepsD_send_function_result (func_name : string) (output : json) :
  keepsD (send_function_result handle_response func_name output).
Proof.
  unfold send_function_result. apply keepsD_try_catchD.
  - apply keepsD_bindD; [apply keepsD_lift; keeps | assumption].
  - intros e. apply keepsD_lift. keeps.
Qed.

Lemma keepsD_handle_function_call (fc : function_call) :
  keepsD (handle_function_call handle_response fc).
Proof.
  unfold handle_function_call.
  destruct (fc_name fc) as [[|c s]|]; try (apply keepsD_lift; keeps).
  apply keepsD_bindD; [apply keepsD_lift; keeps|]. intros _.
  apply keepsD_bindD; [apply keepsD_lift, keepsM_call_function|].
  intros output. apply keepsD_send_function_result.
Qed.

Lemma keepsD_handle_part (p : part) : keepsD (handle_part handle_response p).
Proof.
  unfold handle_part. apply keepsD_bindD.
  - destruct (text p) as [t|]; [|apply keepsD_retD].
    destruct (Str.truthy t); [apply keepsD_lift; keeps | apply keepsD_retD].
  - intros _. destruct (part_call p);
      [apply keepsD_handle_function_call | apply keepsD_retD].
Qed.

Lemma keepsD_handle_candidate (c : candidate) :
  keepsD (handle_candidate handle_response c).
Proof.
  unfold handle_candidate. destruct (cand_content c) as [ct|];
    [|apply keepsD_retD].
  apply keepsD_bindD.
  - apply keepsD_lift. unfold content_parts. keeps.
  - intros ps. apply keepsD_for_each, keepsD_handle_part.
Qed.

End Handling.

Lemma keepsD_handle_gemini_response (fuel : nat) :
  forall r, keepsD (handle_gemini_response fuel r).
Proof.
  induction fuel as [|fuel IH]; intros r; simpl.
  - intros w o w' H. discriminate.
  - destruct r as [r|]; [|apply keepsD_lift; keeps].
    destruct (candidates r) as [|c cs] eqn:E; [apply keepsD_lift; keeps|].
    apply keepsD_bindD; [|intros _; apply keepsD_lift; keeps].
    apply (keepsD_for_each (c :: cs)). intros x.
    now apply keepsD_handle_candidate.
Qed.

(** *** Termination of the response loop *)

Lemma returns_lift {A} (c : M A) (w : world) : returns (lift c) w.
Proof. unfold returns, lift. destruct (c w) as [o w']. now eexists; eexists. Qed.

Lemma returns_retD {A} (a : A) (w : world) : returns (retD a) w.
Proof. now eexists; eexists. Qed.

Lemma returns_bindD {A B} (c : D A) (k : A -> D B) (w : world) :
  returns c w ->
  (forall a w', c w = Some (Ret a, w') -> returns (k a) w') ->
  returns (bindD c k) w.
Proof.
  intros (o & w' & Hc) Hk. unfold returns, bindD. rewrite Hc.
  destruct o as [a|e]; [now apply Hk | now eexists; eexists].
Qed.

(** A loop returns when its body does on every world that satisfies an
    invariant the body keeps. *)
Lemma returns_for_each {A} (P : world -> Prop) (body : A -> D unit)
    (l : list A) :
  (forall x w, In x l -> P w -> returns (body x) w) ->
  (forall x w o w', In x l -> P w -> body x w = Some (o, w') -> P w') ->
  forall w, P w -> returns (for_each l body) w.
Proof.
  induction l as [|x l IH]; intros Hret Hinv w HP; simpl.
  - apply returns_retD.
  - apply returns_bindD.
    + apply Hret; [now left | assumption].
    + intros [] w' Hx. apply IH.
      * intros y w1 Hy. apply Hret. now right.
      * intros y w1 o w2 Hy. apply Hinv. now right.
      * eapply Hinv; [now left | exact HP | exact Hx].
Qed.

(** A part without a directive is handled without [handle_response]. *)
Lemma handle_part_quiet (h : option response -> D unit) (p : part) (w : world) :
  part_has_call p = false -> returns (handle_part h p) w.
Proof.
  unfold part_has_call, handle_part. intros Hq.
  destruct (part_call p); [discriminate|].
  apply returns_bindD.
  - destruct (text p) as [t|]; [|apply returns_retD].
    destruct (Str.truthy t); [apply returns_lift | apply returns_retD].
  - intros _ w' _. apply returns_retD.
Qed.

Lemma handle_candidate_quiet (h : option response -> D unit) (c : candidate)
    (w : world) :
  candidate_has_call c = false -> returns (handle_candidate h c) w.
Proof.
  unfold candidate_has_call, handle_candidate, content_has_call, content_parts.
  destruct (cand_content c) as [ct|]; [|intros _; apply returns_retD].
  destruct (parts ct) as [ps|]; intros Hq.
  - apply returns_bindD; [apply returns_lift|].
    intros ps' w' Heq. inversion Heq; subst.
    apply (returns_for_each (fun _ => True)); auto.
    intros p w1 Hp _. apply handle_part_quiet.
    destruct (part_has_call p) eqn:E; [|reflexivity].
    rewrite <- Hq. symmetry. apply existsb_exists. now exists p.
  - apply returns_bindD; [apply returns_lift|]. intros ps' w' Heq.
    discriminate.
Qed.

Lemma handle_gemini_response_quiet (fuel : nat) (r : option response)
    (w : world) :
  reply_carries_call (Ret r) = false ->
  returns (handle_gemini_response (S fuel) r) w.
Proof.
  simpl. destruct r as [r|]; [|intros _; apply returns_lift].
  unfold carries_function_call.
  destruct (candidates r) as [|c cs]; [intros _; apply returns_lift|].
  intros Hq. apply returns_bindD; [|intros _ w' _; apply returns_lift].
  apply (returns_for_each (fun _ => True) _ (c :: cs)); auto.
  intros x w1 Hx _. apply handle_candidate_quiet.
  destruct (candidate_has_call x) eqn:E; [|reflexivity].
  rewrite <- Hq. symmetry. apply existsb_exists. now exists x.
Qed.

Section Fuel.

Variable N : nat.
Hypothesis quiet : quiet_from N.

Variable fuel : nat.
Hypothesis fuel_positive : 1 <= fuel.
Hypothesis deeper :
  forall r w, N - calls w + 2 <= fuel ->
              returns (handle_gemini_response fuel r) w.

Let h := handle_gemini_response fuel.
Let enough (w : world) : Prop := N - calls w + 2 <= S fuel.

Lemma enough_extends (w w' : world) : extends w w' -> enough w -> enough w'.
Proof. unfold enough. intros (_ & _ & _ & Hc & _). lia. Qed.

Lemma returns_send_function_result (func_name : string) (output : json)
    (w : world) :
  enough w -> returns (send_function_result h func_name output) w.
Proof.
  unfold enough, returns. intros Hw. destruct (chat w) eqn:Hchat.
  - rewrite send_function_result_sends by assumption. cbv zeta.
    destruct (backend (calls w)) as [answer|e] eqn:Eb;
      [|now eexists; eexists].
    assert (Hh : returns (h answer)
                   (count_call
                      (emit (ESendMessage
                               (function_result_message func_name output)) w))).
    { destruct (Nat.lt_ge_cases (calls w) N) as [Hlt|Hge].
      - apply deeper. simpl. lia.
      - unfold h. destruct fuel as [|f]; [lia|].
        apply handle_gemini_response_quiet.
        specialize (quiet (calls w) Hge). now rewrite Eb in quiet. }
    destruct Hh as ([[]|e] & w' & ->); now eexists; eexists.
  - unfold send_function_result, try_catchD, bindD, lift, chat_send_message.
    rewrite Hchat. now eexists; eexists.
Qed.

Lemma returns_handle_function_call (fc : function_call) (w : world) :
  enough w -> returns (handle_function_call h fc) w.
Proof.
  intros Hw. destruct (fc_name fc) as [[|c s]|] eqn:Hname.
  - unfold handle_function_call. rewrite Hname. apply returns_lift.
  - unfold returns.
    rewrite (handle_function_call_named _ _ _ _ Hname eq_refl).
    set (w0 := emit _ w).
    pose proof (keepsM_call_function (String c s) (call_arguments fc) w0) as Hk.
    destruct (call_function_never_raises (String c s) (call_arguments fc) w0)
      as (output & w1 & Hcall).
    rewrite Hcall in *. simpl in Hk.
    apply returns_send_function_result.
    eapply enough_extends; [exact Hk|].
    eapply enough_extends; [apply extends_emit | exact Hw].
  - unfold handle_function_call. rewrite Hname. apply returns_lift.
Qed.

Lemma returns_handle_part (p : part) (w : world) :
  enough w -> returns (handle_part h p) w.
Proof.
  intros Hw. unfold handle_part. apply returns_bindD.
  - destruct (text p) as [t|]; [|apply returns_retD].
    destruct (Str.truthy t); [apply returns_lift | apply returns_retD].
  - intros u w' Hw'. destruct (part_call p) as [fc|]; [|apply returns_retD].
    apply returns_handle_function_call.
    eapply enough_extends; [|exact Hw].
    destruct (text p) as [t|].
    + destruct (Str.truthy t).
      * eapply (keepsD_lift _ (keepsM_send_reply t)), Hw'.
      * inversion Hw'; subst. apply extends_refl.
    + inversion Hw'; subst. apply extends_refl.
Qed.

Lemma returns_handle_candidate (c : candidate) (w : world) :
  enough w -> returns (handle_candidate h c) w.
Proof.
  intros Hw. unfold handle_candidate.
  destruct (cand_content c) as [ct|]; [|apply returns_retD].
  apply returns_bindD; [apply returns_lift|].
  intros ps w' Hps.
  assert (w' = w) as ->.
  { unfold lift, content_parts in Hps. destruct (parts ct); now inversion Hps. }
  apply (returns_for_each enough); try assumption.
  - intros p w1 _. apply returns_handle_part.
  - intros p w1 o w2 _ Hw1 Hp. eapply enough_extends; [|exact Hw1].
    eapply keepsD_handle_part; [|exact Hp].
    apply keepsD_handle_gemini_response.
Qed.

Lemma returns_handle_gemini_response_step (r : option response) (w : world) :
  enough w -> returns (handle_gemini_response (S fuel) r) w.
Proof.
  intros Hw. simpl. destruct r as [r|]; [|apply returns_lift].
  destruct (candidates r) as [|c cs]; [apply returns_lift|].
  apply returns_bindD; [|intros _ w' _; apply returns_lift].
  apply (returns_for_each enough _ (c :: cs)); try assumption.
  - intros x w1 _. apply returns_handle_candidate.
  - intros x w1 o w2 _ Hw1 Hx. eapply enough_extends; [|exact Hw1].
    eapply keepsD_handle_candidate; [|exact Hx].
    apply keepsD_handle_gemini_response.
Qed.

End Fuel.

Lemma returns_handle_gemini_response (N : nat) :
  quiet_from N ->
  forall fuel r w, N - calls w + 2 <= fuel ->
                   returns (handle_gemini_response fuel r) w.
Proof.
  intros Hq. induction fuel as [|fuel IH]; intros r w Hfuel; [lia|].
  apply (returns_handle_gemini_response_step N Hq fuel); [lia|exact IH|].
  exact Hfuel.
Qed.

(** *** Wakeup timers *)

Lemma timer_eqb_eq (a b : wakeup_timer) : timer_eqb a b = true <-> a = b.
Proof.
  unfold timer_eqb. destruct a as [ta ma], b as [tb mb]; simpl.
  rewrite andb_true_iff, Z.eqb_eq, String.eqb_eq.
  split; [intros [-> ->]; reflexivity | intros H; inversion H; tauto].
Qed.

Lemma filter_none_due (now : Z) (l : list wakeup_timer) :
  filter (due now) l = [] -> filter (fun t => negb (due now t)) l = l.
Proof.
  induction l as [|t l IH]; simpl; [reflexivity|].
  destruct (due now t); simpl; [discriminate|]. intros H. now rewrite IH.
Qed.

(** Removing a due timer that heads the due ones takes away exactly that
    occurrence. *)
Lemma list_remove_first_due (now : Z) (t : wakeup_timer)
    (rest schedule : list wakeup_timer) :
  filter (due now) schedule = t :: rest ->
  exists schedule',
    list_remove t schedule = Some schedule'
    /\ filter (due now) schedule' = rest
    /\ filter (fun t => negb (due now t)) schedule'
       = filter (fun t => negb (due now t)) schedule.
Proof.
  intros Hdue.
  assert (Ht : due now t = true).
  { assert (Hin : In t (filter (due now) schedule)) by (rewrite Hdue; now left).
    now apply filter_In in Hin. }
  revert Hdue. induction schedule as [|y s IH]; simpl; [discriminate|].
  destruct (due now y) eqn:Ey; simpl.
  - intros H. inversion H; subst y.
    assert (E : timer_eqb t t = true) by now apply timer_eqb_eq.
    rewrite E. now exists s.
  - intros H. destruct (timer_eqb y t) eqn:E.
    + apply timer_eqb_eq in E. congruence.
    + destruct (IH H) as (s' & -> & Hd & Hn). exists (y :: s'). simpl.
      rewrite Ey. simpl. repeat split; [assumption | now rewrite Hn].
Qed.

Lemma bindD_assoc {A B C} (c : D A) (k1 : A -> D B) (k2 : B -> D C)
    (w : world) :
  bindD (bindD c k1) k2 w = bindD c (fun a => bindD (k1 a) k2) w.
Proof.
  unfold bindD. destruct (c w) as [[[a|e] w']|]; reflexivity.
Qed.

Lemma bindD_ext {A B} (c : D A) (k k' : A -> D B) (w : world) :
  (forall a w', k a w' = k' a w') -> bindD c k w = bindD c k' w.
Proof.
  intros H. unfold bindD. destruct (c w) as [[[a|e] w']|]; auto.
Qed.

Lemma bindD_ext_l {A B} (c c' : D A) (k : A -> D B) (w : world) :
  (forall w, c w = c' w) -> bindD c k w = bindD c' k w.
Proof. intros H. unfold bindD. now rewrite H. Qed.

Lemma for_each_app {A} (l1 l2 : list A) (body : A -> D unit) (w : world) :
  for_each (l1 ++ l2) body w
  = (for_each l1 body ;;; for_each l2 body) w.
Proof.
  revert w. induction l1 as [|x l1 IH]; intros w; simpl; [reflexivity|].
  rewrite bindD_assoc. apply bindD_ext. intros _ w'. apply IH.
Qed.

Section Poller.

Variable send : string -> D unit.

Lemma wakeup_loop_spec (now : Z) (snapshot : list wakeup_timer) :
  forall schedule w,
    filter (due now) schedule = filter (due now) snapshot ->
    wakeup_loop send now snapshot schedule w
    = (for_each (map wakeup_message (filter (due now) snapshot)) send ;;;
       retD (filter (fun t => negb (due now t)) schedule)) w.
Proof.
  induction snapshot as [|t rest IH]; intros schedule w Hdue; simpl.
  - simpl in Hdue. unfold bindD, retD. now rewrite filter_none_due.
  - simpl in Hdue. destruct (due now t) eqn:Et.
    + destruct (list_remove_first_due now t _ schedule Hdue)
        as (schedule' & -> & Hd & Hn).
      simpl. rewrite bindD_assoc. apply bindD_ext. intros _ w'.
      rewrite IH by exact Hd. now rewrite Hn.
    + now apply IH.
Qed.

Lemma wakeup_turn_spec (now : Z) (schedule : list wakeup_timer) (w : world) :
  wakeup_turn send now schedule w
  = (for_each (map wakeup_message (filter (due now) schedule)) send ;;;
     retD (filter (fun t => negb (due now t)) schedule)) w.
Proof.
  unfold wakeup_turn. destruct schedule as [|t s]; [reflexivity|].
  now apply wakeup_loop_spec.
Qed.

Lemma wakeup_turns_spec (wakes : list Z) :
  forall schedule w,
    wakeup_turns send wakes schedule w
    = (for_each (map wakeup_message (handled wakes schedule)) send ;;;
       retD (remaining wakes schedule)) w.
Proof.
  induction wakes as [|now wakes IH]; intros schedule w; simpl;
    [reflexivity|].
  rewrite (bindD_ext_l _ _ _ w (wakeup_turn_spec now schedule)).
  rewrite bindD_assoc.
  rewrite map_app.
  rewrite (bindD_ext_l _ _ _ w (for_each_app _ _ send)).
  rewrite bindD_assoc. apply bindD_ext. intros _ w'.
  unfold bindD at 1, retD at 1. apply IH.
Qed.

End Poller.

Lemma handled_remaining_perm (wakes : list Z) :
  forall schedule,
    Permutation (handled wakes schedule ++ remaining wakes schedule) schedule.
Proof.
  induction wakes as [|now wakes IH]; intros schedule; simpl; [reflexivity|].
  rewrite <- app_assoc, IH.
  clear IH. induction schedule as [|t s IHs]; simpl; [constructor|].
  destruct (due now t); simpl; [now constructor|].
  rewrite <- Permutation_middle. now constructor.
Qed.

(** C4. At each turn of the poller the timers that are due are handled in
    the order of the schedule: one call of [send_to_assistant] with WAKEUP:
    before the message for each of them, and the timer leaves the schedule.
    This holds whatever [send_to_assistant] does (first part, over every
    [send]), so the calls are counted and not only their effect. Over any
    number of turns every timer of the schedule is either handled once or
    still scheduled. *)
Theorem check_wakeup_timers_handles_due_once
    (fuel : nat) (wakes : list Z) (schedule : list wakeup_timer) (w : world) :
  (forall (send : string -> D unit) (w : world),
     wakeup_turns send wakes schedule w
     = (for_each (map (fun t => "WAKEUP:" ++ message t)
                    (handled wakes schedule)) send ;;;
        retD (remaining wakes schedule)) w)
  /\ check_wakeup_timers fuel wakes schedule w
     = (for_each (map (fun t => "WAKEUP:" ++ message t)
                    (handled wakes schedule))
          (send_to_assistant fuel) ;;;
        retD (remaining wakes schedule)) w
  /\ (forall now,
        handled [now] schedule = filter (fun t => (time t <=? now)%Z) schedule
        /\ remaining [now] schedule
           = filter (fun t => negb (time t <=? now)%Z) schedule)
  /\ Permutation (handled wakes schedule ++ remaining wakes schedule) schedule.
Proof.
  split; [intros send w'; apply wakeup_turns_spec|].
  split; [apply wakeup_turns_spec|]. split.
  - intros now. simpl. now rewrite app_nil_r.
  - apply handled_remaining_perm.
Qed.

(** *** Sending *)

Lemma check_connection_never_raises (w : world) :
  exists connected w', check_connection w = (Ret connected, w').
Proof.
  unfold check_connection, bind, get_world.
  destruct (negb (key_truthy (api_key w))); [now eexists; eexists|].
  destruct (negb (model w)).
  - unfold initialize_model, try_catch, bind, of_outcome, modify, print, ret.
    destruct genai_model; [|now eexists; eexists].
    destruct genai_start_chat; [|now eexists; eexists].
    simpl. unfold try_catch, bind, generate_content, backend_request.
    destruct (backend _); now eexists; eexists.
  - simpl. unfold try_catch, bind, generate_content, backend_request.
    destruct (backend _); now eexists; eexists.
Qed.

(** C8. Without a credential nothing is asked of the backend: the failure
    to connect is printed and reported on the reply sink, and the call
    returns with the lock released. *)
Theorem send_without_credential (fuel : nat) (text : string) (w : world) :
  key_truthy (api_key w) = false ->
  send_lock w = false ->
  reply_cb w = true ->
  exists w',
    send_to_assistant fuel text w = Some (Ret tt, w')
    /\ trace w'
       = (trace w
          ++ [EAcquire;
              EPrint "chat: Gemini API key not set. Use 'chat set_gemini_key YOUR_API_KEY'";
              EReply "chat: failed to connect to Gemini API";
              ERelease])%list
    /\ filter is_request
         [EAcquire;
          EPrint "chat: Gemini API key not set. Use 'chat set_gemini_key YOUR_API_KEY'";
          EReply "chat: failed to connect to Gemini API";
          ERelease] = []
    /\ calls w' = calls w
    /\ send_lock w' = false.
Proof.
  intros Hkey Hlock Hreply.
  unfold send_to_assistant, with_send_lock. rewrite Hlock.
  unfold send_exchange, bindD, lift, check_connection, bind, get_world.
  simpl. rewrite Hkey. simpl. unfold send_reply. simpl. rewrite Hreply.
  eexists. split; [reflexivity|]. simpl.
  repeat split. now rewrite <- !app_assoc.
Qed.

Lemma handle_gemini_response_S (fuel : nat) (r : option response) :
  handle_gemini_response (S fuel) r
  = match r with
    | None => lift (send_reply "No response received from Gemini")
    | Some r =>
        match candidates r with
        | [] => lift (send_reply "No response received from Gemini")
        | c :: cs =>
            for_each (c :: cs) (handle_candidate (handle_gemini_response fuel)) ;;;
            lift (send_status "Ready")
        end
    end.
Proof. reflexivity. Qed.

(** A response that is handled to its end ends in an emission: the reply
    that no response was received, or the status Ready. *)
Lemma handle_gemini_response_ends_with_emission
    (fuel : nat) (r : option response) (w w' : world) :
  handle_gemini_response fuel r w = Some (Ret tt, w') ->
  status_cb w = true ->
  reply_cb w = true ->
  exists evs e, trace w' = (trace w ++ evs ++ [e])%list /\ is_emission e = true.
Proof.
  destruct fuel as [|fuel]; [discriminate|].
  rewrite handle_gemini_response_S. intros H Hs Hr.
  assert (Hnone : forall w', lift (send_reply "No response received from Gemini") w
                             = Some (Ret tt, w') ->
                  exists evs e, trace w' = (trace w ++ evs ++ [e])%list
                                /\ is_emission e = true).
  { intros w1. unfold lift, send_reply. rewrite Hr. intros E.
    inversion E; subst. exists [], (EReply "No response received from Gemini").
    now split. }
  destruct r as [r|]; [|now apply Hnone].
  destruct (candidates r) as [|c cs]; [now apply Hnone|].
  unfold bindD in H.
  destruct (for_each (c :: cs) (handle_candidate (handle_gemini_response fuel)) w)
    as [[[[]|e] w1]|] eqn:E; try discriminate.
  assert (Hext : extends w w1).
  { eapply (keepsD_for_each (c :: cs)); [|exact E].
    intros x. apply keepsD_handle_candidate, keepsD_handle_gemini_response. }
  destruct Hext as (Hs1 & _ & _ & _ & evs & Ht).
  unfold lift, send_status in H. cbv beta in H. rewrite Hs1, Hs in H.
  inversion H; subst.
  exists evs, (EStatus "Ready"). simpl. rewrite Ht. split; [|reflexivity].
  now rewrite app_assoc.
Qed.

Lemma send_status_on (status : string) (w : world) :
  status_cb w = true -> send_status status w = (Ret tt, emit (EStatus status) w).
Proof. intros H. unfold send_status. now rewrite H. Qed.

Lemma send_reply_on (reply : string) (w : world) :
  reply_cb w = true -> send_reply reply w = (Ret tt, emit (EReply reply) w).
Proof. intros H. unfold send_reply. now rewrite H. Qed.

(** The block under the lock, case by case, when both callbacks are set. *)
Lemma send_exchange_cases (fuel : nat) (text : string) (w0 : world) :
  status_cb w0 = true ->
  reply_cb w0 = true ->
  send_exchange fuel text w0
  = match check_connection w0 with
    | (Ret false, w1) =>
        Some (Ret tt, emit (EReply "chat: failed to connect to Gemini API") w1)
    | (Ret true, w1) =>
        match chat_send_message text
                (emit (EStatus "Generating response...") w1) with
        | (Raise e, w3) => Some (Ret tt, reported e w3)
        | (Ret r, w3) =>
            match handle_gemini_response fuel r w3 with
            | None => None
            | Some (Ret u, w4) => Some (Ret u, w4)
            | Some (Raise e, w4) => Some (Ret tt, reported e w4)
            end
        end
    | (Raise e, w1) => Some (Raise e, w1)
    end.
Proof.
  intros Hs Hr. unfold send_exchange, try_catchD, bindD, lift. cbv beta.
  pose proof (keepsM_check_connection w0) as Hk.
  destruct (check_connection w0) as [[[|]|e] w1]; simpl in Hk;
    destruct Hk as (Hs1 & Hr1 & _); cbv beta iota delta [negb].
  - rewrite send_status_on by congruence.
    set (w2 := emit (EStatus "Generating response...") w1).
    pose proof (keepsM_chat_send_message text w2) as Hk2.
    destruct (chat_send_message text w2) as [[r|e] w3]; simpl in Hk2;
      destruct Hk2 as (Hs3 & _).
    + pose proof (keepsD_handle_gemini_response fuel r w3) as Hk3.
      destruct (handle_gemini_response fuel r w3) as [[[u|e] w4]|];
        try reflexivity.
      destruct (Hk3 _ _ eq_refl) as (Hs4 & _).
      unfold print, modify. rewrite send_status_on; [reflexivity|].
      simpl in *. congruence.
    + unfold print, modify. rewrite send_status_on; [reflexivity|].
      simpl in *. congruence.
  - rewrite send_reply_on by congruence. reflexivity.
  - reflexivity.
Qed.

Lemma chat_send_message_on (message : string) (w : world) :
  chat w = true ->
  chat_send_message message w
  = (backend (calls w), count_call (emit (ESendMessage message) w)).
Proof. intros H. unfold chat_send_message. now rewrite H. Qed.

(** The block under the lock always ends in an emission. *)
Lemma send_exchange_ends_with_emission
    (N fuel : nat) (text : string) (w0 : world) :
  quiet_from N ->
  N - calls w0 + 2 <= fuel ->
  status_cb w0 = true ->
  reply_cb w0 = true ->
  exists wk events last,
    send_exchange fuel text w0 = Some (Ret tt, wk)
    /\ trace wk = (trace w0 ++ events ++ [last])%list
    /\ is_emission last = true.
Proof.
  intros Hq Hfuel Hs Hr. rewrite send_exchange_cases by assumption.
  destruct (check_connection_never_raises w0) as (b & w1 & Hc).
  pose proof (keepsM_check_connection w0) as Hk. rewrite Hc in *.
  simpl in Hk. destruct Hk as (Hs1 & Hr1 & _ & Hc1 & evs1 & Ht1).
  destruct b.
  - set (w2 := emit (EStatus "Generating response...") w1).
    pose proof (keepsM_chat_send_message text w2) as Hk2.
    destruct (chat_send_message text w2) as [[r|e] w3]; simpl in Hk2;
      destruct Hk2 as (Hs3 & Hr3 & _ & Hc3 & evs3 & Ht3).
    + destruct (returns_handle_gemini_response N Hq fuel r w3)
        as ([[]|e] & w4 & Hh); [simpl in *; lia | |].
      * rewrite Hh.
        destruct (handle_gemini_response_ends_with_emission _ _ _ _ Hh)
          as (evs & last & Ht4 & Hlast); [simpl in *; congruence..|].
        exists w4, (evs1 ++ EStatus "Generating response..." :: evs3 ++ evs)%list,
          last.
        repeat split; [|assumption].
        rewrite Ht4, Ht3. simpl. rewrite Ht1.
        repeat (rewrite <- app_assoc; simpl). reflexivity.
      * rewrite Hh.
        destruct (keepsD_handle_gemini_response _ _ _ _ _ Hh)
          as (_ & _ & _ & _ & evs4 & Ht4).
        exists (reported e w4),
          (evs1 ++ EStatus "Generating response..." :: evs3 ++ evs4
           ++ [EPrint ("chat: " ++ "Error: " ++ e)])%list,
          (EStatus ("Error: " ++ e)).
        repeat split. simpl. rewrite Ht4, Ht3. simpl. rewrite Ht1.
        repeat (rewrite <- app_assoc; simpl). reflexivity.
    + exists (reported e w3),
        (evs1 ++ EStatus "Generating response..." :: evs3
         ++ [EPrint ("chat: " ++ "Error: " ++ e)])%list,
        (EStatus ("Error: " ++ e)).
      repeat split. simpl. rewrite Ht3. simpl. rewrite Ht1.
      repeat (rewrite <- app_assoc; simpl). reflexivity.
  - exists (emit (EReply "chat: failed to connect to Gemini API") w1), evs1,
      (EReply "chat: failed to connect to Gemini API").
    repeat split. simpl. rewrite Ht1. repeat (rewrite <- app_assoc; simpl). reflexivity.
Qed.

(** With both callbacks set and a backend that stops asking for calls,
    [send_to_assistant] returns without raising and with the lock released,
    and the last thing it does before releasing the lock is an emission on
    the status or the reply sink. A failed connection check and an absent
    response are reported on the reply sink, a fault of the first request on
    the status sink. *)
Lemma send_to_assistant_reports
    (N fuel : nat) (text : string) (w : world) :
  quiet_from N ->
  N - calls w + 2 <= fuel ->
  send_lock w = false ->
  status_cb w = true ->
  reply_cb w = true ->
  let w0 := emit EAcquire (set_send_lock true w) in
  (exists w' events last,
     send_to_assistant fuel text w = Some (Ret tt, w')
     /\ send_lock w' = false
     /\ trace w' = (trace w ++ EAcquire :: events ++ [last; ERelease])%list
     /\ is_emission last = true)
  /\ (forall w1,
        check_connection w0 = (Ret false, w1) ->
        send_exchange fuel text w0
        = Some (Ret tt, emit (EReply "chat: failed to connect to Gemini API") w1))
  /\ (forall w1 e,
        check_connection w0 = (Ret true, w1) ->
        chat w1 = true ->
        backend (calls w1) = Raise e ->
        send_exchange fuel text w0
        = Some (Ret tt,
                emit (EStatus ("Error: " ++ e))
                  (emit (EPrint ("chat: Error: " ++ e))
                     (after_first_request text w1))))
  /\ (forall w1 r,
        check_connection w0 = (Ret true, w1) ->
        chat w1 = true ->
        backend (calls w1) = Ret r ->
        match r with Some r => candidates r = [] | None => True end ->
        send_exchange fuel text w0
        = Some (Ret tt,
                emit (EReply "No response received from Gemini")
                  (after_first_request text w1))).
Proof.
  intros Hq Hfuel Hlock Hs Hr w0.
  assert (Hs0 : status_cb w0 = true) by exact Hs.
  assert (Hr0 : reply_cb w0 = true) by exact Hr.
  repeat split.
  - destruct (send_exchange_ends_with_emission N fuel text w0 Hq)
      as (wk & events & last & Hrun & Ht & Hlast); try assumption.
    exists (emit ERelease (set_send_lock false wk)), events, last.
    unfold send_to_assistant, with_send_lock. rewrite Hlock. fold w0.
    rewrite Hrun. repeat split; [|assumption].
    simpl. rewrite Ht. simpl.
    repeat (rewrite <- app_assoc; simpl). reflexivity.
  - intros w1 Hc. rewrite send_exchange_cases by assumption. now rewrite Hc.
  - intros w1 e Hc Hchat Hb. rewrite send_exchange_cases by assumption.
    rewrite Hc, chat_send_message_on by exact Hchat. simpl calls.
    now rewrite Hb.
  - intros w1 r Hc Hchat Hb Habsent.
    rewrite send_exchange_cases by assumption.
    rewrite Hc, chat_send_message_on by exact Hchat. simpl calls.
    rewrite Hb. destruct fuel as [|fuel']; [lia|].
    rewrite handle_gemini_response_S.
    assert (Hcb : reply_cb (after_first_request text w1) = true).
    { pose proof (keepsM_check_connection w0) as Hk. rewrite Hc in Hk.
      destruct Hk as (_ & Hr1 & _). unfold after_first_request.
      simpl in *. congruence. }
    destruct r as [r|].
    + rewrite Habsent. unfold lift. now rewrite send_reply_on.
    + unfold lift. now rewrite send_reply_on.
Qed.

(** *** Recursion happens on a directive only *)

Lemma for_each_ext {A} (l : list A) (body body' : A -> D unit) :
  (forall x w, In x l -> body x w = body' x w) ->
  forall w, for_each l body w = for_each l body' w.
Proof.
  induction l as [|x l IH]; intros H w; simpl; [reflexivity|].
  unfold bindD. rewrite H by now left.
  destruct (body' x w) as [[[[]|e] w']|]; try reflexivity.
  apply IH. intros y w1 Hy. apply H. now right.
Qed.

Lemma handle_candidate_without_call
    (h h' : option response -> D unit) (c : candidate) (w : world) :
  candidate_has_call c = false ->
  handle_candidate h c w = handle_candidate h' c w.
Proof.
  unfold candidate_has_call, handle_candidate, content_has_call.
  destruct (cand_content c) as [ct|]; [|reflexivity].
  unfold content_parts, bindD, lift.
  destruct (parts ct) as [ps|]; [|reflexivity]. intros Hq.
  unfold ret. apply for_each_ext. intros p w1 Hp.
  assert (Hp' : part_has_call p = false).
  { destruct (part_has_call p) eqn:E; [|reflexivity].
    rewrite <- Hq. symmetry. apply existsb_exists. now exists p. }
  unfold handle_part, part_has_call in *.
  destruct (part_call p); [discriminate | reflexivity].
Qed.

(** A response that carries no directive is handled without recursion:
    one unit of fuel is as good as any. *)
Lemma handle_gemini_response_without_call
    (fuel : nat) (r : option response) (w : world) :
  reply_carries_call (Ret r) = false ->
  handle_gemini_response (S fuel) r w = handle_gemini_response 1 r w.
Proof.
  rewrite !handle_gemini_response_S. destruct r as [r|]; [|reflexivity].
  unfold reply_carries_call, carries_function_call.
  destruct (candidates r) as [|c cs]; [reflexivity|]. intros Hq.
  unfold bindD.
  rewrite (for_each_ext (c :: cs) _
             (handle_candidate (handle_gemini_response 0))); [reflexivity|].
  intros x w1 Hx. apply handle_candidate_without_call.
  destruct (candidate_has_call x) eqn:E; [|reflexivity].
  rewrite <- Hq. symmetry. apply existsb_exists. now exists x.
Qed.

(** *** No bound on the depth *)

Lemma calling_response_stuck (fuel : nat) (w : world) :
  handle_function_call (handle_gemini_response fuel) again_call w = None ->
  handle_gemini_response (S fuel) (Some calling_response) w = None.
Proof.
  intros H. rewrite handle_gemini_response_S.
  cbv [calling_response candidates for_each handle_candidate handle_part
       bindD lift retD ret content_parts cand_content parts text part_call].
  now rewrite H.
Qed.

(** While the backend answers every request by a directive, each level of
    the loop enters the next one: fuel that does not outlast those answers
    runs out. *)
Lemma handle_gemini_response_runs_out (depth : nat) :
  (forall n, n < depth -> backend n = Ret (Some calling_response)) ->
  forall fuel w,
    chat w = true ->
    calls w + fuel <= depth ->
    handle_gemini_response fuel (Some calling_response) w = None.
Proof.
  intros Hb. induction fuel as [|fuel IH]; intros w Hchat Hdepth;
    [reflexivity|].
  apply calling_response_stuck.
  rewrite (handle_function_call_named _ again_call "again" w eq_refl eq_refl).
  rewrite call_function_unrecognized
    by (simpl; intros [H|[H|[H|[H|[H|[]]]]]]; discriminate).
  rewrite send_function_result_sends by exact Hchat.
  cbv zeta. simpl calls. rewrite Hb by lia.
  rewrite IH; [reflexivity | exact Hchat | simpl; lia].
Qed.

End Session.

Arguments JNull {num}.
Arguments JBool {num} b.
Arguments JInt {num} z.
Arguments JFloat {num} x.
Arguments JStr {num} s.
Arguments JList {num} l.
Arguments JDict {num} d.
Arguments EPrint {num} line.
Arguments EStatus {num} status.
Arguments EReply {num} reply.
Arguments EGenerate {num} prompt.
Arguments ESendMessage {num} message.
Arguments EParamSet {num} name value.
Arguments EStdin {num} line.
Arguments EAcquire {num}.
Arguments ERelease {num}.
Arguments Build_world {num}.
Arguments api_key {num} w.
Arguments model {num} w.
Arguments chat {num} w.
Arguments status_cb {num} w.
Arguments reply_cb {num} w.
Arguments send_lock {num} w.
Arguments calls {num} w.
Arguments trace {num} w.
Arguments Build_vehicle {num}.
Arguments mav_param {num} v.
Arguments get_mav_param {num} v.
Arguments emit {num} e w.
Arguments set_send_lock {num} b w.
Arguments count_call {num} w.
Arguments is_request {num} e.
Arguments is_emission {num} e.
Arguments is_status {num} e.
Arguments retD {num A} a.
Arguments for_each {num A} l body.
Arguments bindD {num A B} c k.
Arguments handle_gemini_response {num} num_repr json_loads {re_pattern}.
Arguments handle_function_call {num} num_repr json_loads {re_pattern}.
Arguments send_function_result {num} num_repr.
Arguments call_function {num} {re_pattern}.
Arguments send_to_assistant {num} num_repr json_loads {re_pattern}.
Arguments send_exchange {num} num_repr json_loads {re_pattern}.
Arguments check_connection {num}.
Arguments call_arguments {num}.
Arguments get_parameter {num} {re_pattern}.
Arguments check_wakeup_timers {num} num_repr json_loads {re_pattern}.

(** ** The response loop over every backend *)

Section Loop.

Variable num : Type.
Variable num_repr : num -> string.
Variable json_loads : string -> option (json num).
Variable re_pattern : Type.
Variable re_compile : string -> outcome re_pattern.
Variable re_match : re_pattern -> string -> bool.
Variable datetime_now : string.
Variable mpstate : vehicle num.

(** A backend that answers its first [depth] requests by a directive and
    every later one by no response. *)
Definition insisting_backend (depth : nat) : nat -> backend_reply :=
  fun n => if (n <? depth)%nat then Ret (Some calling_response) else Ret None.

(** A session that is connected and has made no request. *)
Definition connected_world : world num :=
  {| api_key := Some "key"; model := true; chat := true;
     status_cb := true; reply_cb := true; send_lock := false;
     calls := 0; trace := [] |}.

Lemma insisting_backend_quiet (depth : nat) :
  quiet_from (insisting_backend depth) depth.
Proof.
  intros i Hi. unfold insisting_backend.
  destruct (Nat.ltb_spec i depth); [lia | reflexivity].
Qed.

(** C9. The loop returns whenever the backend stops sending directives: if
    no answer from the N-th on carries one, fuel N + 2 (less the requests
    already made) is enough, whatever the answers before were. A response
    without a directive is handled without recursion. The loop itself has
    no bound on its depth: for every depth there is a backend against which
    that much fuel runs out. *)
Theorem response_loop_terminates :
  (forall (backend : nat -> backend_reply) (N : nat),
     quiet_from backend N ->
     forall fuel r w,
       N - calls w + 2 <= fuel ->
       exists o w',
         handle_gemini_response num_repr json_loads re_compile re_match
           backend datetime_now mpstate fuel r w = Some (o, w'))
  /\ (forall (backend : nat -> backend_reply) fuel r w,
        reply_carries_call (Ret r) = false ->
        handle_gemini_response num_repr json_loads re_compile re_match
          backend datetime_now mpstate (S fuel) r w
        = handle_gemini_response num_repr json_loads re_compile re_match
            backend datetime_now mpstate 1 r w)
  /\ (forall depth : nat,
        exists (backend : nat -> backend_reply) (N : nat) r w,
          quiet_from backend N
          /\ handle_gemini_response num_repr json_loads re_compile re_match
               backend datetime_now mpstate depth r w = None).
Proof.
  split; [|split].
  - intros backend N Hq fuel r w Hfuel.
    exact (returns_handle_gemini_response num num_repr json_loads re_pattern
             re_compile re_match backend datetime_now mpstate N Hq fuel r w
             Hfuel).
  - intros backend fuel r w Hq.
    now apply handle_gemini_response_without_call.
  - intros depth.
    exists (insisting_backend depth), depth, (Some calling_response),
      connected_world.
    split; [apply insisting_backend_quiet|].
    apply (handle_gemini_response_runs_out num num_repr json_loads re_pattern
             re_compile re_match (insisting_backend depth) datetime_now mpstate
             depth).
    + intros n Hn. unfold insisting_backend.
      destruct (Nat.ltb_spec n depth); [reflexivity | lia].
    + reflexivity.
    + simpl. lia.
Qed.

End Loop.

(** ** A concrete session

    The collaborators of the examples: numbers are fractions, [json.loads]
    rejects every blob, the regular expressions are those of
    [Re_fragment], the SDK starts without fault, and the vehicle holds the
    three parameters of the example of the specification, which
    [get_mav_param] looks up. *)

Module Example.

Definition number : Type := QArith_base.Q.

Definition number_repr (x : number) : string :=
  Str.of_Z (QArith_base.Qnum x) ++ "/" ++ Str.of_Z (Zpos (QArith_base.Qden x)).

Definition loads : string -> option (json number) := fun _ => None.

Definition store : list (string * number) :=
  [ ("THR_MIN", QArith_base.Qmake 100 1);
    ("BATT_LOW_VOLT", QArith_base.Qmake 21 2);
    ("BATT_CAPACITY", QArith_base.Qmake 5000 1) ].

Fixpoint lookup (l : list (string * number)) (name : string) : option number :=
  match l with
  | [] => None
  | (k, v) :: l' => if String.eqb k name then Some v else lookup l' name
  end.

Definition mpstate : vehicle number :=
  {| heartbeat := Ret None;
     motors_armed := Ret 0%Z;
     mav_param := store;
     get_mav_param := lookup store;
     param_set := fun _ _ => Ret tt;
     process_stdin := fun _ => Ret tt |}.

Definition now : string := "Monday, January 01, 2024 12:00:00 PM".

(** A session that is connected, with both callbacks, and one without a
    credential. *)
Definition ready : world number :=
  {| api_key := Some "key"; model := true; chat := true;
     status_cb := true; reply_cb := true; send_lock := false;
     calls := 0; trace := [] |}.

Definition no_credential : world number :=
  {| api_key := None; model := false; chat := false;
     status_cb := true; reply_cb := true; send_lock := false;
     calls := 0; trace := [] |}.

(** A backend whose answer to the first message has no candidates. *)
Definition absent_backend : nat -> backend_reply :=
  fun n =>
    match n with
    | 0 => Ret None
    | _ => Ret (Some {| candidates := [] |})
    end.

Definition text_response (t : string) : response :=
  {| candidates :=
       [ {| cand_content :=
              Some {| parts := Some [ {| text := Some t;
                                         part_call := None |} ] |} |} ] |}.

(** A backend that asks for one call, then fails on the function result. *)
Definition failing_backend : nat -> backend_reply :=
  fun n =>
    match n with
    | 0 => Ret None
    | 1 => Ret (Some calling_response)
    | _ => Raise "connection reset"
    end.

(** A backend that asks for one call, then answers by a text. *)
Definition calling_backend : nat -> backend_reply :=
  fun n =>
    match n with
    | 0 => Ret None
    | 1 => Ret (Some calling_response)
    | _ => Ret (Some (text_response "done"))
    end.

Definition handle (backend : nat -> backend_reply) (fuel : nat)
  : option response -> D number unit :=
  handle_gemini_response number_repr loads Re_fragment.compile
    Re_fragment.matches backend now mpstate fuel.

Definition handle_call (backend : nat -> backend_reply) (fuel : nat)
  : function_call -> D number unit :=
  handle_function_call number_repr loads Re_fragment.compile
    Re_fragment.matches backend now mpstate (handle backend fuel).

Definition send (backend : nat -> backend_reply) (fuel : nat) (text : string)
  : D number unit :=
  send_to_assistant number_repr loads Re_fragment.compile Re_fragment.matches
    backend (Ret tt) (Ret tt) now mpstate fuel text.

End Example.

(** ** The properties at the concrete session *)

(** C7 at the example of the specification: NOPE is not in the store. *)
Lemma get_parameter_not_found_witness :
  exists error,
    get_parameter Re_fragment.compile Re_fragment.matches Example.mpstate
      (JDict [("name", JStr "NOPE")]) Example.ready
    = (Ret (JStr error), Example.ready)
    /\ error = "get_parameter: " ++ "NOPE" ++ " parameter not found"
    /\ Str.contains "NOPE" error
    /\ Str.contains "not found" error.
Proof.
  apply (get_parameter_not_found Example.number Re_fragment.pattern
           Re_fragment.compile Re_fragment.matches Example.mpstate
           [("name", JStr "NOPE")] "NOPE" Example.ready);
    reflexivity.
Defined.

(** C8 at a session without a credential. *)
Lemma send_without_credential_witness :
  exists w',
    Example.send Example.calling_backend 0 "hello" Example.no_credential
    = Some (Ret tt, w')
    /\ trace w'
       = (trace Example.no_credential
          ++ [EAcquire;
              EPrint "chat: Gemini API key not set. Use 'chat set_gemini_key YOUR_API_KEY'";
              EReply "chat: failed to connect to Gemini API";
              ERelease])%list
    /\ filter is_request
         [EAcquire;
          EPrint "chat: Gemini API key not set. Use 'chat set_gemini_key YOUR_API_KEY'";
          EReply "chat: failed to connect to Gemini API";
          @ERelease Example.number] = []
    /\ calls w' = calls Example.no_credential
    /\ send_lock w' = false.
Proof.
  apply (send_without_credential Example.number Example.number_repr
           Example.loads Re_fragment.pattern Re_fragment.compile
           Re_fragment.matches Example.calling_backend (Ret tt) (Ret tt)
           Example.now Example.mpstate 0 "hello" Example.no_credential);
    reflexivity.
Defined.

(** C6 at the example of the specification: the call of nonexistent, with
    empty arguments, in the connected session. The error string goes to the
    backend, whose answer (no response) is handled. *)
Lemma unknown_function_call_witness :
  Example.handle_call Example.absent_backend 1
    {| fc_name := Some "nonexistent"; fc_args := "{}" |} Example.ready
  = Some (Ret tt,
          {| api_key := Some "key"; model := true; chat := true;
             status_cb := true; reply_cb := true; send_lock := false;
             calls := 1;
             trace :=
               [EPrint "chat: Handling function call: nonexistent";
                EPrint "chat: Unrecognized function name: nonexistent";
                ESendMessage
                  ("Function result for nonexistent: "
                   ++ Str.json_quote "Unrecognized function call: nonexistent");
                EReply "No response received from Gemini"] |})
  /\ forall o w',
       Example.handle_call Example.absent_backend 1
         {| fc_name := Some "nonexistent"; fc_args := "{}" |} Example.ready
       = Some (o, w') ->
       o = Ret tt.
Proof.
  split; [reflexivity|].
  apply (unknown_function_call_answered Example.number Example.number_repr
           Example.loads Re_fragment.pattern Re_fragment.compile
           Re_fragment.matches Example.absent_backend Example.now
           Example.mpstate (Example.handle Example.absent_backend 1)
           "nonexistent" "{}" Example.ready).
  - simpl. intros [H|[H|[H|[H|[H|[H|[]]]]]]]; discriminate.
  - discriminate.
  - reflexivity.
Defined.

(** C10 at a directive with an empty name, and at a call of get_parameter
    whose arguments are rejected. *)
Lemma function_call_without_name_or_arguments_witness :
  Example.handle_call Example.absent_backend 1
    {| fc_name := Some ""; fc_args := "{}" |} Example.ready
  = Some (Ret tt, emit (EPrint "chat: Empty function name received") Example.ready)
  /\ call_arguments Example.loads
       {| fc_name := Some "get_parameter"; fc_args := "{" |} = JDict []
  /\ Example.handle_call Example.absent_backend 1
       {| fc_name := Some "get_parameter"; fc_args := "{" |} Example.ready
     = Some (Ret tt,
             {| api_key := Some "key"; model := true; chat := true;
                status_cb := true; reply_cb := true; send_lock := false;
                calls := 1;
                trace :=
                  [EPrint "chat: Handling function call: get_parameter";
                   ESendMessage
                     ("Function result for get_parameter: "
                      ++ Str.json_quote "get_parameter: name not specified");
                   EReply "No response received from Gemini"] |}).
Proof.
  pose proof (function_call_without_name_or_arguments Example.number
                Example.number_repr Example.loads Re_fragment.pattern
                Re_fragment.compile Re_fragment.matches Example.absent_backend
                Example.now Example.mpstate
                (Example.handle Example.absent_backend 1)) as H.
  split; [|split].
  - apply (proj1 (H {| fc_name := Some ""; fc_args := "{}" |} Example.ready)).
    right. reflexivity.
  - apply (proj2 (H {| fc_name := Some "get_parameter"; fc_args := "{" |}
                    Example.ready)).
    reflexivity.
  - reflexivity.
Defined.

Lemma calling_backend_quiet : quiet_from Example.calling_backend 2.
Proof.
  intros i Hi. destruct i as [|[|i]]; [lia | lia | reflexivity].
Defined.

(** C9 at the same backend: fuel 4 is enough for a response that asks for a
    call. *)
Lemma response_loop_terminates_witness :
  exists o w',
    Example.handle Example.calling_backend 4 (Some calling_response)
      Example.ready = Some (o, w').
Proof.
  apply (proj1 (response_loop_terminates Example.number Example.number_repr
                  Example.loads Re_fragment.pattern Re_fragment.compile
                  Re_fragment.matches Example.now Example.mpstate)
           Example.calling_backend 2 calling_backend_quiet 4
           (Some calling_response) Example.ready (le_n 4)).
Defined.

(** C5 as the specification states it fails on an absent response: the
    fault is met after the message hello is sent, and it is reported on the
    reply sink. The status sink receives nothing after the request; its only
    message is the one sent before the backend was asked. *)
Lemma absent_candidates_not_reported_on_status :
  exists w',
    Example.send Example.absent_backend 1 "hello" Example.ready
    = Some (Ret tt, w')
    /\ trace w'
       = [EAcquire; EGenerate "Test connection";
          EStatus "Generating response..."; ESendMessage "hello";
          EReply "No response received from Gemini"; ERelease]
    /\ filter is_status (trace w') = [EStatus "Generating response..."]
    /\ ~ exists before status after,
           trace w'
           = (before ++ ESendMessage "hello" :: after)%list
           /\ In (EStatus status) after.
Proof.
  eexists. split; [reflexivity|]. split; [reflexivity|].
  split; [reflexivity|].
  intros (before & status & after & Heq & Hin). simpl in Heq.
  destruct before as [|e0 [|e1 [|e2 [|e3 [|e4 [|e5 [|e6 before]]]]]]];
    simpl in Heq; inversion Heq; subst; simpl in Hin;
    try (destruct before; discriminate);
    intuition discriminate.
Qed.

(** A fault of a nested continuation is printed only: the request that
    carries the function result fails, the console gets the message, and
    the status sink gets Ready. *)
Lemma continuation_fault_only_printed :
  exists w',
    Example.send Example.failing_backend 3 "hello" Example.ready
    = Some (Ret tt, w')
    /\ trace w'
       = [EAcquire; EGenerate "Test connection";
          EStatus "Generating response..."; ESendMessage "hello";
          EPrint "chat: Handling function call: again";
          EPrint "chat: Unrecognized function name: again";
          ESendMessage ("Function result for again: "
                        ++ Str.json_quote "Unrecognized function call: again");
          EPrint "chat: Error sending function response: connection reset";
          EStatus "Ready"; ERelease].
Proof.
  exists {| api_key := Some "key"; model := true; chat := true;
            status_cb := true; reply_cb := true; send_lock := false;
            calls := 3;
            trace :=
              [EAcquire; EGenerate "Test connection";
               EStatus "Generating response..."; ESendMessage "hello";
               EPrint "chat: Handling function call: again";
               EPrint "chat: Unrecognized function name: again";
               ESendMessage
                 ("Function result for again: "
                  ++ Str.json_quote "Unrecognized function call: again");
               EPrint "chat: Error sending function response: connection reset";
               EStatus "Ready"; ERelease] |}.
  split; vm_compute; reflexivity.
Qed.

(** C4 at a schedule with a timer held twice: at the turns of times 10 and
    20 the messages go out in the order of the schedule, the two equal
    timers once each, and the timer of time 30 stays. *)
Lemma check_wakeup_timers_example :
  match
    check_wakeup_timers Example.number_repr Example.loads Re_fragment.compile
      Re_fragment.matches (fun _ => Ret (Some (Example.text_response "ok")))
      (Ret tt) (Ret tt) Example.now Example.mpstate 2 [10%Z; 20%Z]
      [ {| time := 5; message := "a" |}; {| time := 15; message := "b" |};
        {| time := 5; message := "a" |}; {| time := 30; message := "c" |} ]
      Example.ready
  with
  | Some (Ret schedule, w') =>
      schedule = [ {| time := 30; message := "c" |} ]
      /\ filter (fun e => match e with ESendMessage _ => true | _ => false end)
           (trace w')
         = [ESendMessage "WAKEUP:a"; ESendMessage "WAKEUP:a";
            ESendMessage "WAKEUP:b"]
  | _ => False
  end.
Proof.
  vm_compute. split; reflexivity.
Qed.


(** * The rest of the session

    The functions of [chat_gemini.py] that the properties above do not
    reach ([__init__], [load_api_key], [save_api_key]), further properties
    of the ones they do, and the two properties of the specification that
    need the lemmas of this part: the lookup by a pattern (C2) and the
    faults of an exchange (C5). *)

Arguments ret {num A} a.
Arguments raise {num A} e.
Arguments bind {num A B} c k.
Arguments try_catch {num A} c handler.
Arguments of_outcome {num A} o.
Arguments get_world {num}.
Arguments modify {num} f.
Arguments lift {num A} c.
Arguments try_catchD {num A} c handler.
Arguments print {num} line.
Arguments send_status {num} status.
Arguments send_reply {num} reply.
Arguments set_model {num} b w.
Arguments set_chat {num} b w.
Arguments with_send_lock {num A} body.
Arguments dict_get {num} d key.
Arguments dict_set {num} d key v.
Arguments attribute_error {num} j attr.
Arguments heartbeat {num} v.
Arguments motors_armed {num} v.
Arguments param_set {num} v.
Arguments process_stdin {num} v.
Arguments reported {num} e w.
Arguments after_first_request {num} text w1.
Arguments description {num} t.
Arguments parameters {num} t.
Arguments function {num} t.

Module Further.

(** ** [str.strip()]

    The whitespace of Python among the code points below 256: the
    characters 9 to 13, 28 to 32, 133 and 160. *)

Definition is_space (c : ascii) : bool :=
  let n := nat_of_ascii c in
  (((9 <=? n) && (n <=? 13)) || ((28 <=? n) && (n <=? 32))
   || (n =? 133) || (n =? 160))%nat.

Fixpoint lstrip (s : string) : string :=
  match s with
  | EmptyString => EmptyString
  | String c s' => if is_space c then lstrip s' else s
  end.

Fixpoint rstrip (s : string) : string :=
  match s with
  | EmptyString => EmptyString
  | String c s' =>
      match rstrip s' with
      | EmptyString => if is_space c then EmptyString else String c EmptyString
      | r => String c r
      end
  end.

Definition strip (s : string) : string := lstrip (rstrip s).

(** ** Text files

    The key file is written and read in text mode. On writing, a line feed
    becomes the line separator of the platform; on reading, a carriage
    return, alone or followed by a line feed, becomes a line feed. *)

Inductive platform : Type := posix | nt.

Definition CR : ascii := "013"%char.
Definition LF : ascii := "010"%char.

(** [os.linesep]. *)
Definition linesep (p : platform) : string :=
  match p with
  | posix => String LF EmptyString
  | nt => String CR (String LF EmptyString)
  end.

(** The characters [f.write(s)] puts in the file. *)
Fixpoint write_text (p : platform) (s : string) : string :=
  match s with
  | EmptyString => EmptyString
  | String c s' =>
      if Ascii.eqb c LF then linesep p ++ write_text p s'
      else String c (write_text p s')
  end.

(** The text [f.read()] gives for the characters of the file. *)
Fixpoint read_text (s : string) : string :=
  match s with
  | EmptyString => EmptyString
  | String c s' =>
      if Ascii.eqb c CR then
        String LF
          match s' with
          | String d s'' => if Ascii.eqb d LF then read_text s'' else read_text s'
          | EmptyString => EmptyString
          end
      else String c (read_text s')
  end.

(** A string without a carriage return and without a line feed. *)
Fixpoint no_line_break (s : string) : bool :=
  match s with
  | EmptyString => true
  | String c s' => negb (Ascii.eqb c CR || Ascii.eqb c LF) && no_line_break s'
  end.

(** The first and the last character of a string. *)
Definition first_char (s : string) : option ascii :=
  match s with
  | EmptyString => None
  | String c _ => Some c
  end.

Fixpoint last_char (s : string) : option ascii :=
  match s with
  | EmptyString => None
  | String c s' =>
      match last_char s' with
      | None => Some c
      | Some d => Some d
      end
  end.

(** A string that neither starts nor ends with whitespace. *)
Definition trimmed (s : string) : Prop :=
  (forall c, first_char s = Some c -> is_space c = false)
  /\ (forall c, last_char s = Some c -> is_space c = false).

(** A string of whitespace only. *)
Fixpoint blank (s : string) : bool :=
  match s with
  | EmptyString => true
  | String c s' => is_space c && blank s'
  end.

Section Session.

Variable num : Type.
Variable num_repr : num -> string.
Variable json_loads : string -> option (json num).
Variable re_pattern : Type.
Variable re_compile : string -> outcome re_pattern.
Variable re_match : re_pattern -> string -> bool.
Variable backend : nat -> backend_reply.
Variable genai_model : outcome unit.
Variable genai_start_chat : outcome unit.
Variable datetime_now : string.
Variable mpstate : vehicle num.

(** The definitions of the session at these collaborators. *)
#[local] Abbreviation json := (json num).
#[local] Abbreviation event := (event num).
#[local] Abbreviation world := (world num).
#[local] Abbreviation M := (M num).
#[local] Abbreviation D := (D num).
#[local] Abbreviation json_dumps := (@json_dumps num num_repr).
#[local] Abbreviation generate_content := (@generate_content num backend).
#[local] Abbreviation chat_send_message := (@chat_send_message num backend).
#[local] Abbreviation initialize_model :=
  (@initialize_model num genai_model genai_start_chat).
#[local] Abbreviation check_connection :=
  (@check_connection num backend genai_model genai_start_chat).
#[local] Abbreviation arguments_get := (@arguments_get num).
#[local] Abbreviation get_current_datetime := (@get_current_datetime num datetime_now).
#[local] Abbreviation get_vehicle_type := (@get_vehicle_type num mpstate).
#[local] Abbreviation set_vehicle_mode := (@set_vehicle_mode num mpstate).
#[local] Abbreviation get_vehicle_state := (@get_vehicle_state num mpstate).
#[local] Abbreviation get_parameter_loop :=
  (@get_parameter_loop num re_pattern re_match mpstate).
#[local] Abbreviation get_parameter :=
  (@get_parameter num re_pattern re_compile re_match mpstate).
#[local] Abbreviation set_parameter := (@set_parameter num mpstate).
#[local] Abbreviation tool_info := (tool_info num).
#[local] Abbreviation define_tools :=
  (@define_tools num re_pattern re_compile re_match datetime_now mpstate).
#[local] Abbreviation registered_names :=
  (@registered_names num re_pattern re_compile re_match datetime_now mpstate).
#[local] Abbreviation registered_handler := (@registered_handler num).
#[local] Abbreviation call_function :=
  (@call_function num re_pattern re_compile re_match datetime_now mpstate).
#[local] Abbreviation function_result_message :=
  (@function_result_message num num_repr).
#[local] Abbreviation send_function_result :=
  (@send_function_result num num_repr backend).
#[local] Abbreviation call_arguments := (@call_arguments num json_loads).
#[local] Abbreviation handle_function_call :=
  (@handle_function_call num num_repr json_loads re_pattern re_compile re_match
     backend datetime_now mpstate).
#[local] Abbreviation handle_part :=
  (@handle_part num num_repr json_loads re_pattern re_compile re_match
     backend datetime_now mpstate).
#[local] Abbreviation handle_candidate :=
  (@handle_candidate num num_repr json_loads re_pattern re_compile re_match
     backend datetime_now mpstate).
#[local] Abbreviation handle_gemini_response :=
  (@handle_gemini_response num num_repr json_loads re_pattern re_compile
     re_match backend datetime_now mpstate).
#[local] Abbreviation send_exchange :=
  (@send_exchange num num_repr json_loads re_pattern re_compile re_match
     backend genai_model genai_start_chat datetime_now mpstate).
#[local] Abbreviation send_to_assistant :=
  (@send_to_assistant num num_repr json_loads re_pattern re_compile re_match
     backend genai_model genai_start_chat datetime_now mpstate).
#[local] Abbreviation resolved := (@resolved num mpstate).
#[local] Abbreviation caught := (@caught num).
#[local] Abbreviation returns := (@returns num).
#[local] Abbreviation quiet_from := (quiet_from backend).

#[local] Notation "x <- c ;; k" := (bind c (fun x => k))
  (at level 61, c at next level, right associativity).
#[local] Notation "c ;; k" := (bind c (fun _ => k))
  (at level 61, right associativity).
#[local] Notation "x <~ c ;; k" := (bindD c (fun x => k))
  (at level 61, c at next level, right associativity).
#[local] Notation "c ;;; k" := (bindD c (fun _ => k))
  (at level 61, right associativity).

(** ** Credentials *)

Definition set_api_key (k : option string) (w : world) : world :=
  {| api_key := k; model := model w; chat := chat w;
     status_cb := status_cb w; reply_cb := reply_cb w;
     send_lock := send_lock w; calls := calls w; trace := trace w |}.

(** [genai.configure] alone. *)
Variable genai_configure : outcome unit.

(** [initialize_model] when [self.tools] is not yet set: after
    [genai.configure], reading [self.tools] raises. This is the state
    [__init__] calls [load_api_key] in. *)
Definition initialize_model_without_tools : M bool :=
  try_catch
    (of_outcome genai_configure ;;
     raise "'ChatGemini' object has no attribute 'tools'")
    (fun e =>
       print ("chat: Failed to initialize Gemini model: " ++ e) ;;
       ret false).

(** The key file: [None] when it does not exist, else what reading it
    gives. [tools_defined] tells whether [self.tools] is set. *)
Definition load_api_key (tools_defined : bool)
    (config_file : option (outcome string)) : M unit :=
  match config_file with
  | None => ret tt
  | Some content =>
      try_catch
        (text <- of_outcome content ;;
         modify (set_api_key (Some (strip text))) ;;
         print "chat: Loaded Gemini API key from config file" ;;
         (if tools_defined then initialize_model
          else initialize_model_without_tools) ;;
         ret tt)
        (fun e => print ("chat: Failed to load API key: " ++ e))
  end.

(** [__init__]: the lock, the empty schedule (whose poller, started here,
    has nothing to do), the key, and then [self.model = None],
    [self.chat = None]; [self.tools] is set last. The callbacks are the ones
    given. *)
Definition init (status reply : bool) (config_file : option (outcome string))
  : world :=
  let w := {| api_key := None; model := false; chat := false;
              status_cb := status; reply_cb := reply; send_lock := false;
              calls := 0; trace := [] |} in
  let w := snd (load_api_key false config_file w) in
  set_chat false (set_model false w).

(** What writing the key file gives: the text is written, or an exception
    is raised and the file is left as [remains] says. *)
Inductive write_result : Type :=
| Written
| Write_fails (e : exn) (remains : option string).

(** The session with the key file on disk: [key_file] is the text the file
    was last written with, if it exists. *)
Record host := {
  session : world;
  key_file : option string
}.

Definition save_api_key (write : write_result) (key : string) (h : host)
  : outcome bool * host :=
  match write with
  | Written =>
      let w := set_api_key (Some key) (session h) in
      let (o, w') :=
        (print "chat: Saved Gemini API key to config file" ;;
         initialize_model) w in
      (o, {| session := w'; key_file := Some key |})
  | Write_fails e remains =>
      let (o, w') :=
        (print ("chat: Failed to save API key: " ++ e) ;; ret false)
          (session h) in
      (o, {| session := w'; key_file := remains |})
  end.

(** A later start of the program on the disk of [h], on the platform [p]:
    the file holds the characters that writing the text put there, and
    reading gives them back in text mode. *)
Definition restart (p : platform) (status reply : bool) (h : host) : world :=
  init status reply
    (option_map (fun text => Ret (read_text (write_text p text))) (key_file h)).

(** ** What a command leaves untouched *)

Definition is_console (e : event) : bool :=
  match e with EPrint _ => true | _ => false end.

Definition is_param_set (e : event) : bool :=
  match e with EParamSet _ _ => true | _ => false end.

Definition is_lock (e : event) : bool :=
  match e with EAcquire | ERelease => true | _ => false end.

(** The session is the same: only the trace may differ. *)
Definition same_session (w w' : world) : Prop :=
  api_key w' = api_key w /\ model w' = model w /\ chat w' = chat w
  /\ status_cb w' = status_cb w /\ reply_cb w' = reply_cb w
  /\ send_lock w' = send_lock w /\ calls w' = calls w.

(** [w'] is [w] with events of the kind [P] added. *)
Definition adds (P : event -> bool) (w w' : world) : Prop :=
  same_session w w'
  /\ exists evs, trace w' = (trace w ++ evs)%list /\ forallb P evs = true.

Definition onlyM {A} (P : event -> bool) (c : M A) : Prop :=
  forall w, adds P w (snd (c w)).

(** [w'] comes after [w] in an exchange: the key, the callbacks and the
    lock are the same, a model and a chat that were set still are, events of
    the kind [P] were added, and the requests are counted. *)
Definition grows (P : event -> bool) (w w' : world) : Prop :=
  api_key w' = api_key w
  /\ status_cb w' = status_cb w /\ reply_cb w' = reply_cb w
  /\ send_lock w' = send_lock w
  /\ (model w = true -> model w' = true)
  /\ (chat w = true -> chat w' = true)
  /\ exists evs,
       trace w' = (trace w ++ evs)%list
       /\ forallb P evs = true
       /\ calls w' = calls w + List.length (filter is_request evs).

Definition growsM {A} (P : event -> bool) (c : M A) : Prop :=
  forall w, grows P w (snd (c w)).

Definition growsD {A} (P : event -> bool) (c : D A) : Prop :=
  forall w o w', c w = Some (o, w') -> grows P w w'.

(** ** Reading a response *)

(** The world after the events [evs]. *)
Definition emit_all (evs : list event) (w : world) : world :=
  fold_left (fun w e => emit e w) evs w.

(** The texts of the parts to reply with: those that are set and not
    empty. *)
Definition part_texts (ps : list part) : list string :=
  flat_map (fun p => match text p with
                     | Some t => if Str.truthy t then [t] else []
                     | None => []
                     end) ps.

Definition candidate_texts (c : candidate) : list string :=
  match cand_content c with
  | Some ct => match parts ct with Some ps => part_texts ps | None => [] end
  | None => []
  end.

(** A candidate whose content, when it has one, has readable parts, none of
    which carries a directive. *)
Definition plain_candidate (c : candidate) : bool :=
  match cand_content c with
  | Some ct =>
      match parts ct with
      | Some ps => negb (existsb part_has_call ps)
      | None => false
      end
  | None => true
  end.

(** A candidate whose content has no readable parts. *)
Definition malformed_candidate (c : candidate) : bool :=
  match cand_content c with
  | Some ct => match parts ct with Some _ => false | None => true end
  | None => false
  end.

(** ** Lines and errors the properties name *)

(** The line [check_connection] prints when there is no key. *)
Definition key_not_set_line : string :=
  "chat: Gemini API key not set. Use 'chat set_gemini_key YOUR_API_KEY'".

(** What sending on [self.chat] raises while it is [None]. *)
Definition no_chat_error : exn :=
  "'NoneType' object has no attribute 'send_message'".

(** ** Parameters and vehicle classes *)

(** The class of a MAV_TYPE, as a chain of exclusive tests (the first that
    holds decides), in an order that is not the one of the function. *)
Definition vehicle_class (ty : Z) : string :=
  if type_in ty [mavlink.MAV_TYPE_QUADROTOR; mavlink.MAV_TYPE_COAXIAL;
                 mavlink.MAV_TYPE_HEXAROTOR; mavlink.MAV_TYPE_OCTOROTOR;
                 mavlink.MAV_TYPE_TRICOPTER; mavlink.MAV_TYPE_DODECAROTOR]
  then "Copter"
  else if type_in ty [mavlink.MAV_TYPE_FIXED_WING;
                      mavlink.MAV_TYPE_VTOL_DUOROTOR;
                      mavlink.MAV_TYPE_VTOL_QUADROTOR;
                      mavlink.MAV_TYPE_VTOL_TILTROTOR]
  then "Plane"
  else if Z.eqb ty mavlink.MAV_TYPE_HELICOPTER then "Heli"
  else if Z.eqb ty mavlink.MAV_TYPE_GROUND_ROVER then "Rover"
  else if Z.eqb ty mavlink.MAV_TYPE_SURFACE_BOAT then "Boat"
  else if Z.eqb ty mavlink.MAV_TYPE_SUBMARINE then "Sub"
  else if Z.eqb ty mavlink.MAV_TYPE_ANTENNA_TRACKER then "Tracker"
  else if Z.eqb ty mavlink.MAV_TYPE_AIRSHIP then "Blimp"
  else "unknown".

(** The names among [names] that [get_mav_param] does not resolve. *)
Definition unresolved (names : list string) : list string :=
  filter (fun k => match get_mav_param mpstate k with
                   | None => true
                   | Some _ => false
                   end) names.

(** The line [get_parameter] prints for a name that does not resolve. *)
Definition unable_line (k : string) : event :=
  EPrint ("chat: get_parameter unable to get " ++ k).

(** A letter, a digit or the underscore. *)
Definition name_char (c : ascii) : bool :=
  let n := nat_of_ascii c in
  (((48 <=? n) && (n <=? 57)) || ((65 <=? n) && (n <=? 90))
   || ((97 <=? n) && (n <=? 122)) || (n =? 95))%nat.

(** Every character of [s] satisfies [p]. *)
Fixpoint all_chars (p : ascii -> bool) (s : string) : bool :=
  match s with
  | EmptyString => true
  | String c s' => p c && all_chars p s'
  end.

(** ** Events of an exchange *)

(** An event that does not touch the lock. *)
Definition unlocked (e : event) : bool := negb (is_lock e).

(** ** Calls and schemas *)

(** A response whose one part carries the directive [fc]. *)
Definition response_of_call (fc : function_call) : response :=
  {| candidates :=
       [ {| cand_content :=
              Some {| parts :=
                        Some [ {| text := None; part_call := Some fc |} ] |} |} ] |}.

(** A field of the schema a tool is registered with. *)
Definition schema_field (info : tool_info) (key : string) : json :=
  match parameters info with
  | JDict d => dict_get d key
  | _ => JNull
  end.

(** The arguments the schema requires, and the ones it declares. *)
Definition required_keys (info : tool_info) : list string :=
  match schema_field info "required" with
  | JList l => flat_map (fun j => match j with JStr s => [s] | _ => [] end) l
  | _ => []
  end.

Definition declared_keys (info : tool_info) : list string :=
  match schema_field info "properties" with
  | JDict p => map fst p
  | _ => []
  end.

(** ** Properties of [strip] *)

Lemma last_char_none (s : string) : last_char s = None -> s = EmptyString.
Proof.
  destruct s as [|c s]; [reflexivity|]. simpl.
  destruct (last_char s); discriminate.
Qed.

Lemma rstrip_empty (s : string) : rstrip s = EmptyString <-> blank s = true.
Proof.
  induction s as [|c s IH]; simpl; [tauto|].
  destruct (rstrip s) as [|d r] eqn:E.
  - destruct (is_space c); simpl.
    + split; [intros _; now apply IH | reflexivity].
    + split; discriminate.
  - split; [discriminate|]. rewrite andb_true_iff. intros [_ H].
    apply IH in H. discriminate.
Qed.

Lemma rstrip_last (s : string) (c : ascii) :
  last_char (rstrip s) = Some c -> is_space c = false.
Proof.
  revert c. induction s as [|x s IH]; simpl; intros c; [discriminate|].
  destruct (rstrip s) as [|d r] eqn:E.
  - destruct (is_space x) eqn:Ex; simpl; [discriminate|].
    intros H. inversion H. now subst.
  - change (last_char (String x (String d r)))
      with (match last_char (String d r) with
            | None => Some x
            | Some y => Some y
            end).
    destruct (last_char (String d r)) as [y|] eqn:El.
    + intros H. inversion H; subst. now apply IH.
    + apply last_char_none in El. discriminate.
Qed.

Lemma rstrip_fixed (s : string) :
  (forall c, last_char s = Some c -> is_space c = false) -> rstrip s = s.
Proof.
  induction s as [|x s IH]; simpl; intros H; [reflexivity|].
  destruct (last_char s) as [d|] eqn:El.
  - rewrite IH by exact H. destruct s; [discriminate | reflexivity].
  - apply last_char_none in El. subst s. simpl.
    now rewrite (H x eq_refl).
Qed.

Lemma lstrip_first (s : string) (c : ascii) :
  first_char (lstrip s) = Some c -> is_space c = false.
Proof.
  induction s as [|x s IH]; simpl; [discriminate|].
  destruct (is_space x) eqn:Ex; [exact IH|].
  simpl. intros H. inversion H. now subst.
Qed.

Lemma lstrip_last (s : string) :
  (forall c, last_char s = Some c -> is_space c = false) ->
  last_char (lstrip s) = last_char s.
Proof.
  induction s as [|x s IH]; simpl; intros H; [reflexivity|].
  destruct (is_space x) eqn:Ex; [|reflexivity].
  destruct (last_char s) as [d|] eqn:El.
  - apply IH. exact H.
  - rewrite (H x eq_refl) in Ex. discriminate.
Qed.

Lemma lstrip_fixed (s : string) :
  (forall c, first_char s = Some c -> is_space c = false) -> lstrip s = s.
Proof.
  destruct s as [|x s]; simpl; intros H; [reflexivity|].
  now rewrite (H x eq_refl).
Qed.

Lemma lstrip_blank (s : string) : blank s = true -> lstrip s = EmptyString.
Proof.
  induction s as [|x s IH]; simpl; [reflexivity|].
  rewrite andb_true_iff. intros [-> H]. now apply IH.
Qed.

Lemma lstrip_empty (s : string) : lstrip s = EmptyString -> blank s = true.
Proof.
  induction s as [|x s IH]; simpl; [reflexivity|].
  destruct (is_space x); [simpl; exact IH | discriminate].
Qed.

Lemma strip_trimmed (s : string) : trimmed (strip s).
Proof.
  unfold strip. split.
  - apply lstrip_first.
  - intros c. rewrite lstrip_last by apply rstrip_last. apply rstrip_last.
Qed.

Lemma strip_fixed (s : string) : trimmed s -> strip s = s.
Proof.
  intros [Hf Hl]. unfold strip. rewrite rstrip_fixed by exact Hl.
  now apply lstrip_fixed.
Qed.

Lemma blank_last (s : string) (c : ascii) :
  blank s = true -> last_char s = Some c -> is_space c = true.
Proof.
  revert c. induction s as [|x s IH]; simpl; intros c; [discriminate|].
  rewrite andb_true_iff. intros [Hx Hs].
  destruct (last_char s) as [d|] eqn:El; intros H; inversion H; subst.
  - now apply IH.
  - exact Hx.
Qed.

Lemma strip_empty (s : string) : strip s = EmptyString <-> blank s = true.
Proof.
  unfold strip. split.
  - intros H. apply rstrip_empty.
    destruct (rstrip s) as [|d r] eqn:E; [reflexivity|].
    apply lstrip_empty in H.
    destruct (last_char (String d r)) as [c|] eqn:El.
    + pose proof (blank_last _ _ H El) as Hc.
      rewrite <- E in El. apply rstrip_last in El. congruence.
    + apply last_char_none in El. discriminate.
  - intros H. apply rstrip_empty in H. now rewrite H.
Qed.

(** *** Text mode *)

Lemma blank_app (a b : string) : blank (a ++ b) = blank a && blank b.
Proof.
  induction a as [|c a IH]; cbn [append blank]; [reflexivity|].
  now rewrite IH, andb_assoc.
Qed.

Lemma write_text_single (p : platform) (s : string) :
  no_line_break s = true -> write_text p s = s.
Proof.
  induction s as [|c s IH]; simpl; [reflexivity|].
  rewrite andb_true_iff, negb_true_iff, orb_false_iff.
  intros [[_ Hlf] Hs]. rewrite Hlf. now rewrite IH.
Qed.

Lemma read_text_single (s : string) :
  no_line_break s = true -> read_text s = s.
Proof.
  induction s as [|c s IH]; simpl; [reflexivity|].
  rewrite andb_true_iff, negb_true_iff, orb_false_iff.
  intros [[Hcr _] Hs]. rewrite Hcr. now rewrite IH.
Qed.

Lemma blank_write_text (p : platform) (s : string) :
  blank s = true -> blank (write_text p s) = true.
Proof.
  induction s as [|c s IH]; [reflexivity|].
  cbn [blank write_text]. rewrite andb_true_iff. intros [Hc Hs].
  destruct (Ascii.eqb c LF).
  - rewrite blank_app, IH by exact Hs. now destruct p.
  - cbn [blank]. now rewrite Hc, IH.
Qed.

Lemma blank_read_text_bounded (n : nat) :
  forall s, String.length s <= n ->
            blank s = true -> blank (read_text s) = true.
Proof.
  induction n as [|n IH]; intros s Hlen Hb; destruct s as [|c s];
    try reflexivity; [simpl in Hlen; lia|].
  cbn [read_text]. cbn [blank] in Hb. apply andb_true_iff in Hb as [Hc Hs].
  destruct (Ascii.eqb c CR).
  - cbn [blank]. change (is_space LF) with true. cbn [andb].
    destruct s as [|d s']; [reflexivity|].
    cbn [blank] in Hs. apply andb_true_iff in Hs as [Hd Hs'].
    destruct (Ascii.eqb d LF).
    + apply IH; [simpl in Hlen; lia | exact Hs'].
    + apply IH; [simpl in Hlen |- *; lia|]. cbn [blank]. now rewrite Hd, Hs'.
  - cbn [blank]. rewrite Hc. cbn [andb].
    apply IH; [simpl in Hlen; lia | exact Hs].
Qed.

Lemma blank_read_text (s : string) :
  blank s = true -> blank (read_text s) = true.
Proof. apply (blank_read_text_bounded (String.length s)). lia. Qed.

(** ** Starting and saving the key *)

(** Without a usable key [send_to_assistant] only reports. *)
Lemma send_refused (fuel : nat) (text : string) (w : world) :
  key_truthy (api_key w) = false ->
  send_lock w = false ->
  reply_cb w = true ->
  send_to_assistant fuel text w
  = Some (Ret tt,
          emit ERelease
            (set_send_lock false
               (emit (EReply "chat: failed to connect to Gemini API")
                  (emit (EPrint key_not_set_line)
                     (emit EAcquire (set_send_lock true w)))))).
Proof.
  intros Hkey Hlock Hreply.
  unfold send_to_assistant, with_send_lock. rewrite Hlock.
  unfold send_exchange, bindD, lift, check_connection, bind, get_world.
  simpl. rewrite Hkey. simpl. unfold send_reply. simpl. rewrite Hreply.
  reflexivity.
Qed.

(** The key [__init__] leaves is the stripped text of the file. *)
Lemma init_api_key (status reply : bool) (config_file : option (outcome string)) :
  api_key (init status reply config_file)
  = match config_file with
    | Some (Ret text) => Some (strip text)
    | _ => None
    end.
Proof.
  destruct config_file as [[text|e]|]; try reflexivity.
  unfold init, load_api_key, initialize_model_without_tools, try_catch, bind,
    of_outcome, modify, print, ret, raise. simpl.
  destruct genai_configure as [[]|e]; reflexivity.
Qed.

Lemma init_idle (status reply : bool) (config_file : option (outcome string)) :
  send_lock (init status reply config_file) = false
  /\ calls (init status reply config_file) = 0
  /\ reply_cb (init status reply config_file) = reply.
Proof.
  destruct config_file as [[text|e]|]; try (repeat split; reflexivity).
  unfold init, load_api_key, initialize_model_without_tools, try_catch, bind,
    of_outcome, modify, print, ret, raise. simpl.
  destruct genai_configure as [[]|e]; repeat split; reflexivity.
Qed.

(** A key that is written is on the disk and in the session as given. *)
Lemma save_written (key : string) (h : host) :
  key_file (snd (save_api_key Written key h)) = Some key
  /\ api_key (session (snd (save_api_key Written key h))) = Some key.
Proof.
  unfold save_api_key, initialize_model, try_catch, bind, of_outcome, modify,
    print, ret. simpl.
  destruct genai_model as [[]|e1]; simpl;
    [destruct genai_start_chat as [[]|e2]; simpl|]; split; reflexivity.
Qed.

(** X1. [__init__] never leaves a model: the attempt [load_api_key] makes
    fails, because [self.tools] is not set yet, and the model and the chat
    are reset afterwards. The key is the stripped text of the file. Nothing
    is asked of the backend. *)
Theorem init_leaves_no_model
    (status reply : bool) (config_file : option (outcome string)) :
  let w := init status reply config_file in
  model w = false /\ chat w = false /\ send_lock w = false /\ calls w = 0
  /\ status_cb w = status /\ reply_cb w = reply
  /\ api_key w = match config_file with
                 | Some (Ret text) => Some (strip text)
                 | _ => None
                 end
  /\ trace w
     = match config_file with
       | None => []
       | Some (Raise e) => [EPrint ("chat: Failed to load API key: " ++ e)]
       | Some (Ret _) =>
           [EPrint "chat: Loaded Gemini API key from config file";
            EPrint ("chat: Failed to initialize Gemini model: "
                    ++ match genai_configure with
                       | Raise e => e
                       | Ret _ => "'ChatGemini' object has no attribute 'tools'"
                       end)]
       end.
Proof.
  destruct config_file as [[text|e]|]; simpl;
    try (repeat split; reflexivity).
  unfold init, load_api_key, initialize_model_without_tools, try_catch, bind,
    of_outcome, modify, print, ret, raise. simpl.
  destruct genai_configure as [[]|e]; simpl; repeat split; reflexivity.
Qed.

(** X2. A session started without a key file, with one that cannot be read, or
    with one that holds only whitespace refuses the first message: the
    failure goes to the reply sink and the backend is not asked. *)
Theorem start_without_usable_key
    (status : bool) (config_file : option (outcome string))
    (fuel : nat) (text : string) :
  match config_file with
  | Some (Ret content) => blank content = true
  | _ => True
  end ->
  exists w',
    send_to_assistant fuel text (init status true config_file)
    = Some (Ret tt, w')
    /\ trace w'
       = (trace (init status true config_file)
          ++ [EAcquire; EPrint key_not_set_line;
              EReply "chat: failed to connect to Gemini API"; ERelease])%list
    /\ calls w' = 0.
Proof.
  intros Hfile.
  destruct (init_idle status true config_file) as (Hlock & Hcalls & Hreply).
  pose proof (init_api_key status true config_file) as Hkey.
  assert (Hfalsy : key_truthy (api_key (init status true config_file)) = false).
  { rewrite Hkey. destruct config_file as [[content|e]|]; try reflexivity.
    apply strip_empty in Hfile. simpl. now rewrite Hfile. }
  rewrite (send_refused fuel text _ Hfalsy Hlock Hreply).
  eexists. split; [reflexivity|]. split.
  - simpl. repeat (rewrite <- app_assoc; simpl). reflexivity.
  - exact Hcalls.
Qed.

(** X3. What [save_api_key] gives. When the file cannot be written the session
    is as it was, but for a line on the console, and the result is False.
    When it is written the key is the text given, as given; the result is
    True exactly when the SDK gives a model and a chat, which the session
    then has. When the model is made but the chat is not, the session keeps
    the new model beside the chat it had. *)
Theorem save_api_key_result (write : write_result) (key : string) (h : host) :
  let (o, h') := save_api_key write key h in
  match write with
  | Write_fails e remains =>
      o = Ret false
      /\ session h' = emit (EPrint ("chat: Failed to save API key: " ++ e))
                        (session h)
      /\ key_file h' = remains
  | Written =>
      key_file h' = Some key
      /\ api_key (session h') = Some key
      /\ calls (session h') = calls (session h)
      /\ match genai_model, genai_start_chat with
         | Ret _, Ret _ =>
             o = Ret true
             /\ model (session h') = true /\ chat (session h') = true
         | Ret _, Raise _ =>
             o = Ret false
             /\ model (session h') = true
             /\ chat (session h') = chat (session h)
         | Raise _, _ =>
             o = Ret false
             /\ model (session h') = model (session h)
             /\ chat (session h') = chat (session h)
         end
  end.
Proof.
  destruct write as [|e remains]; simpl.
  - unfold initialize_model, try_catch, bind, of_outcome, modify,
      print, ret. simpl.
    destruct genai_model as [[]|e1]; simpl;
      [destruct genai_start_chat as [[]|e2]; simpl|];
      repeat split; reflexivity.
  - repeat split; reflexivity.
Qed.

(** X4. Saving and starting again. The file is written and read in text
    mode: a later start reads back the text that writing and reading make of
    the key, stripped. It is the key that was saved when that has no line
    break inside and neither starts nor ends with whitespace; a key of
    whitespace only comes back as no key. *)
Theorem save_then_restart
    (p : platform) (key : string) (h : host) (status reply : bool) :
  let h' := snd (save_api_key Written key h) in
  api_key (restart p status reply h')
  = Some (strip (read_text (write_text p key)))
  /\ (no_line_break key = true -> trimmed key ->
      api_key (restart p status reply h') = api_key (session h'))
  /\ (blank key = true ->
      key_truthy (api_key (restart p status reply h')) = false).
Proof.
  destruct (save_written key h) as [Hfile Hkey].
  cbv zeta.
  assert (Hread : api_key (restart p status reply
                             (snd (save_api_key Written key h)))
                  = Some (strip (read_text (write_text p key)))).
  { unfold restart. rewrite Hfile.
    exact (init_api_key status reply
             (Some (Ret (read_text (write_text p key))))). }
  split; [exact Hread|]. split.
  - intros Hline Htrim. rewrite Hread, Hkey.
    rewrite write_text_single, read_text_single by exact Hline.
    now rewrite strip_fixed.
  - intros Hblank. rewrite Hread.
    assert (Hb : blank (read_text (write_text p key)) = true)
      by now apply blank_read_text, blank_write_text.
    apply strip_empty in Hb. simpl. now rewrite Hb.
Qed.

(** ** The probe, and a session without a chat *)

(** X5. On a session with a key and a model, a probe that fails ends the
    exchange: the message is never sent. *)
Theorem failed_probe_sends_nothing
    (fuel : nat) (text : string) (w : world) (e : exn) :
  key_truthy (api_key w) = true ->
  model w = true ->
  send_lock w = false ->
  reply_cb w = true ->
  backend (calls w) = Raise e ->
  exists w',
    send_to_assistant fuel text w = Some (Ret tt, w')
    /\ trace w'
       = (trace w
          ++ [EAcquire; EGenerate "Test connection";
              EPrint ("chat: failed to connect to Gemini API: " ++ e);
              EReply "chat: failed to connect to Gemini API";
              ERelease])%list
    /\ calls w' = calls w + 1
    /\ send_lock w' = false.
Proof.
  intros Hkey Hmodel Hlock Hreply Hprobe.
  unfold send_to_assistant, with_send_lock. rewrite Hlock.
  unfold send_exchange, bindD, lift, check_connection, bind, get_world.
  simpl. rewrite Hkey, Hmodel. simpl.
  unfold try_catch, bind, generate_content, backend_request. simpl.
  rewrite Hprobe. simpl. unfold send_reply. simpl. rewrite Hreply.
  eexists. split; [reflexivity|]. simpl. repeat split.
  - repeat (rewrite <- app_assoc; simpl). reflexivity.
  - lia.
Qed.

(** A send on a session that has a model and no chat. *)
Lemma send_without_chat (fuel : nat) (text : string) (w : world)
    (r : option response) :
  key_truthy (api_key w) = true ->
  model w = true ->
  chat w = false ->
  send_lock w = false ->
  status_cb w = true ->
  backend (calls w) = Ret r ->
  send_to_assistant fuel text w
  = Some (Ret tt,
          emit ERelease
            (set_send_lock false
               (emit (EStatus ("Error: " ++ no_chat_error))
                  (emit (EPrint ("chat: Error: " ++ no_chat_error))
                     (emit (EStatus "Generating response...")
                        (count_call
                           (emit (EGenerate "Test connection")
                              (emit EAcquire (set_send_lock true w))))))))).
Proof.
  intros Hkey Hmodel Hchat Hlock Hstatus Hprobe.
  unfold send_to_assistant, with_send_lock. rewrite Hlock.
  unfold send_exchange, bindD, lift, check_connection, bind, get_world.
  simpl. rewrite Hkey, Hmodel. simpl.
  unfold try_catch, bind, generate_content, backend_request, ret. simpl.
  rewrite Hprobe. simpl.
  unfold try_catchD, bindD, lift, send_status. simpl. rewrite Hstatus.
  unfold modify, chat_send_message. simpl. rewrite Hchat.
  unfold raise, print, modify. simpl. rewrite Hstatus. reflexivity.
Qed.

(** The send in which [start_chat] fails. *)
Lemma send_start_chat_fails (fuel : nat) (text : string) (w : world) (e : exn) :
  key_truthy (api_key w) = true ->
  model w = false ->
  send_lock w = false ->
  reply_cb w = true ->
  genai_model = Ret tt ->
  genai_start_chat = Raise e ->
  send_to_assistant fuel text w
  = Some (Ret tt,
          emit ERelease
            (set_send_lock false
               (emit (EReply "chat: failed to connect to Gemini API")
                  (emit (EPrint ("chat: Failed to initialize Gemini model: " ++ e))
                     (set_model true
                        (emit EAcquire (set_send_lock true w))))))).
Proof.
  intros Hkey Hmodel Hlock Hreply Hgm Hsc.
  unfold send_to_assistant, with_send_lock. rewrite Hlock.
  unfold send_exchange, bindD, lift, check_connection, bind, get_world.
  simpl. rewrite Hkey, Hmodel. simpl.
  unfold initialize_model, try_catch, bind, of_outcome, modify, print, ret.
  rewrite Hgm, Hsc. simpl. unfold send_reply. simpl. rewrite Hreply.
  reflexivity.
Qed.

(** X6. When [start_chat] fails, [initialize_model] has already set the model.
    The send in which that happens reports a failure to connect; from then
    on the session has a model and no chat, which no later send repairs:
    the connection check finds the model, the probe passes, and sending
    fails on the missing chat, reported on the status sink. *)
Theorem session_without_chat
    (fuel : nat) (text : string) (w : world) (e : exn) :
  key_truthy (api_key w) = true ->
  model w = false ->
  chat w = false ->
  send_lock w = false ->
  status_cb w = true ->
  reply_cb w = true ->
  genai_model = Ret tt ->
  genai_start_chat = Raise e ->
  exists w1,
    send_to_assistant fuel text w = Some (Ret tt, w1)
    /\ trace w1
       = (trace w
          ++ [EAcquire;
              EPrint ("chat: Failed to initialize Gemini model: " ++ e);
              EReply "chat: failed to connect to Gemini API";
              ERelease])%list
    /\ calls w1 = calls w
    /\ model w1 = true /\ chat w1 = false
    /\ forall fuel2 text2 r,
         backend (calls w) = Ret r ->
         exists w2,
           send_to_assistant fuel2 text2 w1 = Some (Ret tt, w2)
           /\ trace w2
              = (trace w1
                 ++ [EAcquire; EGenerate "Test connection";
                     EStatus "Generating response...";
                     EPrint "chat: Error: 'NoneType' object has no attribute 'send_message'";
                     EStatus "Error: 'NoneType' object has no attribute 'send_message'";
                     ERelease])%list
           /\ model w2 = true /\ chat w2 = false.
Proof.
  intros Hkey Hmodel Hchat Hlock Hstatus Hreply Hgm Hsc.
  eexists. split.
  { apply send_start_chat_fails; eassumption. }
  simpl. repeat split.
  - repeat (rewrite <- app_assoc; simpl). reflexivity.
  - exact Hchat.
  - intros fuel2 text2 r Hprobe.
    eexists. split.
    { apply (send_without_chat fuel2 text2 _ r); simpl; assumption || reflexivity. }
    simpl. repeat split.
    + repeat (rewrite <- app_assoc; simpl). reflexivity.
    + exact Hchat.
Qed.

(** ** What the tool functions leave untouched *)

Lemma adds_refl (P : event -> bool) (w : world) : adds P w w.
Proof.
  split; [repeat split|]. exists []. now rewrite app_nil_r.
Qed.

Lemma adds_trans (P : event -> bool) (w1 w2 w3 : world) :
  adds P w1 w2 -> adds P w2 w3 -> adds P w1 w3.
Proof.
  intros [(A1 & B1 & C1 & D1 & E1 & F1 & G1) (e1 & T1 & P1)]
         [(A2 & B2 & C2 & D2 & E2 & F2 & G2) (e2 & T2 & P2)].
  split; [repeat split; congruence|].
  exists (e1 ++ e2)%list. split.
  - now rewrite T2, T1, app_assoc.
  - rewrite forallb_app. now rewrite P1, P2.
Qed.

Lemma adds_weaken (P Q : event -> bool) (w w' : world) :
  (forall e, P e = true -> Q e = true) -> adds P w w' -> adds Q w w'.
Proof.
  intros HPQ [Hs (evs & Ht & HP)]. split; [exact Hs|].
  exists evs. split; [exact Ht|].
  rewrite forallb_forall in *. auto.
Qed.

Lemma adds_emit (P : event -> bool) (e : event) (w : world) :
  P e = true -> adds P w (emit e w).
Proof.
  intros HP. split; [repeat split|]. exists [e]. simpl. now rewrite HP.
Qed.

Lemma onlyM_ret {A} (P : event -> bool) (a : A) : onlyM P (ret a).
Proof. intros w. apply adds_refl. Qed.

Lemma onlyM_raise {A} (P : event -> bool) (e : exn) : onlyM P (@raise num A e).
Proof. intros w. apply adds_refl. Qed.

Lemma onlyM_of_outcome {A} (P : event -> bool) (o : outcome A) :
  onlyM P (of_outcome o).
Proof. intros w. apply adds_refl. Qed.

Lemma onlyM_emit (P : event -> bool) (e : event) :
  P e = true -> onlyM P (modify (emit e)).
Proof. intros HP w. now apply adds_emit. Qed.

Lemma onlyM_print (P : event -> bool) (line : string) :
  P (EPrint line) = true -> onlyM P (print line).
Proof. apply onlyM_emit. Qed.

Lemma onlyM_bind {A B} (P : event -> bool) (c : M A) (k : A -> M B) :
  onlyM P c -> (forall a, onlyM P (k a)) -> onlyM P (bind c k).
Proof.
  intros Hc Hk w. unfold bind. specialize (Hc w).
  destruct (c w) as [[a|e] w1]; simpl in *; [|assumption].
  eapply adds_trans; [eassumption | apply Hk].
Qed.

Lemma onlyM_try_catch {A} (P : event -> bool) (c : M A) (h : exn -> M A) :
  onlyM P c -> (forall e, onlyM P (h e)) -> onlyM P (try_catch c h).
Proof.
  intros Hc Hh w. unfold try_catch. specialize (Hc w).
  destruct (c w) as [[a|e] w1]; simpl in *; [assumption|].
  eapply adds_trans; [eassumption | apply Hh].
Qed.

Lemma onlyM_weaken {A} (P Q : event -> bool) (c : M A) :
  (forall e, P e = true -> Q e = true) -> onlyM P c -> onlyM Q c.
Proof. intros HPQ Hc w. eapply adds_weaken; [exact HPQ | apply Hc]. Qed.

Lemma onlyM_arguments_get (P : event -> bool) (arguments : json) (key : string) :
  onlyM P (arguments_get arguments key).
Proof.
  destruct arguments; simpl; (apply onlyM_ret || apply onlyM_raise).
Qed.

(** The steps that show a command adds events of one kind only. *)
Ltac only_adds :=
  repeat first
    [ progress intros
    | apply onlyM_bind
    | apply onlyM_try_catch
    | apply onlyM_ret
    | apply onlyM_raise
    | apply onlyM_of_outcome
    | apply onlyM_arguments_get
    | apply onlyM_print; reflexivity
    | apply onlyM_emit; reflexivity
    | match goal with
      | |- onlyM _ (match ?x with _ => _ end) => destruct x
      | |- onlyM _ (if ?b then _ else _) => destruct b
      end ].

Lemma onlyM_get_parameter_loop (pattern : re_pattern) (names : list string) :
  forall acc, onlyM is_console (get_parameter_loop pattern names acc).
Proof.
  induction names as [|k names IH]; intros acc; simpl; only_adds; apply IH.
Qed.

Lemma onlyM_get_parameter (arguments : json) :
  onlyM is_console (get_parameter arguments).
Proof.
  unfold get_parameter. only_adds. apply onlyM_get_parameter_loop.
Qed.

Lemma onlyM_get_vehicle_state (arguments : json) :
  onlyM is_console (get_vehicle_state arguments).
Proof. unfold get_vehicle_state. only_adds. Qed.

Lemma onlyM_get_vehicle_type (arguments : json) :
  onlyM is_console (get_vehicle_type arguments).
Proof. unfold get_vehicle_type. only_adds. Qed.

Lemma onlyM_get_current_datetime (arguments : json) :
  onlyM is_console (get_current_datetime arguments).
Proof. unfold get_current_datetime. only_adds. Qed.

Lemma onlyM_set_parameter (arguments : json) :
  onlyM is_param_set (set_parameter arguments).
Proof. unfold set_parameter. only_adds. Qed.

Lemma adds_caught (P Q : event -> bool) (func_name : string)
    (r : outcome json * world) (w : world) :
  (forall e, P e = true -> Q e = true) ->
  (forall line, Q (EPrint line) = true) ->
  adds P w (snd r) ->
  adds Q w (snd (caught func_name r)).
Proof.
  intros HPQ Hprint Hr. destruct r as [[v|e] w1]; simpl in *.
  - now apply (adds_weaken P).
  - eapply adds_trans; [apply (adds_weaken P); eassumption|].
    apply adds_emit, Hprint.
Qed.

(** What a call adds to the trace. *)
Lemma call_function_adds (func_name : string) (arguments : json) (w : world) :
  let w' := snd (call_function func_name arguments w) in
  adds (fun e => is_console e || is_param_set e) w w'
  /\ (func_name <> "set_parameter" -> adds is_console w w').
Proof.
  cbv zeta.
  destruct (name_in func_name supported_funcs) eqn:E.
  - apply name_in_spec in E.
    destruct (call_function_supported num re_pattern re_compile re_match
                datetime_now mpstate func_name E)
      as (handler & Hreg & Heq).
    rewrite Heq.
    assert (Hcases :
              (func_name <> "set_parameter"
               /\ onlyM is_console (handler arguments))
              \/ (func_name = "set_parameter"
                  /\ onlyM is_param_set (handler arguments))).
    { simpl in E. destruct E as [<-|[<-|[<-|[<-|[<-|[]]]]]];
        simpl in Hreg; inversion Hreg; subst handler;
        [left|left|left|left|right]; (split; [try discriminate; reflexivity|]).
      - apply onlyM_get_current_datetime.
      - apply onlyM_get_vehicle_type.
      - apply onlyM_get_vehicle_state.
      - apply onlyM_get_parameter.
      - apply onlyM_set_parameter. }
    destruct Hcases as [[Hne Hh]|[-> Hh]].
    + split; [|intros _].
      * apply (adds_caught is_console); [intros e ->; reflexivity|reflexivity|].
        apply Hh.
      * apply (adds_caught is_console); [auto|reflexivity|]. apply Hh.
    + split; [|intros H; now elim H].
      apply (adds_caught is_param_set);
        [intros e ->; apply orb_true_r | reflexivity | apply Hh].
  - assert (Hnot : ~ In func_name supported_funcs).
    { intros H. apply name_in_spec in H. congruence. }
    rewrite (call_function_unrecognized num re_pattern re_compile re_match
               datetime_now mpstate func_name arguments w Hnot).
    simpl. split; [|intros _]; now apply adds_emit.
Qed.

(** X7. Whatever the name and the arguments, a call ends in an output; it
    leaves the session as it is (key, model, chat, callbacks, lock, count of
    requests) and adds to the trace only lines of the console and calls of
    [param_set]. Calls of [param_set] come from set_parameter alone: every
    other name adds lines of the console only. *)
Theorem call_function_leaves_session
    (func_name : string) (arguments : json) (w : world) :
  exists output w',
    call_function func_name arguments w = (Ret output, w')
    /\ adds (fun e => is_console e || is_param_set e) w w'
    /\ (func_name <> "set_parameter" -> adds is_console w w').
Proof.
  destruct (call_function_never_raises num re_pattern re_compile re_match
              datetime_now mpstate func_name arguments w)
    as (output & w' & Hcall).
  exists output, w'. split; [exact Hcall|].
  pose proof (call_function_adds func_name arguments w) as H.
  rewrite Hcall in H. exact H.
Qed.

(** ** The tool functions *)

(** X8. Each of the five names of [supported_funcs] is in the registry, and a
    call of it runs the handler the registry holds for the name, once, on the
    arguments given; a fault of the handler becomes the error string, which
    is also printed. *)
Theorem supported_call_runs_registered_handler (func_name : string) :
  In func_name supported_funcs ->
  In func_name registered_names
  /\ exists handler,
       registered_handler define_tools func_name = Some handler
       /\ forall arguments w,
            call_function func_name arguments w
            = match handler arguments w with
              | (Ret output, w') => (Ret output, w')
              | (Raise e, w') =>
                  (Ret (JStr (func_name ++ ": function call failed - " ++ e)),
                   emit (EPrint ("chat: " ++ func_name
                                 ++ ": function call failed - " ++ e)) w')
              end.
Proof.
  intros Hin. split; [now apply supported_registered|].
  destruct (call_function_supported num re_pattern re_compile re_match
              datetime_now mpstate func_name Hin)
    as (handler & Hreg & Heq).
  exists handler. split; [exact Hreg|]. intros arguments w.
  rewrite Heq. unfold caught. reflexivity.
Qed.

(** X9. set_parameter through the dispatch. Without a name or without a value
    nothing is sent to the vehicle. With both, [param_set] is called once
    with them, whatever they are (a value of 0, an empty name); when it
    raises, the call ends in the error string. *)
Theorem set_parameter_call (d : list (string * json)) (w : world) :
  let name := dict_get d "name" in
  let value := dict_get d "value" in
  (name = JNull ->
   call_function "set_parameter" (JDict d) w
   = (Ret (JStr "set_parameter: parameter name not specified"), w))
  /\ (name <> JNull -> value = JNull ->
      call_function "set_parameter" (JDict d) w
      = (Ret (JStr "set_parameter: value not specified"), w))
  /\ (name <> JNull -> value <> JNull ->
      call_function "set_parameter" (JDict d) w
      = match param_set mpstate name value with
        | Ret _ =>
            (Ret (JStr "set_parameter: parameter value set"),
             emit (EParamSet name value) w)
        | Raise e =>
            (Ret (JStr ("set_parameter: function call failed - " ++ e)),
             emit (EPrint ("chat: set_parameter: function call failed - " ++ e))
               (emit (EParamSet name value) w))
        end).
Proof.
  cbv zeta.
  assert (Hcall : forall w,
             call_function "set_parameter" (JDict d) w
             = caught "set_parameter" (set_parameter (JDict d) w))
    by reflexivity.
  rewrite !Hcall.
  unfold set_parameter, arguments_get, bind, ret, modify, of_outcome.
  split; [|split].
  - intros ->. reflexivity.
  - intros Hname ->. destruct (dict_get d "name"); try reflexivity.
    now elim Hname.
  - intros Hname Hvalue.
    destruct (dict_get d "name") eqn:En; try (now elim Hname);
      destruct (dict_get d "value") eqn:Ev; try (now elim Hvalue);
      simpl; destruct (param_set mpstate _ _) as [[]|e]; reflexivity.
Qed.

Lemma upper_app (a b : string) :
  Str.upper (a ++ b) = Str.upper a ++ Str.upper b.
Proof.
  induction a as [|c a IH]; simpl; [reflexivity|].
  now rewrite IH, string_append_assoc.
Qed.

Lemma upper_upper_char (c : ascii) :
  Str.upper (Str.upper_char c) = Str.upper_char c.
Proof. destruct c as [[] [] [] [] [] [] [] []]; reflexivity. Qed.

(** X10. [set_vehicle_mode] sends the command once, with the mode in upper
    case whatever its case was (on a mode whose upper case stays below 256,
    where [Str.upper] is the upper case of Python), and answers by a text
    whether the command raises or not. Without a mode it sends nothing. *)
Theorem set_vehicle_mode_sends_upper_case (d : list (string * json)) (w : world) :
  (dict_get d "mode" = JNull ->
   set_vehicle_mode (JDict d) w
   = (Ret (JStr "set_vehicle_mode: mode not specified"), w))
  /\ (forall mode,
        Str.upper_within mode = true ->
        dict_get d "mode" = JStr mode ->
        set_vehicle_mode (JDict d) w
        = (Ret (JStr
                  match process_stdin mpstate ("mode " ++ Str.upper mode) with
                  | Ret _ =>
                      "set_vehicle_mode: Requested mode change to "
                      ++ Str.upper mode
                  | Raise e =>
                      "set_vehicle_mode: Failed to set mode to "
                      ++ Str.upper mode ++ " - " ++ e
                  end),
           emit (EStdin ("mode " ++ Str.upper mode)) w))
  /\ (forall mode,
        Str.upper_within mode = true ->
        Str.upper_within (Str.upper mode) = true
        /\ Str.upper (Str.upper mode) = Str.upper mode).
Proof.
  unfold set_vehicle_mode, arguments_get, bind, ret, try_catch,
    modify, of_outcome.
  split; [|split].
  - intros ->. reflexivity.
  - intros mode _ ->.
    destruct (process_stdin mpstate ("mode " ++ Str.upper mode)) as [[]|e];
      reflexivity.
  - induction mode as [|c mode IH]; simpl; [split; reflexivity|].
    rewrite andb_true_iff. intros [Hc Hmode].
    destruct (IH Hmode) as [IHw IHu]. split.
    + clear IHu Hmode IH.
      destruct c as [[] [] [] [] [] [] [] []]; simpl in *;
        try discriminate; exact IHw.
    + rewrite upper_app, upper_upper_char. now rewrite IHu.
Qed.
(** X11. [get_vehicle_type] names every MAV_TYPE by one class: the tests of the
    function, made one after the other, never contradict each other, and a
    type none of them knows is unknown, as is the type of a vehicle that has
    sent no heartbeat. The function only reads: the world is as it was. *)
Theorem get_vehicle_type_classes (arguments : json) (w : world) :
  (forall hb,
     heartbeat mpstate = Ret (Some hb) ->
     get_vehicle_type arguments w
     = (Ret (JDict [("vehicle_type", JStr (vehicle_class (hb_type hb)))]), w))
  /\ (heartbeat mpstate = Ret None ->
      get_vehicle_type arguments w
      = (Ret (JDict [("vehicle_type", JStr "unknown")]), w))
  /\ (forall e,
        heartbeat mpstate = Raise e ->
        get_vehicle_type arguments w = (Raise e, w)).
Proof.
  unfold get_vehicle_type, bind, of_outcome, ret.
  split; [|split].
  - intros hb ->. do 3 f_equal. f_equal. f_equal.
    unfold vehicle_class, type_in, existsb, mavlink.MAV_TYPE_FIXED_WING,
      mavlink.MAV_TYPE_VTOL_DUOROTOR, mavlink.MAV_TYPE_VTOL_QUADROTOR,
      mavlink.MAV_TYPE_VTOL_TILTROTOR, mavlink.MAV_TYPE_GROUND_ROVER,
      mavlink.MAV_TYPE_SURFACE_BOAT, mavlink.MAV_TYPE_SUBMARINE,
      mavlink.MAV_TYPE_QUADROTOR, mavlink.MAV_TYPE_COAXIAL,
      mavlink.MAV_TYPE_HEXAROTOR, mavlink.MAV_TYPE_OCTOROTOR,
      mavlink.MAV_TYPE_TRICOPTER, mavlink.MAV_TYPE_DODECAROTOR,
      mavlink.MAV_TYPE_HELICOPTER, mavlink.MAV_TYPE_ANTENNA_TRACKER,
      mavlink.MAV_TYPE_AIRSHIP.
    generalize (hb_type hb). intros ty.
    repeat match goal with
           | |- context [Z.eqb ty ?k] =>
               destruct (Z.eqb_spec ty k); [subst ty; reflexivity|]
           end.
    reflexivity.
  - intros ->. reflexivity.
  - intros e ->. reflexivity.
Qed.

Lemma dict_set_new (d : list (string * json)) (key : string) (v : json) :
  ~ In key (map fst d) -> dict_set d key v = (d ++ [(key, v)])%list.
Proof.
  exact (dict_set_fresh num json_loads re_pattern re_compile datetime_now
           d key v).
Qed.

Lemma get_parameter_loop_any (pattern : re_pattern) (names : list string) :
  forall (acc : list (string * json)) (w : world),
    NoDup names ->
    (forall k, In k names -> ~ In k (map fst acc)) ->
    get_parameter_loop pattern names acc w
    = (Ret (acc ++ resolved (filter (re_match pattern) names))%list,
       emit_all (map unable_line (unresolved (filter (re_match pattern) names)))
         w).
Proof.
  induction names as [|k names IH]; simpl; intros acc w Hnd Hfresh.
  - now rewrite app_nil_r.
  - inversion Hnd as [|? ? Hk Hnd']; subst.
    destruct (re_match pattern k) eqn:Ematch.
    + simpl. destruct (get_mav_param mpstate k) as [v|] eqn:Eget.
      * rewrite IH; try assumption.
        -- rewrite dict_set_new by (apply Hfresh; now left).
           now rewrite <- app_assoc.
        -- intros k' Hin. rewrite dict_set_new by (apply Hfresh; now left).
           rewrite map_app, in_app_iff. simpl.
           intros [H|[H|[]]]; [apply (Hfresh k'); tauto | congruence].
      * unfold bind, print, modify. simpl.
        rewrite IH; try assumption; [reflexivity|].
        intros; apply Hfresh; tauto.
    + apply IH; try assumption. intros; apply Hfresh; tauto.
Qed.

(** X12. [get_parameter] by a pattern, whatever the vehicle answers: the result
    maps the matching names that resolve to their values, in sorted order,
    and each matching name that does not resolve leaves a line on the
    console, in that order too. A pattern that matches no name gives the
    empty mapping, not an error, and leaves the world as it was. *)
Theorem get_parameter_by_pattern
    (d : list (string * json)) (name : string) (pattern : re_pattern)
    (w : world) :
  dict_get d "name" = JStr name ->
  contains_regex name = true ->
  re_compile name = Ret pattern ->
  NoDup (map fst (mav_param mpstate)) ->
  let matches :=
    filter (re_match pattern)
      (Sorted_names.sorted (map fst (mav_param mpstate))) in
  get_parameter (JDict d) w
  = (Ret (JDict (resolved matches)),
     emit_all (map unable_line (unresolved matches)) w)
  /\ (matches = [] -> get_parameter (JDict d) w = (Ret (JDict []), w)).
Proof.
  intros Hname Hre Hcompile Hnodup matches.
  assert (Heq : get_parameter (JDict d) w
                = (Ret (JDict (resolved matches)),
                   emit_all (map unable_line (unresolved matches)) w)).
  { unfold get_parameter, arguments_get, bind, ret, of_outcome. simpl.
    rewrite Hname, Hre, Hcompile.
    rewrite get_parameter_loop_any; simpl; auto.
    apply (Permutation_NoDup (sorted_perm _) Hnodup). }
  split; [exact Heq|]. intros Hnone. rewrite Heq, Hnone. reflexivity.
Qed.

Lemma resolved_fst_filter (names : list string) :
  map fst (resolved names)
  = filter (fun k => match get_mav_param mpstate k with
                     | Some _ => true
                     | None => false
                     end) names.
Proof.
  induction names as [|k names IH]; simpl; [reflexivity|].
  destruct (get_mav_param mpstate k); simpl; now rewrite IH.
Qed.

(** C2. A name that contains one of the characters . ^ $ * + ? { } [ ] \ | ( )
    is compiled as a regular expression. When [re.compile] accepts it, the
    names of the parameter dict are matched against it in sorted order, and
    the result is the mapping from each matching name that resolves to its
    value, in that order; a matching name that does not resolve is left out,
    with a line on the console. On a vehicle that resolves every name of its
    parameter dict the mapping holds every matching name and nothing is
    printed. *)
Theorem get_parameter_pattern
    (d : list (string * json)) (name : string) (c : ascii)
    (pattern : re_pattern) (w : world) :
  dict_get d "name" = JStr name ->
  In c [".";"^";"$";"*";"+";"?";"{";"}";"[";"]";"\";"|";"(";")"]%char ->
  Str.count c name <> 0 ->
  re_compile name = Ret pattern ->
  NoDup (map fst (mav_param mpstate)) ->
  let matches :=
    filter (re_match pattern)
      (Sorted_names.sorted (map fst (mav_param mpstate))) in
  exists items,
    get_parameter (JDict d) w
    = (Ret (JDict items), emit_all (map unable_line (unresolved matches)) w)
    /\ map fst items
       = filter (fun k => match get_mav_param mpstate k with
                          | Some _ => true
                          | None => false
                          end) matches
    /\ StronglySorted Sorted_names.le (map fst items)
    /\ (forall k j,
          In (k, j) items <->
          exists v, j = JFloat v /\ In k (map fst (mav_param mpstate))
                    /\ re_match pattern k = true
                    /\ get_mav_param mpstate k = Some v)
    /\ ((forall k v, In (k, v) (mav_param mpstate) ->
                     get_mav_param mpstate k = Some v) ->
        get_parameter (JDict d) w = (Ret (JDict items), w)
        /\ map fst items = matches
        /\ forall k j,
             In (k, j) items <->
             exists v, j = JFloat v /\ In (k, v) (mav_param mpstate)
                       /\ re_match pattern k = true).
Proof.
  intros Hname Hc Hcount Hcompile Hnodup matches.
  set (keys := Sorted_names.sorted (map fst (mav_param mpstate))).
  assert (Hkeys : forall k, In k keys <-> In k (map fst (mav_param mpstate))).
  { intros k. split; apply Permutation_in; [symmetry|]; apply sorted_perm. }
  assert (Hre : contains_regex name = true).
  { apply contains_regex_loop_true. now exists c. }
  assert (Hrun : get_parameter (JDict d) w
                 = (Ret (JDict (resolved matches)),
                    emit_all (map unable_line (unresolved matches)) w)).
  { unfold get_parameter, arguments_get, bind, ret, of_outcome. simpl.
    rewrite Hname, Hre, Hcompile.
    rewrite get_parameter_loop_any; simpl; auto.
    apply (Permutation_NoDup (sorted_perm _) Hnodup). }
  exists (resolved matches).
  split; [exact Hrun|]. split; [apply resolved_fst_filter|].
  split; [|split].
  - rewrite resolved_fst_filter. unfold matches.
    apply filter_strongly, filter_strongly, sorted_strongly.
  - intros k j.
    rewrite (resolved_In num json_loads re_pattern re_compile datetime_now
               mpstate).
    unfold matches. split.
    + intros (v & -> & Hin & Hget). apply filter_In in Hin as [Hin Hm].
      exists v. repeat split; try assumption. now apply Hkeys.
    + intros (v & -> & Hin & Hm & Hget). exists v.
      repeat split; [|assumption]. apply filter_In. split; [|assumption].
      now apply Hkeys.
  - intros Hstore.
    destruct (get_parameter_consistent_store num num_repr json_loads
                re_pattern re_compile re_match datetime_now mpstate
                d name c pattern w
                Hname Hc Hcount Hcompile Hnodup Hstore)
      as (items & Hrun' & Hfst & _ & Hitems).
    rewrite Hrun in Hrun'. injection Hrun' as Heq Hw. subst items.
    split; [rewrite Hrun; now rewrite Hw|].
    split; [exact Hfst | exact Hitems].
Qed.

(** X13. Faults of [get_parameter] end as text in the dispatch: arguments that
    are not a mapping, and a pattern that [re.compile] rejects, give the
    error string of a failed call; a mapping without a name gives the text
    that no name was specified. In none of these cases is the vehicle
    asked. *)
Theorem get_parameter_faults_are_text (arguments : json) (w : world) :
  ((forall d, arguments <> JDict d) ->
   call_function "get_parameter" arguments w
   = (Ret (JStr ("get_parameter: function call failed - "
                 ++ attribute_error arguments "get")),
      emit (EPrint ("chat: get_parameter: function call failed - "
                    ++ attribute_error arguments "get")) w))
  /\ (forall d name e,
        arguments = JDict d ->
        dict_get d "name" = JStr name ->
        contains_regex name = true ->
        re_compile name = Raise e ->
        call_function "get_parameter" arguments w
        = (Ret (JStr ("get_parameter: function call failed - " ++ e)),
           emit (EPrint ("chat: get_parameter: function call failed - " ++ e))
             w))
  /\ (forall d,
        arguments = JDict d ->
        dict_get d "name" = JNull ->
        call_function "get_parameter" arguments w
        = (Ret (JStr "get_parameter: name not specified"), w)).
Proof.
  assert (Hcall : call_function "get_parameter" arguments w
                  = caught "get_parameter" (get_parameter arguments w))
    by reflexivity.
  rewrite Hcall. unfold get_parameter, arguments_get, bind, ret, of_outcome.
  split; [|split].
  - intros Hnot. destruct arguments; try reflexivity. now elim (Hnot d).
  - intros d name e -> Hname Hre Hcompile.
    now rewrite Hname, Hre, Hcompile.
  - intros d -> Hname. now rewrite Hname.
Qed.

(** ** Plain names *)

Lemma count_absent (p : ascii -> bool) (x : ascii) (s : string) :
  all_chars p s = true -> p x = false -> Str.count x s = 0.
Proof.
  intros Hs Hx. induction s as [|c s IH]; simpl in *; [reflexivity|].
  apply andb_true_iff in Hs as [Hc Hs]. rewrite IH by exact Hs.
  destruct (Ascii.eqb_spec c x) as [->|_]; [congruence | reflexivity].
Qed.

(** X14. A name made of letters, digits and underscores is never taken for a
    pattern: [get_parameter] asks the vehicle for that one name and answers
    by its value, or by the text that it was not found. *)
Theorem plain_name_is_exact (name : string) :
  all_chars name_char name = true ->
  contains_regex name = false
  /\ forall d w,
       dict_get d "name" = JStr name ->
       get_parameter (JDict d) w
       = (match get_mav_param mpstate name with
          | Some value => Ret (JDict [(name, JFloat value)])
          | None =>
              Ret (JStr ("get_parameter: " ++ name ++ " parameter not found"))
          end, w).
Proof.
  intros Hname.
  assert (Hre : contains_regex name = false).
  { unfold contains_regex, regex_characters. simpl.
    rewrite !(count_absent name_char _ name Hname) by reflexivity.
    reflexivity. }
  split; [exact Hre|]. intros d w Hd.
  unfold get_parameter, arguments_get, bind, ret. simpl.
  rewrite Hd, Hre. destruct (get_mav_param mpstate name); reflexivity.
Qed.

(** ** Responses without directives *)

Lemma emit_all_app (l1 l2 : list event) (w : world) :
  emit_all (l1 ++ l2) w = emit_all l2 (emit_all l1 w).
Proof. apply fold_left_app. Qed.

Lemma reply_cb_emit_all (evs : list event) (w : world) :
  reply_cb (emit_all evs w) = reply_cb w.
Proof.
  revert w. induction evs as [|e evs IH]; intros w; simpl; [reflexivity|].
  now rewrite IH.
Qed.

Lemma status_cb_emit_all (evs : list event) (w : world) :
  status_cb (emit_all evs w) = status_cb w.
Proof.
  revert w. induction evs as [|e evs IH]; intros w; simpl; [reflexivity|].
  now rewrite IH.
Qed.

Section Plain.

Variable h : option response -> D unit.

Lemma plain_parts_replied (ps : list part) :
  forall w,
    existsb part_has_call ps = false ->
    reply_cb w = true ->
    for_each ps (handle_part h) w
    = Some (Ret tt, emit_all (map EReply (part_texts ps)) w).
Proof.
  induction ps as [|p ps IH]; intros w Hq Hr; [reflexivity|].
  simpl in Hq. apply orb_false_iff in Hq as [Hp Hps].
  unfold part_has_call in Hp.
  change (part_texts (p :: ps))
    with ((match text p with
           | Some t => if Str.truthy t then [t] else []
           | None => []
           end) ++ part_texts ps)%list.
  rewrite map_app, emit_all_app. simpl for_each.
  unfold bindD at 1, handle_part at 1.
  destruct (part_call p); [discriminate|].
  destruct (text p) as [t|]; [destruct (Str.truthy t)|].
  - unfold bindD, lift, retD. rewrite (send_reply_on num t w Hr).
    simpl. apply IH; [exact Hps | exact Hr].
  - unfold bindD, retD. simpl. now apply IH.
  - unfold bindD, retD. simpl. now apply IH.
Qed.

Lemma plain_candidate_replied (c : candidate) (w : world) :
  plain_candidate c = true ->
  reply_cb w = true ->
  handle_candidate h c w
  = Some (Ret tt, emit_all (map EReply (candidate_texts c)) w).
Proof.
  unfold plain_candidate, candidate_texts, handle_candidate.
  destruct (cand_content c) as [ct|]; [|reflexivity].
  unfold content_parts. destruct (parts ct) as [ps|]; [|discriminate].
  intros Hq Hr. unfold bindD, lift, ret.
  apply plain_parts_replied; [|exact Hr]. now apply negb_true_iff.
Qed.

Lemma plain_candidates_replied (cs : list candidate) :
  forall w,
    forallb plain_candidate cs = true ->
    reply_cb w = true ->
    for_each cs (handle_candidate h) w
    = Some (Ret tt, emit_all (map EReply (flat_map candidate_texts cs)) w).
Proof.
  induction cs as [|c cs IH]; intros w Hq Hr; [reflexivity|].
  simpl in Hq. apply andb_true_iff in Hq as [Hc Hcs].
  simpl flat_map. rewrite map_app, emit_all_app. simpl for_each.
  unfold bindD. rewrite (plain_candidate_replied c w Hc Hr).
  apply IH; [exact Hcs|]. now rewrite reply_cb_emit_all.
Qed.

Lemma malformed_candidate_raises (c : candidate) (w : world) :
  malformed_candidate c = true ->
  handle_candidate h c w
  = Some (Raise "'Content' object has no attribute 'parts'", w).
Proof.
  unfold malformed_candidate, handle_candidate.
  destruct (cand_content c) as [ct|]; [|discriminate].
  unfold content_parts. destruct (parts ct); [discriminate|]. reflexivity.
Qed.

End Plain.

Lemma calls_emit_all (evs : list event) (w : world) :
  calls (emit_all evs w) = calls w.
Proof.
  revert w. induction evs as [|e evs IH]; intros w; simpl; [reflexivity|].
  now rewrite IH.
Qed.

Lemma chat_emit_all (evs : list event) (w : world) :
  chat (emit_all evs w) = chat w.
Proof.
  revert w. induction evs as [|e evs IH]; intros w; simpl; [reflexivity|].
  now rewrite IH.
Qed.

Lemma trace_emit_all (evs : list event) (w : world) :
  trace (emit_all evs w) = (trace w ++ evs)%list.
Proof.
  revert w. induction evs as [|e evs IH]; intros w; simpl.
  - now rewrite app_nil_r.
  - rewrite IH. simpl. now rewrite <- app_assoc.
Qed.

Lemma handle_plain_response (fuel : nat) (r : response) (w : world) :
  candidates r <> [] ->
  forallb plain_candidate (candidates r) = true ->
  reply_cb w = true ->
  status_cb w = true ->
  handle_gemini_response (S fuel) (Some r) w
  = Some (Ret tt,
          emit (EStatus "Ready")
            (emit_all (map EReply (flat_map candidate_texts (candidates r))) w)).
Proof.
  intros Hne Hplain Hr Hs.
  rewrite handle_gemini_response_S.
  destruct (candidates r) as [|c cs] eqn:E; [now elim Hne|].
  unfold bindD. rewrite plain_candidates_replied by assumption.
  unfold lift. rewrite send_status_on; [reflexivity|].
  now rewrite status_cb_emit_all.
Qed.

(** X15. A response whose candidates carry no directive is handled by replying:
    each text that is set and not empty goes to the reply sink, in the
    order of the candidates and of their parts, and the status Ready
    follows. The backend is not asked again. *)
Theorem plain_response_is_replied (fuel : nat) (r : response) (w : world) :
  candidates r <> [] ->
  forallb plain_candidate (candidates r) = true ->
  reply_cb w = true ->
  status_cb w = true ->
  exists w',
    handle_gemini_response (S fuel) (Some r) w = Some (Ret tt, w')
    /\ trace w'
       = (trace w
          ++ map EReply (flat_map candidate_texts (candidates r))
          ++ [EStatus "Ready"])%list
    /\ calls w' = calls w.
Proof.
  intros Hne Hplain Hr Hs. eexists. split; [|split].
  - now apply handle_plain_response.
  - simpl. rewrite trace_emit_all. now rewrite <- app_assoc.
  - simpl. apply calls_emit_all.
Qed.

(** The handling of a response stops at a candidate whose content has no
    parts. *)
Lemma handle_malformed_response
    (fuel : nat) (r : response) (before after : list candidate)
    (bad : candidate) (w : world) :
  candidates r = (before ++ bad :: after)%list ->
  forallb plain_candidate before = true ->
  malformed_candidate bad = true ->
  reply_cb w = true ->
  handle_gemini_response (S fuel) (Some r) w
  = Some (Raise "'Content' object has no attribute 'parts'",
          emit_all (map EReply (flat_map candidate_texts before)) w).
Proof.
  intros Hcs Hplain Hbad Hr.
  rewrite handle_gemini_response_S.
  destruct (candidates r) as [|c cs] eqn:E;
    [destruct before; discriminate|].
  rewrite Hcs. unfold bindD at 1. rewrite for_each_app.
  unfold bindD. rewrite plain_candidates_replied by assumption.
  simpl for_each. unfold bindD.
  now rewrite malformed_candidate_raises.
Qed.

(** X16. A candidate whose content has no readable parts stops the handling of
    the response with an exception: the texts of the candidates before it
    have been replied, the candidates after it are not looked at, and the
    status Ready is not sent. *)
Theorem malformed_candidate_stops_response
    (fuel : nat) (r : response) (before after : list candidate)
    (bad : candidate) (w : world) :
  candidates r = (before ++ bad :: after)%list ->
  forallb plain_candidate before = true ->
  malformed_candidate bad = true ->
  reply_cb w = true ->
  handle_gemini_response (S fuel) (Some r) w
  = Some (Raise "'Content' object has no attribute 'parts'",
          emit_all (map EReply (flat_map candidate_texts before)) w).
Proof.
  intros Hcs Hplain Hbad Hr.
  rewrite handle_gemini_response_S.
  destruct (candidates r) as [|c cs] eqn:E.
  - destruct before; discriminate.
  - rewrite Hcs. unfold bindD at 1.
    rewrite for_each_app.
    unfold bindD. rewrite plain_candidates_replied by assumption.
    simpl for_each. unfold bindD.
    now rewrite malformed_candidate_raises.
Qed.

(** ** What an exchange keeps *)

Lemma grows_refl (P : event -> bool) (w : world) : grows P w w.
Proof.
  repeat split; auto. exists []. rewrite app_nil_r. simpl. repeat split. lia.
Qed.

Lemma grows_trans (P : event -> bool) (w1 w2 w3 : world) :
  grows P w1 w2 -> grows P w2 w3 -> grows P w1 w3.
Proof.
  intros (A1 & B1 & C1 & D1 & E1 & F1 & e1 & T1 & P1 & N1)
         (A2 & B2 & C2 & D2 & E2 & F2 & e2 & T2 & P2 & N2).
  repeat split; try congruence; auto.
  exists (e1 ++ e2)%list. repeat split.
  - now rewrite T2, T1, app_assoc.
  - rewrite forallb_app. now rewrite P1, P2.
  - rewrite filter_app, length_app. lia.
Qed.

Lemma no_request_filter (evs : list event) :
  forallb (fun e => negb (is_request e)) evs = true ->
  filter is_request evs = [].
Proof.
  induction evs as [|e evs IH]; simpl; [reflexivity|].
  rewrite andb_true_iff. intros [He Hevs].
  apply negb_true_iff in He. rewrite He. now apply IH.
Qed.

Lemma adds_grows (P Q : event -> bool) (w w' : world) :
  (forall e, P e = true -> Q e = true) ->
  (forall e, P e = true -> is_request e = false) ->
  adds P w w' -> grows Q w w'.
Proof.
  intros HPQ HPR [(A & B & C & D' & E & F & G) (evs & T & HP)].
  repeat split; try congruence.
  exists evs. repeat split; [exact T | |].
  - rewrite forallb_forall in *. auto.
  - rewrite no_request_filter; [simpl; lia|].
    rewrite forallb_forall in *. intros e He.
    apply negb_true_iff. auto.
Qed.

Lemma grows_emit (P : event -> bool) (e : event) (w : world) :
  P e = true -> is_request e = false -> grows P w (emit e w).
Proof.
  intros HP HR. repeat split; auto. exists [e]. simpl.
  rewrite HP, HR. simpl. repeat split. lia.
Qed.

Lemma grows_request (P : event -> bool) (e : event) (w : world) :
  P e = true -> is_request e = true -> grows P w (count_call (emit e w)).
Proof.
  intros HP HR. repeat split; auto. exists [e]. simpl.
  rewrite HP, HR. simpl. repeat split. lia.
Qed.

Lemma growsM_ret {A} (P : event -> bool) (a : A) : growsM P (ret a).
Proof. intros w. apply grows_refl. Qed.

Lemma growsM_bind {A B} (P : event -> bool) (c : M A) (k : A -> M B) :
  growsM P c -> (forall a, growsM P (k a)) -> growsM P (bind c k).
Proof.
  intros Hc Hk w. unfold bind. specialize (Hc w).
  destruct (c w) as [[a|e] w1]; simpl in *; [|assumption].
  eapply grows_trans; [eassumption | apply Hk].
Qed.

Lemma growsM_try_catch {A} (P : event -> bool) (c : M A) (h : exn -> M A) :
  growsM P c -> (forall e, growsM P (h e)) -> growsM P (try_catch c h).
Proof.
  intros Hc Hh w. unfold try_catch. specialize (Hc w).
  destruct (c w) as [[a|e] w1]; simpl in *; [assumption|].
  eapply grows_trans; [eassumption | apply Hh].
Qed.

Lemma growsM_print (line : string) : growsM unlocked (print line).
Proof. intros w. now apply grows_emit. Qed.

Lemma growsM_send_status (status : string) : growsM unlocked (send_status status).
Proof.
  intros w. unfold send_status. destruct (status_cb w);
    [now apply grows_emit | apply grows_refl].
Qed.

Lemma growsM_send_reply (reply : string) : growsM unlocked (send_reply reply).
Proof.
  intros w. unfold send_reply. destruct (reply_cb w);
    [now apply grows_emit | apply grows_refl].
Qed.

Lemma growsM_chat_send_message (message : string) :
  growsM unlocked (chat_send_message message).
Proof.
  intros w. unfold chat_send_message. destruct (chat w);
    [now apply grows_request | apply grows_refl].
Qed.

Lemma growsM_generate_content (prompt : string) :
  growsM unlocked (generate_content prompt).
Proof. intros w. now apply grows_request. Qed.

Lemma grows_set_model (w : world) : grows unlocked w (set_model true w).
Proof.
  repeat split; auto. exists []. rewrite app_nil_r. simpl. repeat split. lia.
Qed.

Lemma grows_set_chat (w : world) : grows unlocked w (set_chat true w).
Proof.
  repeat split; auto. exists []. rewrite app_nil_r. simpl. repeat split. lia.
Qed.

Lemma growsM_initialize_model : growsM unlocked initialize_model.
Proof.
  unfold initialize_model. apply growsM_try_catch.
  - apply growsM_bind; [intros w; apply grows_refl|]. intros _.
    apply growsM_bind; [intros w; apply grows_set_model|]. intros _.
    apply growsM_bind; [intros w; apply grows_refl|]. intros _.
    apply growsM_bind; [intros w; apply grows_set_chat|]. intros _.
    apply growsM_bind; [apply growsM_print | intros _; apply growsM_ret].
  - intros e. apply growsM_bind; [apply growsM_print|].
    intros _. apply growsM_ret.
Qed.

Lemma growsM_check_connection : growsM unlocked check_connection.
Proof.
  unfold check_connection.
  apply growsM_bind; [intros w; apply grows_refl|]. intros w.
  destruct (negb (key_truthy (api_key w))).
  - apply growsM_bind; [apply growsM_print | intros _; apply growsM_ret].
  - apply growsM_bind.
    + destruct (negb (model w));
        [apply growsM_initialize_model | apply growsM_ret].
    + intros ready. destruct (negb ready); [apply growsM_ret|].
      apply growsM_try_catch.
      * apply growsM_bind; [apply growsM_generate_content|].
        intros _. apply growsM_ret.
      * intros e. apply growsM_bind; [apply growsM_print|].
        intros _. apply growsM_ret.
Qed.

Lemma growsD_lift {A} (P : event -> bool) (c : M A) :
  growsM P c -> growsD P (lift c).
Proof.
  intros Hc w o w' H. unfold lift in H. specialize (Hc w).
  destruct (c w) as [o1 w1]. inversion H; subst. exact Hc.
Qed.

Lemma growsD_retD {A} (P : event -> bool) (a : A) : growsD P (retD a).
Proof. intros w o w' H. inversion H; subst. apply grows_refl. Qed.

Lemma growsD_bindD {A B} (P : event -> bool) (c : D A) (k : A -> D B) :
  growsD P c -> (forall a, growsD P (k a)) -> growsD P (bindD c k).
Proof.
  intros Hc Hk w o w' H. unfold bindD in H.
  destruct (c w) as [[[a|e] w1]|] eqn:E; [| |discriminate].
  - eapply grows_trans; [eapply Hc, E | eapply Hk, H].
  - inversion H; subst. eapply Hc, E.
Qed.

Lemma growsD_try_catchD {A} (P : event -> bool) (c : D A) (h : exn -> D A) :
  growsD P c -> (forall e, growsD P (h e)) -> growsD P (try_catchD c h).
Proof.
  intros Hc Hh w o w' H. unfold try_catchD in H.
  destruct (c w) as [[[a|e] w1]|] eqn:E; [| |discriminate].
  - inversion H; subst. eapply Hc, E.
  - eapply grows_trans; [eapply Hc, E | eapply Hh, H].
Qed.

Lemma growsD_for_each {A} (P : event -> bool) (l : list A) (body : A -> D unit) :
  (forall x, growsD P (body x)) -> growsD P (for_each l body).
Proof.
  intros Hbody. induction l as [|x l IH]; simpl.
  - apply growsD_retD.
  - apply growsD_bindD; [apply Hbody | intros _; exact IH].
Qed.

Lemma growsM_call_function (func_name : string) (arguments : json) :
  growsM unlocked (call_function func_name arguments).
Proof.
  intros w. destruct (call_function_adds func_name arguments w) as [H _].
  eapply adds_grows; [| |exact H].
  - intros [] He; try discriminate; reflexivity.
  - intros [] He; try discriminate; reflexivity.
Qed.

Section Growing.

Variable handle_response : option response -> D unit.
Hypothesis grows_handle_response :
  forall r, growsD unlocked (handle_response r).

Lemma growsD_send_function_result (func_name : string) (output : json) :
  growsD unlocked (send_function_result handle_response func_name output).
Proof.
  unfold send_function_result. apply growsD_try_catchD.
  - apply growsD_bindD;
      [apply growsD_lift, growsM_chat_send_message | assumption].
  - intros e. apply growsD_lift, growsM_print.
Qed.

Lemma growsD_handle_function_call (fc : function_call) :
  growsD unlocked (handle_function_call handle_response fc).
Proof.
  unfold handle_function_call.
  destruct (fc_name fc) as [[|c s]|];
    try (apply growsD_lift, growsM_print).
  apply growsD_bindD; [apply growsD_lift, growsM_print|]. intros _.
  apply growsD_bindD; [apply growsD_lift, growsM_call_function|].
  intros output. apply growsD_send_function_result.
Qed.

Lemma growsD_handle_part (p : part) :
  growsD unlocked (handle_part handle_response p).
Proof.
  unfold handle_part. apply growsD_bindD.
  - destruct (text p) as [t|]; [|apply growsD_retD].
    destruct (Str.truthy t);
      [apply growsD_lift, growsM_send_reply | apply growsD_retD].
  - intros _. destruct (part_call p);
      [apply growsD_handle_function_call | apply growsD_retD].
Qed.

Lemma growsD_handle_candidate (c : candidate) :
  growsD unlocked (handle_candidate handle_response c).
Proof.
  unfold handle_candidate. destruct (cand_content c) as [ct|];
    [|apply growsD_retD].
  apply growsD_bindD.
  - apply growsD_lift. unfold content_parts.
    destruct (parts ct); intros w; apply grows_refl.
  - intros ps. apply growsD_for_each, growsD_handle_part.
Qed.

End Growing.

Lemma growsD_handle_gemini_response (fuel : nat) :
  forall r, growsD unlocked (handle_gemini_response fuel r).
Proof.
  induction fuel as [|fuel IH]; intros r; simpl.
  - intros w o w' H. discriminate.
  - destruct r as [r|]; [|apply growsD_lift, growsM_send_reply].
    destruct (candidates r) as [|c cs] eqn:E;
      [apply growsD_lift, growsM_send_reply|].
    apply growsD_bindD; [|intros _; apply growsD_lift, growsM_send_status].
    apply (growsD_for_each unlocked (c :: cs)). intros x.
    now apply growsD_handle_candidate.
Qed.

Lemma growsD_send_exchange (fuel : nat) (text : string) :
  growsD unlocked (send_exchange fuel text).
Proof.
  unfold send_exchange. apply growsD_bindD.
  - apply growsD_lift, growsM_check_connection.
  - intros connected. destruct (negb connected).
    + apply growsD_lift, growsM_send_reply.
    + apply growsD_try_catchD.
      * apply growsD_bindD; [apply growsD_lift, growsM_send_status|].
        intros _. apply growsD_bindD;
          [apply growsD_lift, growsM_chat_send_message|].
        intros r. apply growsD_handle_gemini_response.
      * intros e. apply growsD_bindD; [apply growsD_lift, growsM_print|].
        intros _. apply growsD_lift, growsM_send_status.
Qed.

(** The block under the lock never raises: what the connection check does
    not catch itself the [except] of [send_to_assistant] does. *)
Lemma send_exchange_never_raises (fuel : nat) (text : string) (w : world)
    (o : outcome unit) (w' : world) :
  send_exchange fuel text w = Some (o, w') -> o = Ret tt.
Proof.
  unfold send_exchange, bindD, lift.
  destruct (check_connection_never_raises num backend genai_model
              genai_start_chat w) as (b & w1 & ->).
  destruct b; cbv beta iota delta [negb].
  - unfold try_catchD, bindD, lift.
    destruct (send_status "Generating response..." w1) as [[[]|e0] w2] eqn:Es.
    + destruct (chat_send_message text w2) as [[r|e] w3].
      * destruct (handle_gemini_response fuel r w3) as [[[[]|e] w4]|];
          [intros H; now inversion H | | discriminate].
        destruct (print ("chat: " ++ "Error: " ++ e) w4) as [[[]|e1] w5] eqn:Ep;
          [|unfold print, modify in Ep; discriminate].
        unfold send_status. destruct (status_cb w5); intros H; now inversion H.
      * destruct (print ("chat: " ++ "Error: " ++ e) w3) as [[[]|e1] w5] eqn:Ep;
          [|unfold print, modify in Ep; discriminate].
        unfold send_status. destruct (status_cb w5); intros H; now inversion H.
    + unfold send_status in Es. destruct (status_cb w1); discriminate.
  - unfold send_reply. destruct (reply_cb w1); intros H; now inversion H.
Qed.

Lemma returns_try_catchD {A} (c : D A) (h : exn -> D A) (w : world) :
  returns c w ->
  (forall e w', c w = Some (Raise e, w') -> returns (h e) w') ->
  returns (try_catchD c h) w.
Proof.
  intros (o & w' & Hc) Hh. unfold returns, try_catchD. rewrite Hc.
  destruct o as [a|e]; [now eexists; eexists | now apply Hh].
Qed.

(** Against a backend that stops asking for calls the block under the lock
    returns. *)
Lemma returns_send_exchange (N fuel : nat) (text : string) (w : world) :
  quiet_from N ->
  N - calls w + 2 <= fuel ->
  returns (send_exchange fuel text) w.
Proof.
  intros Hq Hfuel. unfold send_exchange.
  apply returns_bindD; [apply returns_lift|].
  intros connected w1 Hc.
  assert (Hc1 : calls w <= calls w1).
  { pose proof (keepsM_check_connection num backend genai_model
                  genai_start_chat w) as Hk.
    unfold lift in Hc. inversion Hc as [Hc']. rewrite Hc' in Hk.
    now destruct Hk as (_ & _ & _ & ? & _). }
  destruct (negb connected); [apply returns_lift|].
  apply returns_try_catchD.
  - apply returns_bindD; [apply returns_lift|]. intros [] w2 Hs.
    assert (Hc2 : calls w1 <= calls w2).
    { pose proof (keepsM_send_status num "Generating response..." w1) as Hk.
      unfold lift in Hs. inversion Hs as [Hs']. rewrite Hs' in Hk.
      now destruct Hk as (_ & _ & _ & ? & _). }
    apply returns_bindD; [apply returns_lift|]. intros r w3 Hm.
    assert (Hc3 : calls w2 <= calls w3).
    { pose proof (keepsM_chat_send_message num backend text w2) as Hk.
      unfold lift in Hm. inversion Hm as [Hm']. rewrite Hm' in Hk.
      now destruct Hk as (_ & _ & _ & ? & _). }
    apply (returns_handle_gemini_response num num_repr json_loads re_pattern
             re_compile re_match backend datetime_now mpstate N Hq).
    lia.
  - intros e w2 _. apply returns_bindD; [apply returns_lift|].
    intros _ w3 _. apply returns_lift.
Qed.

(** ** The exchange under the lock *)

(** X17. Against a backend that stops asking for calls, a send on a free lock
    returns, and never by an exception, whichever callbacks are set. The
    lock is taken first and released last and is not touched in between:
    every request and every emission of the exchange happens under it. The
    key and the callbacks are the ones the session had; a model or a chat it
    had it still has; each request took one answer of the backend. *)
Theorem exchange_under_lock (N fuel : nat) (text : string) (w : world) :
  quiet_from N ->
  N - calls w + 2 <= fuel ->
  send_lock w = false ->
  exists w' mid,
    send_to_assistant fuel text w = Some (Ret tt, w')
    /\ trace w' = (trace w ++ EAcquire :: mid ++ [ERelease])%list
    /\ forallb unlocked mid = true
    /\ calls w' = calls w + List.length (filter is_request mid)
    /\ send_lock w' = false
    /\ api_key w' = api_key w
    /\ status_cb w' = status_cb w
    /\ reply_cb w' = reply_cb w
    /\ (model w = true -> model w' = true)
    /\ (chat w = true -> chat w' = true).
Proof.
  intros Hq Hfuel Hlock.
  set (w0 := emit EAcquire (set_send_lock true w)).
  destruct (returns_send_exchange N fuel text w0 Hq) as (o & wk & Hrun);
    [exact Hfuel|].
  pose proof (send_exchange_never_raises _ _ _ _ _ Hrun) as ->.
  destruct (growsD_send_exchange fuel text w0 _ _ Hrun)
    as (Hkey & Hs & Hr & _ & Hmodel & Hchat & mid & Ht & Hmid & Hcalls).
  exists (emit ERelease (set_send_lock false wk)), mid.
  unfold send_to_assistant, with_send_lock. rewrite Hlock. fold w0.
  rewrite Hrun. simpl in *. repeat split; try assumption.
  rewrite Ht. repeat (rewrite <- app_assoc; simpl). reflexivity.
Qed.

(** X18. On a session that is connected every message costs a probe: the first
    request of the exchange is the test of the connection, and the message
    follows it, after the status when there is a status callback. The
    session is still connected afterwards. *)
Theorem connected_send_probes_first
    (N fuel : nat) (text : string) (w : world) (probe : option response) :
  quiet_from N ->
  N - calls w + 2 <= fuel ->
  send_lock w = false ->
  key_truthy (api_key w) = true ->
  model w = true ->
  chat w = true ->
  backend (calls w) = Ret probe ->
  exists w' rest,
    send_to_assistant fuel text w = Some (Ret tt, w')
    /\ trace w'
       = (trace w
          ++ EAcquire :: EGenerate "Test connection"
             :: (if status_cb w then [EStatus "Generating response..."] else [])
          ++ ESendMessage text :: rest ++ [ERelease])%list
    /\ forallb unlocked rest = true
    /\ calls w' = calls w + 2 + List.length (filter is_request rest)
    /\ model w' = true /\ chat w' = true /\ send_lock w' = false.
Proof.
  intros Hq Hfuel Hlock Hkey Hmodel Hchat Hprobe.
  set (w0 := emit EAcquire (set_send_lock true w)).
  set (w1 := count_call (emit (EGenerate "Test connection") w0)).
  set (w2 := if status_cb w then emit (EStatus "Generating response...") w1
             else w1).
  set (w3 := count_call (emit (ESendMessage text) w2)).
  assert (Hcheck : check_connection w0 = (Ret true, w1)).
  { unfold check_connection, bind, get_world. simpl. rewrite Hkey, Hmodel.
    simpl. unfold try_catch, bind, generate_content, backend_request. simpl.
    now rewrite Hprobe. }
  assert (Hstatus : send_status "Generating response..." w1 = (Ret tt, w2)).
  { unfold send_status, w2. simpl. now destruct (status_cb w). }
  assert (Hchat2 : chat w2 = true).
  { unfold w2. now destruct (status_cb w). }
  assert (Hcalls2 : calls w2 = calls w + 1).
  { unfold w2. destruct (status_cb w); simpl; lia. }
  assert (Hsend : chat_send_message text w2 = (backend (calls w + 1), w3)).
  { unfold chat_send_message. rewrite Hchat2.
    unfold backend_request. now rewrite Hcalls2. }
  destruct (returns_handle_gemini_response num num_repr json_loads re_pattern
              re_compile re_match backend datetime_now mpstate N Hq fuel
              (match backend (calls w + 1) with Ret r => r | Raise _ => None end)
              w3)
    as (o & w4 & Hh).
  { unfold w3. simpl. rewrite Hcalls2. lia. }
  pose proof (growsD_handle_gemini_response fuel _ w3 _ _ Hh) as Hg.
  assert (Hrun : exists wk rest,
             send_exchange fuel text w0 = Some (Ret tt, wk)
             /\ grows unlocked w3 wk
             /\ trace wk = (trace w3 ++ rest)%list
             /\ forallb unlocked rest = true
             /\ calls wk = calls w3 + List.length (filter is_request rest)).
  { unfold send_exchange, bindD, lift. rewrite Hcheck.
    cbv beta iota delta [negb]. unfold try_catchD, bindD, lift.
    rewrite Hstatus, Hsend.
    destruct (backend (calls w + 1)) as [r|e].
    - rewrite Hh. destruct o as [[]|e].
      + destruct Hg as (? & ? & ? & ? & ? & ? & rest & ? & ? & ?).
        exists w4, rest. repeat split; try assumption.
        now exists rest.
      + set (w5 := emit (EPrint ("chat: " ++ "Error: " ++ e)) w4).
        assert (Hp : grows unlocked w4 (snd (send_status ("Error: " ++ e) w5))).
        { eapply grows_trans; [|apply growsM_send_status].
          unfold w5. now apply grows_emit. }
        unfold print, modify. fold w5.
        destruct (send_status ("Error: " ++ e) w5) as [[[]|e'] w6] eqn:E6.
        * pose proof (grows_trans _ _ _ _ Hg Hp) as Hall. simpl in Hall.
          pose proof Hall as (? & ? & ? & ? & ? & ? & rest & ? & ? & ?).
          exists w6, rest. repeat split; try assumption. now exists rest.
        * unfold send_status in E6. destruct (status_cb w5); discriminate.
    - set (w5 := emit (EPrint ("chat: " ++ "Error: " ++ e)) w3).
      assert (Hp : grows unlocked w3 (snd (send_status ("Error: " ++ e) w5))).
      { eapply grows_trans; [|apply growsM_send_status].
        unfold w5. now apply grows_emit. }
      unfold print, modify. fold w5.
      destruct (send_status ("Error: " ++ e) w5) as [[[]|e'] w6] eqn:E6.
      + simpl in Hp.
        pose proof Hp as (? & ? & ? & ? & ? & ? & rest & ? & ? & ?).
        exists w6, rest. repeat split; try assumption. now exists rest.
      + unfold send_status in E6. destruct (status_cb w5); discriminate. }
  destruct Hrun as (wk & rest & Hrun & Hgrow & Ht & Hrest & Hcalls).
  destruct Hgrow as (_ & _ & _ & _ & Hm & Hc & _).
  exists (emit ERelease (set_send_lock false wk)), rest.
  unfold send_to_assistant, with_send_lock. rewrite Hlock. fold w0.
  rewrite Hrun. simpl. repeat split; try assumption.
  - rewrite Ht. unfold w3, w2. simpl.
    destruct (status_cb w); simpl;
      repeat (rewrite <- app_assoc; simpl); reflexivity.
  - rewrite Hcalls. unfold w3. simpl. rewrite Hcalls2. lia.
  - apply Hm. unfold w3, w2. destruct (status_cb w); exact Hmodel.
  - apply Hc. unfold w3. exact Hchat2.
Qed.

(** ** The faults of an exchange *)

(** The block under the lock: a response with a content without parts. *)
Lemma send_exchange_malformed
    (fuel : nat) (text : string) (w0 w1 : world) (r : response)
    (before after : list candidate) (bad : candidate) :
  status_cb w0 = true ->
  reply_cb w0 = true ->
  check_connection w0 = (Ret true, w1) ->
  chat w1 = true ->
  backend (calls w1) = Ret (Some r) ->
  candidates r = (before ++ bad :: after)%list ->
  forallb plain_candidate before = true ->
  malformed_candidate bad = true ->
  send_exchange (S fuel) text w0
  = Some (Ret tt,
          reported "'Content' object has no attribute 'parts'"
            (emit_all (map EReply (flat_map candidate_texts before))
               (after_first_request text w1))).
Proof.
  intros Hs Hr Hc Hchat Hb Hcs Hplain Hbad.
  rewrite (send_exchange_cases num num_repr json_loads re_pattern re_compile
             re_match backend genai_model genai_start_chat datetime_now
             mpstate (S fuel) text w0 Hs Hr).
  rewrite Hc.
  rewrite (chat_send_message_on num backend text
             (emit (EStatus "Generating response...") w1) Hchat).
  simpl calls.
  rewrite Hb.
  assert (Hcb : reply_cb (after_first_request text w1) = true).
  { pose proof (keepsM_check_connection num backend genai_model
                  genai_start_chat w0) as Hk.
    rewrite Hc in Hk. destruct Hk as (_ & Hr1 & _).
    unfold after_first_request. simpl in *. congruence. }
  change (count_call
            (emit (ESendMessage text)
               (emit (EStatus "Generating response...") w1)))
    with (after_first_request text w1).
  now rewrite (handle_malformed_response fuel r before after bad _
                 Hcs Hplain Hbad Hcb).
Qed.

(** The last [try] of [handle_function_call]: what is raised while the
    result is sent, or while its answer is handled, is printed. *)
Lemma function_result_faults
    (h : option response -> D unit) (fc : function_call)
    (func_name : string) (w : world) :
  fc_name fc = Some func_name ->
  func_name <> "" ->
  chat w = true ->
  exists output w2,
    call_function func_name (call_arguments fc)
      (emit (EPrint ("chat: Handling function call: " ++ func_name)) w)
    = (Ret output, w2)
    /\ calls w2 = calls w
    /\ (forall e,
          backend (calls w) = Raise e ->
          handle_function_call h fc w
          = Some (Ret tt,
                  emit (EPrint ("chat: Error sending function response: " ++ e))
                    (count_call
                       (emit (ESendMessage
                                (function_result_message func_name output))
                          w2))))
    /\ (forall r e w3,
          backend (calls w) = Ret r ->
          h r (count_call
                 (emit (ESendMessage
                          (function_result_message func_name output)) w2))
          = Some (Raise e, w3) ->
          handle_function_call h fc w
          = Some (Ret tt,
                  emit (EPrint ("chat: Error sending function response: " ++ e))
                    w3)).
Proof.
  intros Hname Hne Hchat.
  set (w0 := emit (EPrint ("chat: Handling function call: " ++ func_name)) w).
  destruct (call_function_never_raises num re_pattern re_compile re_match
              datetime_now mpstate func_name (call_arguments fc) w0)
    as (output & w2 & Hcall).
  destruct (call_function_adds func_name (call_arguments fc) w0) as [Hadds _].
  rewrite Hcall in Hadds. simpl in Hadds.
  destruct Hadds as [(_ & _ & Hchat2 & _ & _ & _ & Hcalls2) _].
  assert (Hchat2' : chat w2 = true) by (unfold w0 in *; simpl in *; congruence).
  assert (Hcalls2' : calls w2 = calls w) by (unfold w0 in *; simpl in *; congruence).
  assert (Hrun : handle_function_call h fc w
                 = send_function_result h func_name output w2).
  { rewrite (handle_function_call_named num num_repr json_loads re_pattern
               re_compile re_match backend datetime_now mpstate
               h fc func_name w Hname (truthy_nonempty _ Hne)).
    fold w0. now rewrite Hcall. }
  exists output, w2. split; [exact Hcall|]. split; [exact Hcalls2'|].
  rewrite Hrun.
  rewrite (send_function_result_sends num num_repr backend h func_name
             output w2 Hchat2').
  cbv zeta. rewrite Hcalls2'. split.
  - intros e ->. reflexivity.
  - intros r e w3 -> ->. reflexivity.
Qed.

(** C5, as the code has it. Against a backend that stops asking for calls,
    [send_to_assistant] returns without raising and with the lock released,
    whichever callbacks are set, and with both callbacks set the last thing
    it does before releasing the lock is an emission on the status or the
    reply sink. Every fault is caught and becomes a text, on the sink the
    code gives it to: a fault of the connection check (the probe, or the
    making of the model) is printed, and the failure to connect goes to the
    reply sink; an absent response goes to the reply sink; a fault of the
    first request and a response with a content without parts are printed
    and go to the status sink; a fault met while a function result is sent,
    or while its answer is handled, is printed only. *)
Theorem send_to_assistant_faults_caught
    (N fuel : nat) (text : string) (w : world) :
  quiet_from N ->
  N - calls w + 2 <= fuel ->
  send_lock w = false ->
  let w0 := emit EAcquire (set_send_lock true w) in
  (exists w' mid,
     send_to_assistant fuel text w = Some (Ret tt, w')
     /\ send_lock w' = false
     /\ trace w' = (trace w ++ EAcquire :: mid ++ [ERelease])%list
     /\ forallb unlocked mid = true
     /\ (status_cb w = true -> reply_cb w = true ->
         exists events last,
           mid = (events ++ [last])%list /\ is_emission last = true))
  /\ (forall e,
        key_truthy (api_key w) = true ->
        model w = true ->
        backend (calls w) = Raise e ->
        check_connection w0
        = (Ret false,
           emit (EPrint ("chat: failed to connect to Gemini API: " ++ e))
             (count_call (emit (EGenerate "Test connection") w0))))
  /\ (forall e,
        key_truthy (api_key w) = true ->
        model w = false ->
        genai_model = Raise e ->
        check_connection w0
        = (Ret false,
           emit (EPrint ("chat: Failed to initialize Gemini model: " ++ e)) w0))
  /\ (status_cb w = true -> reply_cb w = true ->
      (forall w1,
         check_connection w0 = (Ret false, w1) ->
         send_exchange fuel text w0
         = Some (Ret tt,
                 emit (EReply "chat: failed to connect to Gemini API") w1))
      /\ (forall w1 e,
            check_connection w0 = (Ret true, w1) ->
            chat w1 = true ->
            backend (calls w1) = Raise e ->
            send_exchange fuel text w0
            = Some (Ret tt,
                    emit (EStatus ("Error: " ++ e))
                      (emit (EPrint ("chat: Error: " ++ e))
                         (after_first_request text w1))))
      /\ (forall w1 r,
            check_connection w0 = (Ret true, w1) ->
            chat w1 = true ->
            backend (calls w1) = Ret r ->
            match r with Some r => candidates r = [] | None => True end ->
            send_exchange fuel text w0
            = Some (Ret tt,
                    emit (EReply "No response received from Gemini")
                      (after_first_request text w1)))
      /\ (forall w1 r before bad after,
            check_connection w0 = (Ret true, w1) ->
            chat w1 = true ->
            backend (calls w1) = Ret (Some r) ->
            candidates r = (before ++ bad :: after)%list ->
            forallb plain_candidate before = true ->
            malformed_candidate bad = true ->
            send_exchange fuel text w0
            = Some (Ret tt,
                    emit (EStatus
                            "Error: 'Content' object has no attribute 'parts'")
                      (emit (EPrint
                               "chat: Error: 'Content' object has no attribute 'parts'")
                         (emit_all
                            (map EReply (flat_map candidate_texts before))
                            (after_first_request text w1))))))
  /\ (forall (h : option response -> D unit) fc func_name w1,
        fc_name fc = Some func_name ->
        func_name <> "" ->
        chat w1 = true ->
        exists output w2,
          call_function func_name (call_arguments fc)
            (emit (EPrint ("chat: Handling function call: " ++ func_name)) w1)
          = (Ret output, w2)
          /\ calls w2 = calls w1
          /\ (forall e,
                backend (calls w1) = Raise e ->
                handle_function_call h fc w1
                = Some (Ret tt,
                        emit (EPrint ("chat: Error sending function response: "
                                      ++ e))
                          (count_call
                             (emit (ESendMessage
                                      (function_result_message func_name output))
                                w2))))
          /\ (forall r e w3,
                backend (calls w1) = Ret r ->
                h r (count_call
                       (emit (ESendMessage
                                (function_result_message func_name output)) w2))
                = Some (Raise e, w3) ->
                handle_function_call h fc w1
                = Some (Ret tt,
                        emit (EPrint ("chat: Error sending function response: "
                                      ++ e)) w3))).
Proof.
  intros Hq Hfuel Hlock w0.
  split; [|split; [|split; [|split]]].
  - destruct (returns_send_exchange N fuel text w0 Hq) as (o & wk & Hrun);
      [exact Hfuel|].
    pose proof (send_exchange_never_raises _ _ _ _ _ Hrun) as ->.
    destruct (growsD_send_exchange fuel text w0 _ _ Hrun)
      as (_ & _ & _ & _ & _ & _ & mid & Ht & Hmid & _).
    exists (emit ERelease (set_send_lock false wk)), mid.
    unfold send_to_assistant, with_send_lock. rewrite Hlock. fold w0.
    rewrite Hrun. simpl. repeat split; try assumption.
    + rewrite Ht. unfold w0. simpl.
      repeat (rewrite <- app_assoc; simpl). reflexivity.
    + intros Hs Hr.
      destruct (send_exchange_ends_with_emission num num_repr json_loads
                  re_pattern re_compile re_match backend genai_model
                  genai_start_chat datetime_now mpstate N fuel text w0
                  Hq Hfuel Hs Hr)
        as (wk' & events & last & Hrun' & Ht' & Hlast).
      rewrite Hrun in Hrun'. injection Hrun' as <-.
      exists events, last. split; [|exact Hlast].
      rewrite Ht in Ht'. now apply app_inv_head in Ht'.
  - intros e Hkey Hmodel Hprobe.
    unfold check_connection, bind, get_world. simpl.
    rewrite Hkey, Hmodel. simpl.
    unfold try_catch, bind, generate_content, backend_request. simpl.
    now rewrite Hprobe.
  - intros e Hkey Hmodel Hgm.
    unfold check_connection, bind, get_world. simpl.
    rewrite Hkey, Hmodel. simpl.
    unfold initialize_model, try_catch, bind, of_outcome. now rewrite Hgm.
  - intros Hs Hr.
    pose proof (send_to_assistant_reports num num_repr json_loads re_pattern
                  re_compile re_match backend genai_model genai_start_chat
                  datetime_now mpstate N fuel text w Hq Hfuel Hlock Hs Hr)
      as Hcases.
    cbv zeta in Hcases. fold w0 in Hcases.
    destruct Hcases as (_ & Hfalse & Hfirst & Habsent).
    split; [exact Hfalse|]. split; [exact Hfirst|]. split; [exact Habsent|].
    intros w1 r before bad after Hc Hchat Hb Hcs Hplain Hbad.
    destruct fuel as [|fuel']; [lia|].
    apply (send_exchange_malformed fuel' text w0 w1 r before after bad);
      assumption.
  - intros h fc func_name w1. apply function_result_faults.
Qed.

(** ** A call and its answer *)

(** X19. A call whose result the backend answers with texts: the call is
    announced and made, its output goes back to the backend as a function
    result, the texts of the answer are replied, and the status Ready is
    sent twice, once by the handling of the answer and once by the handling
    of the response that carried the call. *)
Theorem call_then_answer
    (fuel : nat) (fc : function_call) (func_name : string)
    (answer : response) (w : world) :
  fc_name fc = Some func_name ->
  func_name <> "" ->
  chat w = true ->
  status_cb w = true ->
  reply_cb w = true ->
  backend (calls w) = Ret (Some answer) ->
  candidates answer <> [] ->
  forallb plain_candidate (candidates answer) = true ->
  exists output evs w',
    fst (call_function func_name (call_arguments fc)
           (emit (EPrint ("chat: Handling function call: " ++ func_name)) w))
    = Ret output
    /\ handle_gemini_response (S (S fuel)) (Some (response_of_call fc)) w
       = Some (Ret tt, w')
    /\ trace w'
       = (trace w
          ++ EPrint ("chat: Handling function call: " ++ func_name) :: evs
          ++ ESendMessage (function_result_message func_name output)
             :: map EReply (flat_map candidate_texts (candidates answer))
          ++ [EStatus "Ready"; EStatus "Ready"])%list
    /\ forallb (fun e => is_console e || is_param_set e) evs = true
    /\ calls w' = calls w + 1.
Proof.
  intros Hname Hne Hchat Hs Hr Hanswer Hcs Hplain.
  set (w0 := emit (EPrint ("chat: Handling function call: " ++ func_name)) w).
  destruct (call_function_never_raises num re_pattern re_compile re_match
              datetime_now mpstate func_name (call_arguments fc) w0)
    as (output & w1 & Hcall).
  destruct (call_function_adds func_name (call_arguments fc) w0) as [Hadds _].
  rewrite Hcall in Hadds. simpl in Hadds.
  destruct Hadds as [(_ & _ & Hchat1 & Hs1 & Hr1 & _ & Hcalls1) (evs & Ht1 & Hevs)].
  set (w2 := count_call
               (emit (ESendMessage (function_result_message func_name output))
                  w1)).
  set (texts := map (@EReply num)
                  (flat_map candidate_texts (candidates answer))).
  exists output, evs, (emit (EStatus "Ready")
                         (emit (EStatus "Ready") (emit_all texts w2))).
  split; [now rewrite Hcall|]. split; [|split; [|split]].
  - rewrite handle_gemini_response_S.
    change (candidates (response_of_call fc))
      with [ {| cand_content :=
                  Some {| parts :=
                            Some [ {| text := None; part_call := Some fc |} ] |} |} ].
    cbv beta iota.
    assert (Hcand :
              for_each
                [ {| cand_content :=
                       Some {| parts :=
                                 Some [ {| text := None;
                                           part_call := Some fc |} ] |} |} ]
                (handle_candidate (handle_gemini_response (S fuel))) w
              = Some (Ret tt, emit (EStatus "Ready") (emit_all texts w2))).
    { assert (Hfc : handle_function_call (handle_gemini_response (S fuel)) fc w
                    = Some (Ret tt, emit (EStatus "Ready") (emit_all texts w2))).
      { rewrite (handle_function_call_named num num_repr json_loads re_pattern
                   re_compile re_match backend datetime_now mpstate
                   _ fc func_name w Hname (truthy_nonempty _ Hne)).
        fold w0. rewrite Hcall.
        rewrite (send_function_result_sends num num_repr backend)
          by (unfold w0 in *; simpl in *; congruence).
        cbv zeta. rewrite Hcalls1. simpl calls. rewrite Hanswer. fold w2.
        rewrite handle_plain_response;
          [reflexivity | assumption | assumption
           | unfold w0 in *; simpl in *; congruence
           | unfold w0 in *; simpl in *; congruence]. }
      assert (Hpart : handle_part (handle_gemini_response (S fuel))
                        {| text := None; part_call := Some fc |} w
                      = Some (Ret tt,
                              emit (EStatus "Ready") (emit_all texts w2))).
      { unfold handle_part. cbn [text part_call].
        unfold bindD at 1, retD at 1. cbv beta iota. exact Hfc. }
      unfold for_each at 1. unfold bindD at 1.
      unfold handle_candidate at 1. cbn [cand_content].
      unfold content_parts. cbn [parts].
      unfold bindD at 1, lift at 1, ret at 1. cbv beta iota.
      unfold for_each at 1. unfold bindD at 1. rewrite Hpart. reflexivity. }
    unfold bindD at 1. rewrite Hcand. unfold lift.
    rewrite send_status_on; [reflexivity|]. simpl.
    unfold texts. rewrite status_cb_emit_all. unfold w0 in *. simpl in *.
    congruence.
  - simpl. unfold texts. rewrite trace_emit_all. simpl. rewrite Ht1. simpl.
    repeat (rewrite <- app_assoc; simpl). reflexivity.
  - exact Hevs.
  - simpl. unfold texts. rewrite calls_emit_all. simpl. rewrite Hcalls1.
    simpl. lia.
Qed.

(** ** The schemas of the tools *)

(** X20. Every tool of [define_tools] is registered with an object schema that
    declares at least one argument and requires only arguments it declares;
    and its handler checks what the schema requires: called without a
    required argument it returns the text that the argument is not
    specified, and does nothing else. *)
Theorem required_arguments_are_checked (name : string) (info : tool_info) :
  In (name, info) define_tools ->
  schema_field info "type" = JStr "object"
  /\ declared_keys info <> []
  /\ incl (required_keys info) (declared_keys info)
  /\ forall key d w,
       In key (required_keys info) ->
       dict_get d key = JNull ->
       exists what,
         function info (JDict d) w
         = (Ret (JStr (name ++ ": " ++ what ++ " not specified")), w).
Proof.
  intros Hin. unfold define_tools in Hin. simpl in Hin.
  destruct Hin as [H|[H|[H|[H|[H|[H|[]]]]]]]; inversion H; subst name info;
    (split; [reflexivity|]); (split; [discriminate|]);
    (split; [intros k Hk; simpl in *; tauto|]);
    intros key d w Hkey Hnull; simpl in Hkey.
  - contradiction.
  - contradiction.
  - contradiction.
  - destruct Hkey as [<-|[]]. exists "name". simpl.
    unfold get_parameter, arguments_get, bind, ret. now rewrite Hnull.
  - destruct Hkey as [<-|[<-|[]]].
    + exists "parameter name". simpl.
      unfold set_parameter, arguments_get, bind, ret. now rewrite Hnull.
    + simpl. unfold set_parameter, arguments_get, bind, ret.
      destruct (dict_get d "name") eqn:E;
        try (exists "value"; now rewrite Hnull).
      now exists "parameter name".
  - destruct Hkey as [<-|[]]. exists "mode". simpl.
    unfold set_vehicle_mode, arguments_get, bind, ret. now rewrite Hnull.
Qed.
End Session.

Arguments session {num} h.
Arguments key_file {num} h.

(** ** The properties at concrete sessions

    The collaborators are those of [Example]; the backends and the sessions
    below are added to them. *)

(** A backend that answers every request by the text ok, and one that
    fails on every request. *)
Definition answering_backend : nat -> backend_reply :=
  fun _ => Ret (Some (Example.text_response "ok")).

Definition failing_probe : nat -> backend_reply :=
  fun _ => Raise "timed out".

(** A session with a key that has not been connected yet. *)
Definition unconnected : world Example.number :=
  {| api_key := Some "key"; model := false; chat := false;
     status_cb := true; reply_cb := true; send_lock := false;
     calls := 0; trace := [] |}.

(** A vehicle that lists BATT_LOW_VOLT among its parameters and does not
    give its value. *)
Definition patchy : vehicle Example.number :=
  {| heartbeat := Ret None;
     motors_armed := Ret 0%Z;
     mav_param := Example.store;
     get_mav_param :=
       fun name => if String.eqb name "BATT_LOW_VOLT" then None
                   else Example.lookup Example.store name;
     param_set := fun _ _ => Ret tt;
     process_stdin := fun _ => Ret tt |}.

(** A response whose second candidate has a content without parts. *)
Definition first_candidate : candidate :=
  {| cand_content :=
       Some {| parts := Some [ {| text := Some "first"; part_call := None |} ] |} |}.

Definition broken_candidate : candidate :=
  {| cand_content := Some {| parts := None |} |}.

Definition broken_response : response :=
  {| candidates := [first_candidate; broken_candidate; first_candidate] |}.

(** [re.compile] on the unbalanced parenthesis, which Python rejects with
    this message; on the other names it is the engine of the examples. *)
Definition compile_checked (s : string) : outcome Re_fragment.pattern :=
  if String.eqb s "(" then
    Raise "missing ), unterminated subpattern at position 0"
  else Re_fragment.compile s.

(** The connected session after two requests. *)
Definition busy : world Example.number :=
  count_call (count_call Example.ready).

(** The mode gu?d with the e with acute accent (233) in the third place,
    and a key with a carriage return in the middle. *)
Definition accented_mode : string :=
  String "g" (String "u" (String "233" (String "d" EmptyString))).

Definition key_with_return : string :=
  String "a" (String CR (String "b" EmptyString)).

(** A directive for get_vehicle_state. *)
Definition state_call : function_call :=
  {| fc_name := Some "get_vehicle_state"; fc_args := "{}" |}.

Lemma answering_backend_quiet : quiet_from answering_backend 0.
Proof. intros i _. reflexivity. Defined.

Lemma failing_backend_quiet : quiet_from Example.failing_backend 2.
Proof.
  intros i Hi. destruct i as [|[|i]]; [lia | lia | reflexivity].
Defined.

(** X2. A start on a key file that holds two spaces. *)
Lemma start_without_usable_key_witness :
  exists w',
    Example.send answering_backend 0 "hello"
      (init Example.number (Ret tt) (Ret tt) (Ret tt) true true
         (Some (Ret "  ")))
    = Some (Ret tt, w')
    /\ trace w'
       = (trace (init Example.number (Ret tt) (Ret tt) (Ret tt) true true
                   (Some (Ret "  ")))
          ++ [EAcquire; EPrint key_not_set_line;
              EReply "chat: failed to connect to Gemini API"; ERelease])%list
    /\ calls w' = 0.
Proof.
  apply (start_without_usable_key Example.number Example.number_repr
           Example.loads Re_fragment.pattern Re_fragment.compile
           Re_fragment.matches answering_backend (Ret tt) (Ret tt)
           Example.now Example.mpstate (Ret tt) true (Some (Ret "  "))
           0 "hello").
  reflexivity.
Defined.

(** X5. The connected session against a backend that fails. *)
Lemma failed_probe_sends_nothing_witness :
  exists w',
    Example.send failing_probe 0 "hello" Example.ready = Some (Ret tt, w')
    /\ trace w'
       = (trace Example.ready
          ++ [EAcquire; EGenerate "Test connection";
              EPrint ("chat: failed to connect to Gemini API: " ++ "timed out");
              EReply "chat: failed to connect to Gemini API";
              ERelease])%list
    /\ calls w' = calls Example.ready + 1
    /\ send_lock w' = false.
Proof.
  apply (failed_probe_sends_nothing Example.number Example.number_repr
           Example.loads Re_fragment.pattern Re_fragment.compile
           Re_fragment.matches failing_probe (Ret tt) (Ret tt)
           Example.now Example.mpstate 0 "hello" Example.ready "timed out");
    reflexivity.
Defined.

(** X6. An SDK that makes the model and fails to start the chat: the second
    message fails on the missing chat. *)
Lemma session_without_chat_witness :
  exists w1 w2,
    send_to_assistant Example.number_repr Example.loads Re_fragment.compile
      Re_fragment.matches answering_backend (Ret tt) (Raise "no chat today")
      Example.now Example.mpstate 1 "hello" unconnected
    = Some (Ret tt, w1)
    /\ model w1 = true /\ chat w1 = false
    /\ send_to_assistant Example.number_repr Example.loads Re_fragment.compile
         Re_fragment.matches answering_backend (Ret tt) (Raise "no chat today")
         Example.now Example.mpstate 1 "again" w1
       = Some (Ret tt, w2)
    /\ model w2 = true /\ chat w2 = false.
Proof.
  destruct (session_without_chat Example.number Example.number_repr
              Example.loads Re_fragment.pattern Re_fragment.compile
              Re_fragment.matches answering_backend (Ret tt)
              (Raise "no chat today") Example.now Example.mpstate
              1 "hello" unconnected "no chat today"
              eq_refl eq_refl eq_refl eq_refl eq_refl eq_refl eq_refl eq_refl)
    as (w1 & Hfirst & _ & _ & Hmodel & Hchat & Hlater).
  destruct (Hlater 1 "again" (Some (Example.text_response "ok")) eq_refl)
    as (w2 & Hsecond & _ & Hmodel2 & Hchat2).
  exists w1, w2. repeat split; assumption.
Defined.

(** X8. get_parameter is one of the five names. *)
Lemma supported_call_runs_registered_handler_witness :
  In "get_parameter"
    (registered_names Example.number Re_fragment.pattern Re_fragment.compile
       Re_fragment.matches Example.now Example.mpstate)
  /\ exists handler,
       registered_handler Example.number
         (define_tools Example.number Re_fragment.pattern Re_fragment.compile
            Re_fragment.matches Example.now Example.mpstate)
         "get_parameter" = Some handler
       /\ handler (JDict [("name", JStr "THR_MIN")]) Example.ready
          = (Ret (JDict [("THR_MIN", JFloat (QArith_base.Qmake 100 1))]),
             Example.ready).
Proof.
  destruct (supported_call_runs_registered_handler Example.number
              Example.loads Re_fragment.pattern Re_fragment.compile
              Re_fragment.matches Example.now Example.mpstate "get_parameter")
    as (Hin & handler & Hreg & _).
  { do 3 right. left. reflexivity. }
  split; [exact Hin|]. exists handler. split; [exact Hreg|].
  inversion Hreg. reflexivity.
Defined.

(** X12. BATT.* on the vehicle that does not give BATT_LOW_VOLT. *)
Lemma get_parameter_by_pattern_witness :
  get_parameter Re_fragment.compile Re_fragment.matches patchy
    (JDict [("name", JStr "BATT.*")]) Example.ready
  = (Ret (JDict [("BATT_CAPACITY", JFloat (QArith_base.Qmake 5000 1))]),
     emit (EPrint "chat: get_parameter unable to get BATT_LOW_VOLT")
       Example.ready).
Proof.
  apply (proj1 (get_parameter_by_pattern Example.number Example.number_repr
                  Example.loads Re_fragment.pattern Re_fragment.compile
                  Re_fragment.matches Example.now patchy
                  [("name", JStr "BATT.*")] "BATT.*"
                  [(Re_fragment.Lit "B", Re_fragment.One);
                   (Re_fragment.Lit "A", Re_fragment.One);
                   (Re_fragment.Lit "T", Re_fragment.One);
                   (Re_fragment.Lit "T", Re_fragment.One);
                   (Re_fragment.Dot, Re_fragment.Star)]
                  Example.ready eq_refl eq_refl eq_refl
                  ltac:(repeat constructor; simpl; intuition discriminate))).
Defined.

(** X14. THR_MIN is a plain name. *)
Lemma plain_name_is_exact_witness :
  contains_regex "THR_MIN" = false
  /\ get_parameter Re_fragment.compile Re_fragment.matches Example.mpstate
       (JDict [("name", JStr "THR_MIN")]) Example.ready
     = (Ret (JDict [("THR_MIN", JFloat (QArith_base.Qmake 100 1))]),
        Example.ready).
Proof.
  destruct (plain_name_is_exact Example.number Re_fragment.pattern
              Re_fragment.compile Re_fragment.matches Example.mpstate
              "THR_MIN" eq_refl) as [Hplain Hget].
  split; [exact Hplain|].
  exact (Hget [("name", JStr "THR_MIN")] Example.ready eq_refl).
Defined.

(** X4. A key with a carriage return inside, saved and read back on a POSIX
    system: the session that saved it holds it as given, a later start
    holds it with a line feed in the place of the carriage return. *)
Lemma save_then_restart_witness :
  api_key
    (session
       (snd (save_api_key Example.number (Ret tt) (Ret tt) Written
               key_with_return
               {| session := Example.no_credential; key_file := None |})))
  = Some key_with_return
  /\ api_key
       (restart Example.number (Ret tt) (Ret tt) (Ret tt) posix true true
          (snd (save_api_key Example.number (Ret tt) (Ret tt) Written
                  key_with_return
                  {| session := Example.no_credential; key_file := None |})))
     = Some (String "a" (String LF (String "b" EmptyString))).
Proof.
  split; [reflexivity|].
  exact (proj1 (save_then_restart Example.number Example.loads
                  Re_fragment.pattern Re_fragment.compile (Ret tt) (Ret tt)
                  Example.now (Ret tt) posix key_with_return
                  {| session := Example.no_credential; key_file := None |}
                  true true)).
Defined.

(** X10. The mode with the accented letter: the command carries the
    capital letter (201). *)
Lemma set_vehicle_mode_sends_upper_case_witness :
  set_vehicle_mode Example.number Example.mpstate
    (JDict [("mode", JStr accented_mode)]) Example.ready
  = (Ret (JStr ("set_vehicle_mode: Requested mode change to "
                ++ String "G" (String "U" (String "201" (String "D" EmptyString))))),
     emit (EStdin ("mode "
                   ++ String "G" (String "U" (String "201" (String "D" EmptyString)))))
       Example.ready).
Proof.
  exact (proj1 (proj2 (set_vehicle_mode_sends_upper_case Example.number
                         Example.mpstate [("mode", JStr accented_mode)]
                         Example.ready))
           accented_mode eq_refl eq_refl).
Defined.

(** X15. The response that says ok. *)
Lemma plain_response_is_replied_witness :
  exists w',
    Example.handle answering_backend 1 (Some (Example.text_response "ok"))
      Example.ready
    = Some (Ret tt, w')
    /\ trace w' = (trace Example.ready ++ [EReply "ok"] ++ [EStatus "Ready"])%list
    /\ calls w' = calls Example.ready.
Proof.
  apply (plain_response_is_replied Example.number Example.number_repr
           Example.loads Re_fragment.pattern Re_fragment.compile
           Re_fragment.matches answering_backend Example.now Example.mpstate
           0 (Example.text_response "ok") Example.ready);
    [discriminate | reflexivity | reflexivity | reflexivity].
Defined.

(** X16. The response with the broken candidate: the text before it is replied,
    the one after it is not. *)
Lemma malformed_candidate_stops_response_witness :
  Example.handle answering_backend 1 (Some broken_response) Example.ready
  = Some (Raise "'Content' object has no attribute 'parts'",
          emit (EReply "first") Example.ready).
Proof.
  apply (malformed_candidate_stops_response Example.number Example.number_repr
           Example.loads Re_fragment.pattern Re_fragment.compile
           Re_fragment.matches answering_backend Example.now Example.mpstate
           0 broken_response [first_candidate] [first_candidate]
           broken_candidate Example.ready);
    reflexivity.
Defined.

(** X17. A message to the backend that answers ok. *)
Lemma exchange_under_lock_witness :
  exists w' mid,
    Example.send answering_backend 2 "hello" Example.ready = Some (Ret tt, w')
    /\ trace w' = (trace Example.ready ++ EAcquire :: mid ++ [ERelease])%list
    /\ forallb (unlocked Example.number) mid = true
    /\ calls w' = calls Example.ready + List.length (filter is_request mid)
    /\ send_lock w' = false
    /\ api_key w' = api_key Example.ready
    /\ status_cb w' = status_cb Example.ready
    /\ reply_cb w' = reply_cb Example.ready
    /\ (model Example.ready = true -> model w' = true)
    /\ (chat Example.ready = true -> chat w' = true).
Proof.
  apply (exchange_under_lock Example.number Example.number_repr
           Example.loads Re_fragment.pattern Re_fragment.compile
           Re_fragment.matches answering_backend (Ret tt) (Ret tt)
           Example.now Example.mpstate 0 2 "hello" Example.ready
           answering_backend_quiet (le_n 2) eq_refl).
Defined.

(** X18. The same message, read from its first request on. *)
Lemma connected_send_probes_first_witness :
  exists w' rest,
    Example.send answering_backend 2 "hello" Example.ready = Some (Ret tt, w')
    /\ trace w'
       = (trace Example.ready
          ++ EAcquire :: EGenerate "Test connection"
             :: [EStatus "Generating response..."]
          ++ ESendMessage "hello" :: rest ++ [ERelease])%list
    /\ forallb (unlocked Example.number) rest = true
    /\ calls w' = calls Example.ready + 2 + List.length (filter is_request rest)
    /\ model w' = true /\ chat w' = true /\ send_lock w' = false.
Proof.
  apply (connected_send_probes_first Example.number Example.number_repr
           Example.loads Re_fragment.pattern Re_fragment.compile
           Re_fragment.matches answering_backend (Ret tt) (Ret tt)
           Example.now Example.mpstate 0 2 "hello" Example.ready
           (Some (Example.text_response "ok"))
           answering_backend_quiet (le_n 2) eq_refl eq_refl eq_refl eq_refl
           eq_refl).
Defined.

(** X19. The call of get_vehicle_state, answered by ok. *)
Lemma call_then_answer_witness :
  exists w',
    Example.handle answering_backend 2 (Some (response_of_call state_call))
      Example.ready
    = Some (Ret tt, w')
    /\ calls w' = calls Example.ready + 1.
Proof.
  destruct (call_then_answer Example.number Example.number_repr
              Example.loads Re_fragment.pattern Re_fragment.compile
              Re_fragment.matches answering_backend Example.now
              Example.mpstate 0 state_call "get_vehicle_state"
              (Example.text_response "ok") Example.ready)
    as (output & evs & w' & _ & Hrun & _ & _ & Hcalls);
    [reflexivity | discriminate | reflexivity | reflexivity | reflexivity
     | reflexivity | discriminate | reflexivity |].
  exists w'. split; [exact Hrun | exact Hcalls].
Defined.

(** X20. set_parameter without its value. *)
Lemma required_arguments_are_checked_witness :
  exists what,
    set_parameter Example.number Example.mpstate
      (JDict [("name", JStr "THR_MIN")])
      Example.ready
    = (Ret (JStr ("set_parameter" ++ ": " ++ what ++ " not specified")),
       Example.ready).
Proof.
  assert (H := fun info Hin =>
                 required_arguments_are_checked Example.number Example.loads
                   Re_fragment.pattern Re_fragment.compile
                   Re_fragment.matches Example.now Example.mpstate
                   "set_parameter" info Hin).
  edestruct H as (_ & _ & _ & Hcheck).
  { do 4 right. left. reflexivity. }
  apply (Hcheck "value" [("name", JStr "THR_MIN")] Example.ready).
  - right. left. reflexivity.
  - reflexivity.
Defined.

(** C2 at the example of the specification: BATT.* against the store with
    BATT_CAPACITY, BATT_LOW_VOLT and THR_MIN gives the two BATT parameters,
    in the order of their names. *)
Lemma get_parameter_pattern_witness :
  get_parameter Re_fragment.compile Re_fragment.matches Example.mpstate
    (JDict [("name", JStr "BATT.*")]) Example.ready
  = (Ret (JDict [("BATT_CAPACITY", JFloat (QArith_base.Qmake 5000 1));
                 ("BATT_LOW_VOLT", JFloat (QArith_base.Qmake 21 2))]),
     Example.ready)
  /\ exists items,
       get_parameter Re_fragment.compile Re_fragment.matches Example.mpstate
         (JDict [("name", JStr "BATT.*")]) Example.ready
       = (Ret (JDict items), Example.ready)
       /\ map fst items = ["BATT_CAPACITY"; "BATT_LOW_VOLT"]
       /\ StronglySorted Sorted_names.le (map fst items)
       /\ (forall k j,
             In (k, j) items <->
             exists v, j = JFloat v /\ In (k, v) (mav_param Example.mpstate)
                       /\ Re_fragment.matches
                            [(Re_fragment.Lit "B", Re_fragment.One);
                             (Re_fragment.Lit "A", Re_fragment.One);
                             (Re_fragment.Lit "T", Re_fragment.One);
                             (Re_fragment.Lit "T", Re_fragment.One);
                             (Re_fragment.Dot, Re_fragment.Star)] k = true).
Proof.
  split; [reflexivity|].
  destruct (get_parameter_pattern Example.number Example.number_repr
              Example.loads Re_fragment.pattern Re_fragment.compile
              Re_fragment.matches Example.now Example.mpstate
              [("name", JStr "BATT.*")] "BATT.*" "."%char
              [(Re_fragment.Lit "B", Re_fragment.One);
               (Re_fragment.Lit "A", Re_fragment.One);
               (Re_fragment.Lit "T", Re_fragment.One);
               (Re_fragment.Lit "T", Re_fragment.One);
               (Re_fragment.Dot, Re_fragment.Star)]
              Example.ready)
    as (items & _ & _ & Hsorted & _ & Hstore).
  - reflexivity.
  - left. reflexivity.
  - vm_compute. discriminate.
  - reflexivity.
  - repeat constructor; simpl; intuition discriminate.
  - destruct Hstore as (Hrun & Hfst & Hitems).
    { intros k v [H|[H|[H|[]]]]; inversion H; reflexivity. }
    exists items. split; [exact Hrun|]. split; [exact Hfst|].
    split; [exact Hsorted | exact Hitems].
Defined.

(** C2 as the specification states it fails in two ways. The name of one
    parenthesis holds a character of the list, and [re.compile] rejects it:
    the lookup raises, no mapping is returned, and the dispatch answers by
    the text of a failed call. And on the vehicle that does not give
    BATT_LOW_VOLT, that name matches BATT.* and is not in the mapping. *)
Lemma rejected_pattern_gives_no_mapping :
  Str.count "("%char "(" <> 0
  /\ contains_regex "(" = true
  /\ get_parameter compile_checked Re_fragment.matches Example.mpstate
       (JDict [("name", JStr "(")]) Example.ready
     = (Raise "missing ), unterminated subpattern at position 0",
        Example.ready)
  /\ (~ exists items w',
          get_parameter compile_checked Re_fragment.matches Example.mpstate
            (JDict [("name", JStr "(")]) Example.ready
          = (Ret (JDict items), w'))
  /\ call_function compile_checked Re_fragment.matches Example.now
       Example.mpstate "get_parameter" (JDict [("name", JStr "(")])
       Example.ready
     = (Ret (JStr ("get_parameter: function call failed - "
                   ++ "missing ), unterminated subpattern at position 0")),
        emit (EPrint ("chat: get_parameter: function call failed - "
                      ++ "missing ), unterminated subpattern at position 0"))
          Example.ready)
  /\ In "BATT_LOW_VOLT" (map fst (mav_param patchy))
  /\ Re_fragment.matches
       [(Re_fragment.Lit "B", Re_fragment.One);
        (Re_fragment.Lit "A", Re_fragment.One);
        (Re_fragment.Lit "T", Re_fragment.One);
        (Re_fragment.Lit "T", Re_fragment.One);
        (Re_fragment.Dot, Re_fragment.Star)] "BATT_LOW_VOLT" = true
  /\ get_parameter Re_fragment.compile Re_fragment.matches patchy
       (JDict [("name", JStr "BATT.*")]) Example.ready
     = (Ret (JDict [("BATT_CAPACITY", JFloat (QArith_base.Qmake 5000 1))]),
        emit (EPrint "chat: get_parameter unable to get BATT_LOW_VOLT")
          Example.ready).
Proof.
  split; [vm_compute; discriminate|]. split; [reflexivity|].
  split; [reflexivity|]. split.
  - intros (items & w' & H).
    change (get_parameter compile_checked Re_fragment.matches Example.mpstate
              (JDict [("name", JStr "(")]) Example.ready)
      with (@Raise (json Example.number)
              "missing ), unterminated subpattern at position 0",
            Example.ready) in H.
    discriminate.
  - split; [reflexivity|]. split; [simpl; tauto|].
    split; reflexivity.
Qed.

(** C5 at a backend that asks for one call and fails on the function
    result: the send returns, under the lock and ending in an emission, and
    the fault of the function result is printed only. *)
Lemma send_to_assistant_faults_caught_witness :
  (exists w' mid,
     Example.send Example.failing_backend 4 "hello" Example.ready
     = Some (Ret tt, w')
     /\ send_lock w' = false
     /\ trace w' = (trace Example.ready ++ EAcquire :: mid ++ [ERelease])%list
     /\ forallb (unlocked Example.number) mid = true
     /\ (status_cb Example.ready = true -> reply_cb Example.ready = true ->
         exists events last,
           mid = (events ++ [last])%list /\ is_emission last = true))
  /\ exists output w2,
       call_function Re_fragment.compile Re_fragment.matches Example.now
         Example.mpstate "again" (call_arguments Example.loads again_call)
         (emit (EPrint ("chat: Handling function call: " ++ "again")) busy)
       = (Ret output, w2)
       /\ Example.handle_call Example.failing_backend 3 again_call busy
          = Some (Ret tt,
                  emit (EPrint ("chat: Error sending function response: "
                                ++ "connection reset"))
                    (count_call
                       (emit (ESendMessage
                                (function_result_message Example.number
                                   Example.number_repr "again" output))
                          w2))).
Proof.
  pose proof (send_to_assistant_faults_caught Example.number
                Example.number_repr Example.loads Re_fragment.pattern
                Re_fragment.compile Re_fragment.matches
                Example.failing_backend (Ret tt) (Ret tt) Example.now
                Example.mpstate 2 4 "hello" Example.ready
                failing_backend_quiet (le_n 4) eq_refl) as H.
  cbv zeta in H. destruct H as (Hsend & _ & _ & _ & Hresult).
  split; [exact Hsend|].
  destruct (Hresult (Example.handle Example.failing_backend 3) again_call
              "again" busy eq_refl ltac:(discriminate) eq_refl)
    as (output & w2 & Hcall & _ & Hraise & _).
  exists output, w2. split; [exact Hcall|].
  exact (Hraise "connection reset" eq_refl).
Defined.

End Further.
